(** * NeuroContextOS native core: dense spike kernels, LIF layer, spike
    encoders and the SPSC sample ring buffer.

    The C++ sources are embedded shallowly:
    - [float] is a type [F] with an arithmetic interface [FloatOps]; two
      instances are given, IEEE-754 binary32 (on [SpecFloat], round to nearest
      even) and exact rationals [Qc];
    - raw pointers and [std::vector]s are lists; an access outside the list
      is undefined behaviour in C++ and is [None] here;
    - [int] is [Z]; signed overflow is undefined behaviour and is modelled
      where a result depends on it (the element count of the LIFLayer
      constructor, the 32-bit sums of the INT8 kernel); [size_t] is [Z] with
      the wrap-around modulo 2^64 written out;
    - the preprocessor switches HAVE_SME2 / HAVE_NEON are a [BuildConfig];
      the kernels that call each other across these switches take fuel, and
      [None] at that level means the call did not return. *)

From Stdlib Require Import ZArith QArith Qcanon Qround Qabs Qminmax Lia Lqa String.
From Stdlib Require Import Floats.SpecFloat.
From stdpp Require Import base tactics option list.

#[local] Open Scope Z_scope.

(** ** Float arithmetic *)

Class FloatOps (F : Type) := {
  f_of_int : Z -> F;            (* int -> float conversion, integral literals *)
  f_add : F -> F -> F;
  f_sub : F -> F -> F;
  f_mul : F -> F -> F;
  f_div : F -> F -> F;
  f_neg : F -> F;
  f_lt : F -> F -> bool;        (* operator<  *)
  f_le : F -> F -> bool;        (* operator<= *)
  f_to_int : F -> option Z      (* static_cast<int>; None where it is undefined *)
}.

Definition INT_MIN : Z := - 2 ^ 31.
Definition INT_MAX : Z := 2 ^ 31 - 1.

Definition in_int_range (z : Z) : bool := (INT_MIN <=? z) && (z <=? INT_MAX).

Section FloatDerived.
Context {F : Type} `{FloatOps F}.

Definition f_zero : F := f_of_int 0.
Definition f_one : F := f_of_int 1.
Definition f_two : F := f_of_int 2.

(* a > b and a >= b *)
Definition f_gt (a b : F) : bool := f_lt b a.
Definition f_ge (a b : F) : bool := f_le b a.

(* std::min(a, b) is (b < a) ? b : a, std::max(a, b) is (a < b) ? b : a *)
Definition std_min (a b : F) : F := if f_lt b a then b else a.
Definition std_max (a b : F) : F := if f_lt a b then b else a.
End FloatDerived.

(** IEEE-754 binary32, the [float] of the targets. *)
Module binary32.
Definition prec : Z := 24.
Definition emax : Z := 128.

Definition of_int (z : Z) : spec_float := binary_normalize prec emax z 0 false.

(* truncation toward zero; NaN, infinities and values outside int are
   undefined for static_cast<int> *)
Definition to_int (x : spec_float) : option Z :=
  match x with
  | S754_zero _ => Some 0
  | S754_finite s m e =>
      let mag := Z.shiftl (Zpos m) e in
      let v := if s then - mag else mag in
      if in_int_range v then Some v else None
  | S754_infinity _ => None
  | S754_nan => None
  end.

(* exact value of a finite float *)
Definition to_Q (x : spec_float) : option Q :=
  match x with
  | S754_zero _ => Some 0%Q
  | S754_finite s m e =>
      let mag := if 0 <=? e then inject_Z (Zpos m * 2 ^ e)
                 else (Zpos m # Z.to_pos (2 ^ (- e))) in
      Some (if s then Qopp mag else mag)
  | S754_infinity _ => None
  | S754_nan => None
  end.

(* neither an infinity nor a NaN *)
Definition is_finite (x : spec_float) : bool :=
  match x with
  | S754_zero _ | S754_finite _ _ _ => true
  | S754_infinity _ | S754_nan => false
  end.
End binary32.

#[export] Instance binary32_ops : FloatOps spec_float := {
  f_of_int := binary32.of_int;
  f_add := SFadd binary32.prec binary32.emax;
  f_sub := SFsub binary32.prec binary32.emax;
  f_mul := SFmul binary32.prec binary32.emax;
  f_div := SFdiv binary32.prec binary32.emax;
  f_neg := SFopp;
  f_lt := SFltb;
  f_le := SFleb;
  f_to_int := binary32.to_int
}.

(** Exact rational arithmetic: the same programs with no rounding. *)
Module exact.
Definition of_int (z : Z) : Qc := Q2Qc (inject_Z z).
Definition lt (a b : Qc) : bool := if Qclt_le_dec a b then true else false.
Definition le (a b : Qc) : bool := if Qclt_le_dec b a then false else true.
Definition to_int (x : Qc) : option Z :=
  let v := Z.quot (Qnum (this x)) (Zpos (Qden (this x))) in
  if in_int_range v then Some v else None.
End exact.

#[export] Instance exact_ops : FloatOps Qc := {
  f_of_int := exact.of_int;
  f_add := Qcplus;
  f_sub := Qcminus;
  f_mul := Qcmult;
  f_div := Qcdiv;
  f_neg := Qcopp;
  f_lt := exact.lt;
  f_le := exact.le;
  f_to_int := exact.to_int
}.

(** Agreement of two binary32 results within a relative tolerance:
    both finite and |a - b| <= tol * max(|a|, |b|). *)
Definition agree_within (tol : Q) (a b : spec_float) : Prop :=
  match binary32.to_Q a, binary32.to_Q b with
  | Some x, Some y =>
      (Qabs (x - y) <= tol * Qmax (Qabs x) (Qabs y))%Q
  | _, _ => False
  end.

(** ** Buffers and loops *)

(* p[i] as an rvalue *)
Definition rd {A : Type} (buf : list A) (i : Z) : option A :=
  if i <? 0 then None else buf !! Z.to_nat i.

(* p[i] = v *)
Definition wr {A : Type} (buf : list A) (i : Z) (v : A) : option (list A) :=
  if (0 <=? i) && (i <? Z.of_nat (length buf))
  then Some (<[Z.to_nat i := v]> buf) else None.

(* n iterations of a counted loop starting at i *)
Fixpoint for_loop {St : Type} (n : nat) (i : Z) (body : Z -> St -> option St) (s : St)
  : option St :=
  match n with
  | O => Some s
  | S n' => s' ← body i s; for_loop n' (i + 1) body s'
  end.

(* for (int i = lo; i < hi; ++i) body *)
Definition for_range {St : Type} (lo hi : Z) (body : Z -> St -> option St) (s : St)
  : option St :=
  for_loop (Z.to_nat (hi - lo)) lo body s.

(** ** Dense spike kernels (lif_layer.cpp, kernels/spike_dense_neon.cpp,
       kernels/spike_dense_sme2.cpp) *)

Record BuildConfig := { HAVE_SME2 : bool; HAVE_NEON : bool }.

(* 128-bit and 64-bit NEON registers of floats *)
Record float32x4_t (F : Type) := mk_f32x4 { q0 : F; q1 : F; q2 : F; q3 : F }.
Record float32x2_t (F : Type) := mk_f32x2 { d0 : F; d1 : F }.
Arguments mk_f32x4 {F}.
Arguments q0 {F}.
Arguments q1 {F}.
Arguments q2 {F}.
Arguments q3 {F}.
Arguments mk_f32x2 {F}.
Arguments d0 {F}.
Arguments d1 {F}.

Inductive kernel_fn := K_forward | K_neon | K_sme2.

Module kernels.
Section Kernels.
Context {F : Type} `{FloatOps F}.

Definition vdupq_n_f32 (x : F) : float32x4_t F := mk_f32x4 x x x x.

Definition vld1q_f32 (p : list F) (i : Z) : option (float32x4_t F) :=
  a ← rd p i; b ← rd p (i + 1); c ← rd p (i + 2); d ← rd p (i + 3);
  Some (mk_f32x4 a b c d).

(* a + b * c in every lane *)
Definition vmlaq_f32 (a b c : float32x4_t F) : float32x4_t F :=
  mk_f32x4 (f_add (q0 a) (f_mul (q0 b) (q0 c)))
           (f_add (q1 a) (f_mul (q1 b) (q1 c)))
           (f_add (q2 a) (f_mul (q2 b) (q2 c)))
           (f_add (q3 a) (f_mul (q3 b) (q3 c))).

Definition vget_low_f32 (v : float32x4_t F) : float32x2_t F := mk_f32x2 (q0 v) (q1 v).
Definition vget_high_f32 (v : float32x4_t F) : float32x2_t F := mk_f32x2 (q2 v) (q3 v).
Definition vadd_f32 (a b : float32x2_t F) : float32x2_t F :=
  mk_f32x2 (f_add (d0 a) (d0 b)) (f_add (d1 a) (d1 b)).
(* pairwise add: (a0 + a1, b0 + b1) *)
Definition vpadd_f32 (a b : float32x2_t F) : float32x2_t F :=
  mk_f32x2 (f_add (d0 a) (d1 a)) (f_add (d0 b) (d1 b)).
Definition vget_lane_f32_0 (v : float32x2_t F) : F := d0 v.

(** The scalar fallback of [spike_dense_forward]: the inner loop over i
    for one (b, o), then the two outer loops. *)
Definition scalar_row (spikes weights bias : list F) (input_size b o : Z)
  : option F :=
  sum ← rd bias o;
  for_range 0 input_size
    (fun i sum =>
       w ← rd weights (o * input_size + i);
       s ← rd spikes (b * input_size + i);
       Some (f_add sum (f_mul w s)))
    sum.

Definition scalar_loop (spikes weights bias output : list F)
    (batch_size input_size output_size : Z) : option (list F) :=
  for_range 0 batch_size
    (fun b output =>
       for_range 0 output_size
         (fun o output =>
            sum ← scalar_row spikes weights bias input_size b o;
            wr output (b * output_size + o) sum)
         output)
    output.

(** The HAVE_NEON body of [spike_dense_neon]. *)
(* for (; i + 3 < input_size; i += 4) sum_vec = vmlaq(sum_vec, spike, weight) *)
Fixpoint neon_vec_loop (fuel : nat) (spikes weights : list F)
    (input_size spike_row weight_row i : Z) (sum_vec : float32x4_t F)
  : option (Z * float32x4_t F) :=
  if i + 3 <? input_size then
    match fuel with
    | O => None
    | S fuel' =>
        spike_vec ← vld1q_f32 spikes (spike_row + i);
        weight_vec ← vld1q_f32 weights (weight_row + i);
        neon_vec_loop fuel' spikes weights input_size spike_row weight_row
          (i + 4) (vmlaq_f32 sum_vec spike_vec weight_vec)
    end
  else Some (i, sum_vec).

Definition neon_row (spikes weights bias : list F) (input_size b o : Z)
  : option F :=
  let spike_row := b * input_size in
  let weight_row := o * input_size in
  let sum_vec := vdupq_n_f32 f_zero in
  sum_scalar ← rd bias o;
  '(i, sum_vec) ← neon_vec_loop (Z.to_nat input_size) spikes weights
                    input_size spike_row weight_row 0 sum_vec;
  let sum_pair := vadd_f32 (vget_low_f32 sum_vec) (vget_high_f32 sum_vec) in
  let sum_scalar := f_add sum_scalar (vget_lane_f32_0 (vpadd_f32 sum_pair sum_pair)) in
  for_range i input_size
    (fun i sum_scalar =>
       w ← rd weights (weight_row + i);
       s ← rd spikes (spike_row + i);
       Some (f_add sum_scalar (f_mul w s)))
    sum_scalar.

Definition neon_loop (spikes weights bias output : list F)
    (batch_size input_size output_size : Z) : option (list F) :=
  for_range 0 batch_size
    (fun b output =>
       let output_row := b * output_size in
       for_range 0 output_size
         (fun o output =>
            sum_scalar ← neon_row spikes weights bias input_size b o;
            wr output (output_row + o) sum_scalar)
         output)
    output.

(** The three entry points and the calls between them, as selected by the
    preprocessor. The outer [option] is [None] when the call has not
    returned within [fuel] nested calls; the inner one is the kernel's
    result ([None]: out-of-bounds access). *)
Fixpoint call (cfg : BuildConfig) (fuel : nat) (k : kernel_fn)
    (spikes weights bias output : list F)
    (batch_size input_size output_size : Z) : option (option (list F)) :=
  match fuel with
  | O => None
  | S fuel' =>
      let go k' := call cfg fuel' k' spikes weights bias output
                     batch_size input_size output_size in
      match k with
      | K_forward =>
          if HAVE_SME2 cfg then go K_sme2
          else if HAVE_NEON cfg then go K_neon
          else Some (scalar_loop spikes weights bias output
                       batch_size input_size output_size)
      | K_neon =>
          if HAVE_NEON cfg
          then Some (neon_loop spikes weights bias output
                       batch_size input_size output_size)
          else go K_forward
      | K_sme2 =>
          (* both the HAVE_SME2 placeholder and the fallback definition *)
          if HAVE_NEON cfg then go K_neon else go K_forward
      end
  end.

(* the two outer loops, common to both bodies, around a row function *)
Definition dense_loop (row : Z -> Z -> option F) (output : list F)
    (batch_size output_size : Z) : option (list F) :=
  for_range 0 batch_size
    (fun b output =>
       for_range 0 output_size
         (fun o output => sum ← row b o; wr output (b * output_size + o) sum)
         output)
    output.

(* what the vadd / vpadd / vget_lane sequence leaves in lane 0 *)
Definition horizontal_sum (v : float32x4_t F) : F :=
  f_add (f_add (q0 v) (q2 v)) (f_add (q1 v) (q3 v)).

Definition spike_dense_forward cfg fuel := call cfg fuel K_forward.
Definition spike_dense_neon cfg fuel := call cfg fuel K_neon.
Definition spike_dense_sme2 cfg fuel := call cfg fuel K_sme2.

(** The dense linear result for output neuron o of batch row b,
    bias[o] + sum_i weights[o*input_size+i] * spikes[b*input_size+i],
    summed in index order; [default] stands for an element outside the
    buffers. *)
Definition dense_term (spikes weights : list F) (input_size b o : Z) (i : nat) : F :=
  f_mul (default f_zero (rd weights (o * input_size + Z.of_nat i)))
        (default f_zero (rd spikes (b * input_size + Z.of_nat i))).

Definition dense_spec (spikes weights bias : list F) (input_size b o : Z) : F :=
  fold_left f_add
    (map (dense_term spikes weights input_size b o) (seq 0 (Z.to_nat input_size)))
    (default f_zero (rd bias o)).

(** The same products in the order of the NEON loop: four interleaved lanes
    take the products of i = 4k, 4k+1, 4k+2, 4k+3 (spike times weight) for
    the floor(input_size / 4) full blocks, the lanes are added as
    (lane0 + lane2) + (lane1 + lane3) onto bias[o], and the products of the
    remaining i are added one by one. *)
Definition lanes_at (p : list F) (j : Z) : float32x4_t F :=
  mk_f32x4 (default f_zero (rd p j)) (default f_zero (rd p (j + 1)))
           (default f_zero (rd p (j + 2))) (default f_zero (rd p (j + 3))).

Fixpoint neon_lanes (spikes weights : list F) (spike_row weight_row : Z) (n : nat)
  : float32x4_t F :=
  match n with
  | O => vdupq_n_f32 f_zero
  | S n' =>
      vmlaq_f32 (neon_lanes spikes weights spike_row weight_row n')
        (lanes_at spikes (spike_row + 4 * Z.of_nat n'))
        (lanes_at weights (weight_row + 4 * Z.of_nat n'))
  end.

Definition neon_spec (spikes weights bias : list F) (input_size b o : Z) : F :=
  let n := Z.to_nat (input_size / 4) in
  fold_left f_add
    (map (dense_term spikes weights input_size b o)
         (seq (4 * n) (Z.to_nat input_size - 4 * n)))
    (f_add (default f_zero (rd bias o))
           (horizontal_sum
              (neon_lanes spikes weights (b * input_size) (o * input_size) n))).
End Kernels.
End kernels.

(** ** LIF layer (cortexn_snn.h, cortexn_snn.cpp) *)

Record LIFParams (F : Type) := mk_LIFParams {
  tau_mem : F;
  tau_syn : F;
  v_thresh : F;
  v_reset : F;
  v_rest : F;
  dt : F
}.
Arguments mk_LIFParams {F}.
Arguments tau_mem {F}.
Arguments tau_syn {F}.
Arguments v_thresh {F}.
Arguments v_reset {F}.
Arguments v_rest {F}.
Arguments dt {F}.

Record LIFLayer (F : Type) := mk_LIFLayer {
  input_size_ : Z;
  output_size_ : Z;
  params_ : LIFParams F;
  weights_ : list F;              (* [output_size, input_size] *)
  bias_ : list F;                 (* [output_size] *)
  membrane_potential_ : list F;   (* [output_size] *)
  synaptic_current_ : list F;     (* [output_size] *)
  beta_mem_ : F;
  beta_syn_ : F
}.
Arguments mk_LIFLayer {F}.
Arguments input_size_ {F}.
Arguments output_size_ {F}.
Arguments params_ {F}.
Arguments weights_ {F}.
Arguments bias_ {F}.
Arguments membrane_potential_ {F}.
Arguments synaptic_current_ {F}.
Arguments beta_mem_ {F}.
Arguments beta_syn_ {F}.

Module lif.
Section LIF.
Context {F : Type} `{FloatOps F}.

Definition set_state (L : LIFLayer F) (mp sc : list F) : LIFLayer F :=
  mk_LIFLayer (input_size_ L) (output_size_ L) (params_ L) (weights_ L) (bias_ L)
    mp sc (beta_mem_ L) (beta_syn_ L).

(* LIFLayer::LIFLayer; std_exp is std::exp of the C library. The sizes are
   ints and the number of weights, input_size * output_size, is computed in
   int, where overflow is undefined; a negative element count makes the
   vector constructors throw. In both cases no layer is constructed. The
   allocations are taken to succeed. *)
Definition create (std_exp : F -> F) (input_size output_size : Z)
    (params : LIFParams F) : option (LIFLayer F) :=
  if in_int_range input_size && in_int_range output_size
     && in_int_range (input_size * output_size)
     && (0 <=? input_size * output_size) && (0 <=? output_size)
  then
    Some (mk_LIFLayer input_size output_size params
            (replicate (Z.to_nat (input_size * output_size)) f_zero)
            (replicate (Z.to_nat output_size) f_zero)
            (replicate (Z.to_nat output_size) (v_rest params))
            (replicate (Z.to_nat output_size) f_zero)
            (std_exp (f_div (f_neg (dt params)) (tau_mem params)))
            (std_exp (f_div (f_neg (dt params)) (tau_syn params))))
  else None.

(* LIFLayer::compute_synaptic_input: the dispatching kernel with batch 1 *)
Definition compute_synaptic_input (cfg : BuildConfig) (fuel : nat) (L : LIFLayer F)
    (input_spikes synaptic_input : list F) : option (option (list F)) :=
  kernels.spike_dense_forward cfg fuel input_spikes (weights_ L) (bias_ L)
    synaptic_input 1 (input_size_ L) (output_size_ L).

(* one iteration of the loop of LIFLayer::update_neurons *)
Definition update_neuron (synaptic_input : list F) (i : Z)
    (st : LIFLayer F * list F) : option (LIFLayer F * list F) :=
  let '(L, output_spikes) := st in
  sc ← rd (synaptic_current_ L) i;
  si ← rd synaptic_input i;
  let sc' := f_add (f_mul (beta_syn_ L) sc) si in
  scs ← wr (synaptic_current_ L) i sc';
  mp ← rd (membrane_potential_ L) i;
  let mp' := f_add (f_mul (beta_mem_ L) mp) sc' in
  mps ← wr (membrane_potential_ L) i mp';
  if f_ge mp' (v_thresh (params_ L)) then
    output_spikes' ← wr output_spikes i f_one;
    mps' ← wr mps i (v_reset (params_ L));
    Some (set_state L mps' scs, output_spikes')
  else
    output_spikes' ← wr output_spikes i f_zero;
    Some (set_state L mps scs, output_spikes').

Definition update_neurons (L : LIFLayer F) (synaptic_input output_spikes : list F)
  : option (LIFLayer F * list F) :=
  for_range 0 (output_size_ L) (update_neuron synaptic_input) (L, output_spikes).

(* LIFLayer::forward; batch_size is not used by the source *)
Definition forward (cfg : BuildConfig) (fuel : nat) (L : LIFLayer F)
    (input_spikes output_spikes : list F) (batch_size : Z)
  : option (option (LIFLayer F * list F)) :=
  let synaptic_input := replicate (Z.to_nat (output_size_ L)) f_zero in
  match compute_synaptic_input cfg fuel L input_spikes synaptic_input with
  | None => None
  | Some None => Some None
  | Some (Some synaptic_input) =>
      Some (update_neurons L synaptic_input output_spikes)
  end.

(* LIFLayer::reset: std::fill over both state vectors *)
Definition reset (L : LIFLayer F) : LIFLayer F :=
  set_state L
    (replicate (length (membrane_potential_ L)) (v_rest (params_ L)))
    (replicate (length (synaptic_current_ L)) f_zero).

(* neuron i of L' and element i of output_spikes' are what one step of the
   LIF dynamics makes of neuron i of L under synaptic_input *)
Definition neuron_updated (L : LIFLayer F) (synaptic_input : list F)
    (L' : LIFLayer F) (output_spikes' : list F) (i : Z) : Prop :=
  exists sc mp si,
    rd (synaptic_current_ L) i = Some sc /\
    rd (membrane_potential_ L) i = Some mp /\
    rd synaptic_input i = Some si /\
    let sc' := f_add (f_mul (beta_syn_ L) sc) si in
    let mp' := f_add (f_mul (beta_mem_ L) mp) sc' in
    rd (synaptic_current_ L') i = Some sc' /\
    if f_ge mp' (v_thresh (params_ L))
    then rd output_spikes' i = Some f_one /\
         rd (membrane_potential_ L') i = Some (v_reset (params_ L))
    else rd output_spikes' i = Some f_zero /\
         rd (membrane_potential_ L') i = Some mp'.

(* the sizes the constructor establishes *)
Definition well_formed (L : LIFLayer F) : Prop :=
  0 <= input_size_ L /\ 0 <= output_size_ L /\
  Z.of_nat (length (weights_ L)) = input_size_ L * output_size_ L /\
  Z.of_nat (length (bias_ L)) = output_size_ L /\
  Z.of_nat (length (membrane_potential_ L)) = output_size_ L /\
  Z.of_nat (length (synaptic_current_ L)) = output_size_ L.
End LIF.
End lif.

(** ** Spike encoders (spike_encoder.h, spike_encoder.cpp, cortexn_snn.cpp) *)

(** What the encoders take from the C++ standard library: [std::exp],
    [std::mt19937] and one draw of [std::uniform_real_distribution<float>]. *)
Class StdLib (F : Type) := {
  std_exp : F -> F;
  mt19937 : Type;
  mt19937_seed : Z -> mt19937;
  uniform_real_draw : F -> F -> mt19937 -> F * mt19937
}.

Inductive EncodingType := RATE | LATENCY | TEMPORAL.

Module enc.
Section Encoders.
Context {F : Type} `{FloatOps F} `{StdLib F}.

(** RateEncoder *)
Record RateEncoder := mk_RateEncoder {
  gain_ : F;
  rng_ : mt19937;
  dist_ : F * F
}.

Definition RateEncoder_new (gain : F) (seed : Z) : RateEncoder :=
  mk_RateEncoder gain (mt19937_seed seed) (f_zero, f_one).

(* the default arguments gain = 10.0f, seed = 42 *)
Definition RateEncoder_default : RateEncoder := RateEncoder_new (f_of_int 10) 42.

Definition RateEncoder_encode (e : RateEncoder) (input : F) : F * RateEncoder :=
  let rate := f_div f_one (f_add f_one (std_exp (f_mul (f_neg (gain_ e)) input))) in
  let '(u, rng') := uniform_real_draw (fst (dist_ e)) (snd (dist_ e)) (rng_ e) in
  (if f_lt u rate then f_one else f_zero, mk_RateEncoder (gain_ e) rng' (dist_ e)).

(** LatencyEncoder *)
Definition LatencyEncoder_encode (num_steps : Z) (input : F) : option Z :=
  let normalized := f_div (f_add input f_one) f_two in
  let normalized := std_max f_zero (std_min f_one normalized) in
  spike_time ← f_to_int (f_mul (f_sub f_one normalized) (f_of_int num_steps));
  Some (Z.min spike_time (num_steps - 1)).

(** TemporalContrastEncoder (spike_encoder.cpp) *)
Record TemporalContrastEncoder := mk_TemporalContrastEncoder {
  tc_input_size_ : Z;
  threshold_ : F;
  prev_input_ : list F
}.

Definition TemporalContrastEncoder_new (input_size : Z) (threshold : F)
  : TemporalContrastEncoder :=
  mk_TemporalContrastEncoder input_size threshold
    (replicate (Z.to_nat input_size) f_zero).

Definition TemporalContrastEncoder_encode (e : TemporalContrastEncoder)
    (input on_spikes off_spikes : list F)
  : option (TemporalContrastEncoder * list F * list F) :=
  r ← for_range 0 (tc_input_size_ e)
        (fun i '(prev, on, off) =>
           x ← rd input i;
           p ← rd prev i;
           let delta := f_sub x p in
           let '(on_v, off_v) :=
             if f_gt delta (threshold_ e) then (f_one, f_zero)
             else if f_lt delta (f_neg (threshold_ e)) then (f_zero, f_one)
             else (f_zero, f_zero) in
           on' ← wr on i on_v;
           off' ← wr off i off_v;
           prev' ← wr prev i x;
           Some (prev', on', off'))
        (prev_input_ e, on_spikes, off_spikes);
  let '(prev, on, off) := r in
  Some (mk_TemporalContrastEncoder (tc_input_size_ e) (threshold_ e) prev, on, off).

(** SpikeEncoder *)
Record SpikeEncoder := mk_SpikeEncoder {
  input_size_ : Z;
  num_steps_ : Z;
  type_ : EncodingType
}.

Definition encode_rate (e : SpikeEncoder) (input spike_trains : list F)
    (batch_size : Z) : option (list F) :=
  let encoder := RateEncoder_default in
  r ← for_range 0 (num_steps_ e)
        (fun t st =>
           for_range 0 batch_size
             (fun b st =>
                for_range 0 (input_size_ e)
                  (fun i '(encoder, spike_trains) =>
                     let idx := t * batch_size * input_size_ e
                                + b * input_size_ e + i in
                     x ← rd input (b * input_size_ e + i);
                     let '(v, encoder') := RateEncoder_encode encoder x in
                     spike_trains' ← wr spike_trains idx v;
                     Some (encoder', spike_trains'))
                  st)
             st)
        (encoder, spike_trains);
  Some (snd r).

(* what encode_rate computes, spelled out: the k-th input it presents (in
   loop order t, b, i), the RateEncoder before the k-th draw, and the k-th
   spike *)
Definition rate_input (input : list F) (batch_size input_size : Z) (k : nat) : F :=
  default f_zero (rd input (Z.of_nat k mod (batch_size * input_size))).

Fixpoint rate_encoder_before (xs : nat -> F) (k : nat) : RateEncoder :=
  match k with
  | O => RateEncoder_default
  | S k' => snd (RateEncoder_encode (rate_encoder_before xs k') (xs k'))
  end.

Definition rate_spike (xs : nat -> F) (k : nat) : F :=
  fst (RateEncoder_encode (rate_encoder_before xs k) (xs k)).

(* std::memset(p, 0, n * sizeof(float)): the first n floats become 0.0f *)
Definition memset_zero (p : list F) (n : Z) : option (list F) :=
  if (0 <=? n) && (n <=? Z.of_nat (length p))
  then Some (replicate (Z.to_nat n) f_zero ++ drop (Z.to_nat n) p)
  else None.

Definition encode_latency (e : SpikeEncoder) (input spike_trains : list F)
    (batch_size : Z) : option (list F) :=
  spike_trains ← memset_zero spike_trains (num_steps_ e * batch_size * input_size_ e);
  for_range 0 batch_size
    (fun b spike_trains =>
       for_range 0 (input_size_ e)
         (fun i spike_trains =>
            x ← rd input (b * input_size_ e + i);
            spike_time ← LatencyEncoder_encode (num_steps_ e) x;
            let idx := spike_time * batch_size * input_size_ e
                       + b * input_size_ e + i in
            wr spike_trains idx f_one)
         spike_trains)
    spike_trains.

(* SpikeEncoder::encode: the new contents of spike_trains, the encoder
   after the call and the lines sent to LOGE *)
Definition encode (e : SpikeEncoder) (input spike_trains : list F) (batch_size : Z)
  : option (SpikeEncoder * list F * list string) :=
  match type_ e with
  | RATE => st ← encode_rate e input spike_trains batch_size; Some (e, st, [])
  | LATENCY => st ← encode_latency e input spike_trains batch_size; Some (e, st, [])
  | TEMPORAL => Some (e, spike_trains, ["Unsupported encoding type"%string])
  end.
End Encoders.
End enc.

(** The latency code in the words of the specification, over the rationals:
    normalize to [0,1] by (x+1)/2 clamped, spike time
    floor((1 - normalized) * num_steps), clamped to [0, num_steps - 1]. *)
Definition latency_spike_time (num_steps : Z) (x : Q) : Z :=
  Z.max 0
    (Z.min (num_steps - 1)
       (Qfloor ((1 - Qmax 0 (Qmin 1 ((x + 1) / 2))) * inject_Z num_steps))).

(** ** SPSC sample ring buffer (audiogen-lite ring_buffer.h, ring_buffer.cpp) *)

Definition SIZE_MOD : Z := 2 ^ 64.
(* size_t arithmetic wraps modulo 2^64 *)
Definition wrap (z : Z) : Z := z mod SIZE_MOD.
Definition sizeof_float : Z := 4.

(* std::memcpy(dst + dpos, src + spos, bytes) on arrays of floats *)
Definition memcpy {A : Type} (dst : list A) (dpos : Z) (src : list A) (spos : Z)
    (bytes : Z) : option (list A) :=
  let n := bytes / sizeof_float in
  if (0 <=? dpos) && (0 <=? spos) && (0 <=? n)
     && (dpos + n <=? Z.of_nat (length dst))
     && (spos + n <=? Z.of_nat (length src))
  then Some (take (Z.to_nat dpos) dst
             ++ take (Z.to_nat n) (drop (Z.to_nat spos) src)
             ++ drop (Z.to_nat (dpos + n)) dst)
  else None.

Module ring_buffer.
Section RingBuffer.
Context {F : Type} `{FloatOps F}.

Record RingBuffer := mk_RingBuffer {
  buffer_ : list F;
  capacity_ : Z;
  write_pos_ : Z;
  read_pos_ : Z
}.

(* RingBuffer::RingBuffer. aligned_alloc is taken to grant the request; the
   block holds (capacity_ * sizeof(float) mod 2^64) / sizeof(float) floats,
   and fill_n over capacity_ floats stays inside it only if the byte count
   did not wrap. *)
Definition create (capacity : Z) : option RingBuffer :=
  let capacity_ := wrap (capacity + 1) in
  let bytes := wrap (capacity_ * sizeof_float) in
  if bytes =? capacity_ * sizeof_float
  then Some (mk_RingBuffer (replicate (Z.to_nat capacity_) f_zero) capacity_ 0 0)
  else None.

Definition available (rb : RingBuffer) : Z :=
  let write_pos := write_pos_ rb in
  let read_pos := read_pos_ rb in
  if write_pos >=? read_pos then wrap (write_pos - read_pos)
  else wrap (capacity_ rb - wrap (read_pos - write_pos)).

Definition remaining (rb : RingBuffer) : Z :=
  wrap (wrap (capacity_ rb - available rb) - 1).

Definition empty (rb : RingBuffer) : bool := available rb =? 0.
Definition full (rb : RingBuffer) : bool := remaining rb =? 0.

(* a % b on size_t; division by zero is undefined *)
Definition size_rem (a b : Z) : option Z := if b =? 0 then None else Some (a mod b).

Definition write (rb : RingBuffer) (data : list F) (count : Z)
  : option (RingBuffer * Z) :=
  let write_pos := write_pos_ rb in
  let read_pos := read_pos_ rb in
  let space :=
    if write_pos >=? read_pos
    then wrap (wrap (capacity_ rb - wrap (write_pos - read_pos)) - 1)
    else wrap (wrap (read_pos - write_pos) - 1) in
  let count := Z.min count space in
  if count =? 0 then Some (rb, 0)
  else
    let first_chunk := Z.min count (wrap (capacity_ rb - write_pos)) in
    buf ← memcpy (buffer_ rb) write_pos data 0 (wrap (first_chunk * sizeof_float));
    buf ← (if first_chunk <? count then
             let second_chunk := wrap (count - first_chunk) in
             memcpy buf 0 data first_chunk (wrap (second_chunk * sizeof_float))
           else Some buf);
    new_write_pos ← size_rem (wrap (write_pos + count)) (capacity_ rb);
    Some (mk_RingBuffer buf (capacity_ rb) new_write_pos read_pos, count).

Definition read (rb : RingBuffer) (data : list F) (count : Z)
  : option (RingBuffer * list F * Z) :=
  let read_pos := read_pos_ rb in
  let write_pos := write_pos_ rb in
  let avail :=
    if write_pos >=? read_pos then wrap (write_pos - read_pos)
    else wrap (capacity_ rb - wrap (read_pos - write_pos)) in
  let count := Z.min count avail in
  if count =? 0 then Some (rb, data, 0)
  else
    let first_chunk := Z.min count (wrap (capacity_ rb - read_pos)) in
    data ← memcpy data 0 (buffer_ rb) read_pos (wrap (first_chunk * sizeof_float));
    data ← (if first_chunk <? count then
              let second_chunk := wrap (count - first_chunk) in
              memcpy data first_chunk (buffer_ rb) 0 (wrap (second_chunk * sizeof_float))
            else Some data);
    new_read_pos ← size_rem (wrap (read_pos + count)) (capacity_ rb);
    Some (mk_RingBuffer (buffer_ rb) (capacity_ rb) write_pos new_read_pos, data, count).

Definition clear (rb : RingBuffer) : RingBuffer :=
  mk_RingBuffer (buffer_ rb) (capacity_ rb) (write_pos_ rb) (write_pos_ rb).

(** Sequential histories of calls on one buffer. *)
Inductive op :=
| OpWrite (data : list F) (count : Z)
| OpRead (data : list F) (count : Z)
| OpClear.

Inductive event :=
| EvWrite (data : list F) (ret : Z)      (* the caller's data, the count returned *)
| EvRead (data : list F) (ret : Z)       (* the caller's buffer after the call *)
| EvClear.

Definition step (rb : RingBuffer) (o : op) : option (RingBuffer * event) :=
  match o with
  | OpWrite data count => '(rb', ret) ← write rb data count; Some (rb', EvWrite data ret)
  | OpRead data count => '(rb', data', ret) ← read rb data count; Some (rb', EvRead data' ret)
  | OpClear => Some (clear rb, EvClear)
  end.

Fixpoint run (rb : RingBuffer) (ops : list op) : option (RingBuffer * list event) :=
  match ops with
  | [] => Some (rb, [])
  | o :: ops' =>
      '(rb', ev) ← step rb o;
      '(rb'', evs) ← run rb' ops';
      Some (rb'', ev :: evs)
  end.

(* the samples the writes copied in, and the samples the reads handed out *)
Fixpoint written (evs : list event) : list F :=
  match evs with
  | [] => []
  | EvWrite data ret :: evs' => take (Z.to_nat ret) data ++ written evs'
  | _ :: evs' => written evs'
  end.

Fixpoint read_out (evs : list event) : list F :=
  match evs with
  | [] => []
  | EvRead data ret :: evs' => take (Z.to_nat ret) data ++ read_out evs'
  | _ :: evs' => read_out evs'
  end.

Definition is_rw (o : op) : bool :=
  match o with OpClear => false | _ => true end.

(* a call within its contract: count is a size_t and the caller's array
   holds count floats *)
Definition op_ok (o : op) : Prop :=
  match o with
  | OpWrite data count => 0 <= count < SIZE_MOD /\ count <= Z.of_nat (length data)
  | OpRead data count => 0 <= count < SIZE_MOD /\ count <= Z.of_nat (length data)
  | OpClear => True
  end.

(* the class invariant: what the constructor establishes and the methods keep *)
Definition well_formed (rb : RingBuffer) : Prop :=
  0 < capacity_ rb /\ capacity_ rb * sizeof_float < SIZE_MOD /\
  Z.of_nat (length (buffer_ rb)) = capacity_ rb /\
  0 <= write_pos_ rb < capacity_ rb /\
  0 <= read_pos_ rb < capacity_ rb.

(* the unread samples, oldest first *)
Definition contents (rb : RingBuffer) : list F :=
  take (Z.to_nat (available rb))
       (drop (Z.to_nat (read_pos_ rb)) (buffer_ rb ++ buffer_ rb)).
End RingBuffer.
End ring_buffer.

(** ** The rest of the layer interface (cortexn_snn.cpp) *)

Section LayerExtras.
Context {F : Type} `{FloatOps F}.

(* LIFLayer::load_weights: two memcpy of weights_.size() and bias_.size()
   floats from the caller's arrays *)
Definition load_weights (L : LIFLayer F) (weights bias : list F)
  : option (LIFLayer F) :=
  w ← memcpy (weights_ L) 0 weights 0
        (wrap (Z.of_nat (length (weights_ L)) * sizeof_float));
  b ← memcpy (bias_ L) 0 bias 0
        (wrap (Z.of_nat (length (bias_ L)) * sizeof_float));
  Some (mk_LIFLayer (input_size_ L) (output_size_ L) (params_ L) w b
          (membrane_potential_ L) (synaptic_current_ L)
          (beta_mem_ L) (beta_syn_ L)).
End LayerExtras.

(** ** Spike ring buffer (cortexn-snn utils/ring_buffer.h) *)

Module spike_ring.
Section SpikeRing.
Context {T : Type}.

Record RingBuffer := mk_RingBuffer {
  buffer_ : list T;
  capacity_ : Z;
  write_idx_ : Z;
  read_idx_ : Z
}.

(* RingBuffer(capacity): a vector of capacity value-initialized items *)
Definition create (init : T) (capacity : Z) : RingBuffer :=
  mk_RingBuffer (replicate (Z.to_nat capacity) init) capacity 0 0.

Definition push (rb : RingBuffer) (item : T) : option (RingBuffer * bool) :=
  let current_write := write_idx_ rb in
  next_write ← ring_buffer.size_rem (wrap (current_write + 1)) (capacity_ rb);
  if next_write =? read_idx_ rb then Some (rb, false)
  else
    buf ← wr (buffer_ rb) current_write item;
    Some (mk_RingBuffer buf (capacity_ rb) next_write (read_idx_ rb), true).

(* bool pop(T& item): the buffer, the caller's item after the call, and the
   result *)
Definition pop (rb : RingBuffer) (item : T) : option (RingBuffer * T * bool) :=
  let current_read := read_idx_ rb in
  if current_read =? write_idx_ rb then Some (rb, item, false)
  else
    v ← rd (buffer_ rb) current_read;
    next_read ← ring_buffer.size_rem (wrap (current_read + 1)) (capacity_ rb);
    Some (mk_RingBuffer (buffer_ rb) (capacity_ rb) (write_idx_ rb) next_read,
          v, true).

Definition size (rb : RingBuffer) : Z :=
  let write := write_idx_ rb in
  let read := read_idx_ rb in
  if write >=? read then wrap (write - read)
  else wrap (wrap (capacity_ rb - read) + write).

Definition empty (rb : RingBuffer) : bool := read_idx_ rb =? write_idx_ rb.

Definition full (rb : RingBuffer) : option bool :=
  next_write ← ring_buffer.size_rem (wrap (write_idx_ rb + 1)) (capacity_ rb);
  Some (next_write =? read_idx_ rb).

Definition clear (rb : RingBuffer) : RingBuffer :=
  mk_RingBuffer (buffer_ rb) (capacity_ rb) (write_idx_ rb) (write_idx_ rb).

(* the class invariant *)
Definition well_formed (rb : RingBuffer) : Prop :=
  0 < capacity_ rb < SIZE_MOD /\
  Z.of_nat (length (buffer_ rb)) = capacity_ rb /\
  0 <= write_idx_ rb < capacity_ rb /\
  0 <= read_idx_ rb < capacity_ rb.

(* a producer pushing the items of l one after the other, with the result
   of each push *)
Fixpoint push_all (rb : RingBuffer) (l : list T) : option (RingBuffer * list bool) :=
  match l with
  | [] => Some (rb, [])
  | item :: l' =>
      '(rb', ok) ← push rb item;
      '(rb'', oks) ← push_all rb' l';
      Some (rb'', ok :: oks)
  end.

(* the items pushed and not yet popped, oldest first *)
Definition items (rb : RingBuffer) : list T :=
  take (Z.to_nat (size rb))
       (drop (Z.to_nat (read_idx_ rb)) (buffer_ rb ++ buffer_ rb)).
End SpikeRing.
End spike_ring.

(** ** INT8 quantized dense kernel (kernels/spike_dense_neon.cpp, the
       HAVE_I8MM body of spike_dense_neon_int8) *)

(* two's complement wrap-around to a signed integer of the given width *)
Definition sint (bits z : Z) : Z :=
  (z + 2 ^ (bits - 1)) mod 2 ^ bits - 2 ^ (bits - 1).

Arguments sint : simpl never.

(* int8_t values *)
Definition is_int8 (z : Z) : Prop := -128 <= z <= 127.

(* 64-bit and 128-bit NEON registers of integers; a 128-bit register of
   bytes is its low and its high half *)
Record int8x8_t := mk_s8x8 {
  b0 : Z; b1 : Z; b2 : Z; b3 : Z; b4 : Z; b5 : Z; b6 : Z; b7 : Z
}.
Record int8x16_t := mk_s8x16 { lo8 : int8x8_t; hi8 : int8x8_t }.
(* every lane holds an int8_t value *)
Definition int8x8_ok (v : int8x8_t) : Prop :=
  is_int8 (b0 v) /\ is_int8 (b1 v) /\ is_int8 (b2 v) /\ is_int8 (b3 v) /\
  is_int8 (b4 v) /\ is_int8 (b5 v) /\ is_int8 (b6 v) /\ is_int8 (b7 v).
Record int16x8_t := mk_s16x8 {
  h0 : Z; h1 : Z; h2 : Z; h3 : Z; h4 : Z; h5 : Z; h6 : Z; h7 : Z
}.
Record int32x4_t := mk_s32x4 { w0 : Z; w1 : Z; w2 : Z; w3 : Z }.
Record int32x2_t := mk_s32x2 { e0 : Z; e1 : Z }.

Module kernels_int8.
Section KernelsInt8.
Context {F : Type} `{FloatOps F}.

Definition vld1_s8 (p : list Z) (i : Z) : option int8x8_t :=
  x0 ← rd p i; x1 ← rd p (i + 1); x2 ← rd p (i + 2); x3 ← rd p (i + 3);
  x4 ← rd p (i + 4); x5 ← rd p (i + 5); x6 ← rd p (i + 6); x7 ← rd p (i + 7);
  Some (mk_s8x8 x0 x1 x2 x3 x4 x5 x6 x7).

Definition vld1q_s8 (p : list Z) (i : Z) : option int8x16_t :=
  lo ← vld1_s8 p i; hi ← vld1_s8 p (i + 8); Some (mk_s8x16 lo hi).

Definition vget_low_s8 (v : int8x16_t) : int8x8_t := lo8 v.
Definition vget_high_s8 (v : int8x16_t) : int8x8_t := hi8 v.

(* widening multiply: int8 x int8 -> int16 in every lane *)
Definition vmull_s8 (a b : int8x8_t) : int16x8_t :=
  mk_s16x8 (sint 16 (b0 a * b0 b)) (sint 16 (b1 a * b1 b))
           (sint 16 (b2 a * b2 b)) (sint 16 (b3 a * b3 b))
           (sint 16 (b4 a * b4 b)) (sint 16 (b5 a * b5 b))
           (sint 16 (b6 a * b6 b)) (sint 16 (b7 a * b7 b)).

(* pairwise add long: adjacent int16 lanes added into int32 lanes *)
Definition vpaddlq_s16 (v : int16x8_t) : int32x4_t :=
  mk_s32x4 (h0 v + h1 v) (h2 v + h3 v) (h4 v + h5 v) (h6 v + h7 v).

(* lane-wise addition, wrapping *)
Definition vaddq_s32 (a b : int32x4_t) : int32x4_t :=
  mk_s32x4 (sint 32 (w0 a + w0 b)) (sint 32 (w1 a + w1 b))
           (sint 32 (w2 a + w2 b)) (sint 32 (w3 a + w3 b)).

Definition vdupq_n_s32 (x : Z) : int32x4_t := mk_s32x4 x x x x.
Definition vget_low_s32 (v : int32x4_t) : int32x2_t := mk_s32x2 (w0 v) (w1 v).
Definition vget_high_s32 (v : int32x4_t) : int32x2_t := mk_s32x2 (w2 v) (w3 v).
Definition vadd_s32 (a b : int32x2_t) : int32x2_t :=
  mk_s32x2 (sint 32 (e0 a + e0 b)) (sint 32 (e1 a + e1 b)).
Definition vpadd_s32 (a b : int32x2_t) : int32x2_t :=
  mk_s32x2 (sint 32 (e0 a + e1 a)) (sint 32 (e0 b + e1 b)).
Definition vget_lane_s32_0 (v : int32x2_t) : Z := e0 v.

(* a + b on int32_t: signed overflow is undefined *)
Definition int_add (a b : Z) : option Z :=
  if in_int_range (a + b) then Some (a + b) else None.

(* for (; i + 15 < input_size; i += 16) *)
Fixpoint int8_vec_loop (fuel : nat) (spikes weights : list Z)
    (input_size spike_row weight_row i : Z) (sum_vec : int32x4_t)
  : option (Z * int32x4_t) :=
  if i + 15 <? input_size then
    match fuel with
    | O => None
    | S fuel' =>
        spike_vec ← vld1q_s8 spikes (spike_row + i);
        weight_vec ← vld1q_s8 weights (weight_row + i);
        let prod_lo := vmull_s8 (vget_low_s8 spike_vec) (vget_low_s8 weight_vec) in
        let prod_hi := vmull_s8 (vget_high_s8 spike_vec) (vget_high_s8 weight_vec) in
        let sum_vec := vaddq_s32 sum_vec (vpaddlq_s16 prod_lo) in
        let sum_vec := vaddq_s32 sum_vec (vpaddlq_s16 prod_hi) in
        int8_vec_loop fuel' spikes weights input_size spike_row weight_row
          (i + 16) sum_vec
    end
  else Some (i, sum_vec).

(* static_cast<int8_t>(std::max(-128, std::min(127,
     static_cast<int>(sum_scalar * scale)))) *)
Definition quantize (scale : F) (sum_scalar : Z) : option Z :=
  v ← f_to_int (f_mul (f_of_int sum_scalar) scale);
  Some (Z.max (-128) (Z.min 127 v)).

(* the body of the loop over o: the value stored in output_row[o] *)
Definition int8_row (spikes weights bias : list Z) (input_size b o : Z) (scale : F)
  : option Z :=
  let spike_row := b * input_size in
  let weight_row := o * input_size in
  let sum_vec := vdupq_n_s32 0 in
  sum_scalar ← rd bias o;
  '(i, sum_vec) ← int8_vec_loop (Z.to_nat input_size) spikes weights
                    input_size spike_row weight_row 0 sum_vec;
  let sum_pair := vadd_s32 (vget_low_s32 sum_vec) (vget_high_s32 sum_vec) in
  sum_scalar ← int_add sum_scalar (vget_lane_s32_0 (vpadd_s32 sum_pair sum_pair));
  sum_scalar ← for_range i input_size
                 (fun i sum_scalar =>
                    w ← rd weights (weight_row + i);
                    s ← rd spikes (spike_row + i);
                    (* the product of two int8_t values, as int *)
                    int_add sum_scalar (w * s))
                 sum_scalar;
  quantize scale sum_scalar.

Definition spike_dense_neon_int8 (spikes weights bias output : list Z)
    (batch_size input_size output_size : Z) (scale : F) : option (list Z) :=
  for_range 0 batch_size
    (fun b output =>
       let output_row := b * output_size in
       for_range 0 output_size
         (fun o output =>
            q ← int8_row spikes weights bias input_size b o scale;
            wr output (output_row + o) q)
         output)
    output.

(* the sum of the first n products weights[weight_row + i] * spikes[spike_row + i],
   over the integers *)
Fixpoint int8_dot (spikes weights : list Z) (spike_row weight_row : Z) (n : nat) : Z :=
  match n with
  | O => 0
  | S n' =>
      int8_dot spikes weights spike_row weight_row n'
      + default 0 (rd weights (weight_row + Z.of_nat n'))
        * default 0 (rd spikes (spike_row + Z.of_nat n'))
  end.
End KernelsInt8.
End kernels_int8.

(** ** GEMM microbenchmark kernels (native/microbench/sme2_vs_neon_gemm.cpp) *)

(* for (j = j0; j < hi; j += step) body *)
Fixpoint for_stride {St : Type} (fuel : nat) (j step hi : Z)
    (body : Z -> St -> option St) (s : St) : option St :=
  if j <? hi then
    match fuel with
    | O => None
    | S fuel' => s' ← body j s; for_stride fuel' (j + step) step hi body s'
    end
  else Some s.

Module gemm.
Section Gemm.
Context {F : Type} `{FloatOps F}.

Record Matrix := mk_Matrix { data : list F; rows : Z; cols : Z }.

(* vst1q_f32(p + i, v) *)
Definition vst1q_f32 (p : list F) (i : Z) (v : float32x4_t F) : option (list F) :=
  p ← wr p i (q0 v); p ← wr p (i + 1) (q1 v);
  p ← wr p (i + 2) (q2 v); wr p (i + 3) (q3 v).

(* the new contents of C.data *)
Definition gemm_scalar (A B C : Matrix) : option (list F) :=
  for_range 0 (rows A)
    (fun i c =>
       for_range 0 (cols B)
         (fun j c =>
            sum ← for_range 0 (cols A)
                    (fun k sum =>
                       a ← rd (data A) (i * cols A + k);
                       b ← rd (data B) (k * cols B + j);
                       Some (f_add sum (f_mul a b)))
                    f_zero;
            wr c (i * cols C + j) sum)
         c)
    (data C).

Definition gemm_neon (A B C : Matrix) : option (list F) :=
  let M := rows A in
  let N := cols B in
  let K := cols A in
  for_range 0 M
    (fun i c =>
       for_stride (Z.to_nat N) 0 4 N
         (fun j c =>
            sum ← for_range 0 K
                    (fun k sum =>
                       a ← rd (data A) (i * cols A + k);
                       b ← kernels.vld1q_f32 (data B) (k * cols B + j);
                       Some (kernels.vmlaq_f32 sum (kernels.vdupq_n_f32 a) b))
                    (kernels.vdupq_n_f32 f_zero);
            vst1q_f32 c (i * cols C + j) sum)
         c)
    (data C).

(* NEON with blocking for cache efficiency *)
Definition BLOCK_SIZE : Z := 64.

Definition gemm_neon_blocked (A B C : Matrix) : option (list F) :=
  let M := rows A in
  let N := cols B in
  let K := cols A in
  c ← enc.memset_zero (data C) (M * N);
  for_stride (Z.to_nat M) 0 BLOCK_SIZE M
    (fun ii c =>
       for_stride (Z.to_nat N) 0 BLOCK_SIZE N
         (fun jj c =>
            for_stride (Z.to_nat K) 0 BLOCK_SIZE K
              (fun kk c =>
                 let i_end := Z.min (ii + BLOCK_SIZE) M in
                 let j_end := Z.min (jj + BLOCK_SIZE) N in
                 let k_end := Z.min (kk + BLOCK_SIZE) K in
                 for_range ii i_end
                   (fun i c =>
                      for_stride (Z.to_nat N) jj 4 j_end
                        (fun j c =>
                           sum ← kernels.vld1q_f32 c (i * cols C + j);
                           sum ← for_range kk k_end
                                   (fun k sum =>
                                      a ← rd (data A) (i * cols A + k);
                                      b ← kernels.vld1q_f32 (data B) (k * cols B + j);
                                      Some (kernels.vmlaq_f32 sum
                                              (kernels.vdupq_n_f32 a) b))
                                   sum;
                           vst1q_f32 c (i * cols C + j) sum)
                        c)
                   c)
              c)
         c)
    c.

(* gemm_sme2, compiled under HAVE_SME2: the placeholder falls back to the
   blocked NEON kernel, or to the scalar one without HAVE_NEON *)
Definition gemm_sme2 (cfg : BuildConfig) (A B C : Matrix) : option (list F) :=
  if HAVE_NEON cfg then gemm_neon_blocked A B C else gemm_scalar A B C.

(* the entry of the product at (i, j), accumulated in the order of k: the
   sum of the first n terms, and the whole sum *)
Definition dot_upto (A B : Matrix) (i j : Z) (n : nat) : F :=
  fold_left
    (fun sum k =>
       f_add sum (f_mul (default f_zero (rd (data A) (i * cols A + Z.of_nat k)))
                        (default f_zero (rd (data B) (Z.of_nat k * cols B + j)))))
    (seq 0 n) f_zero.

Definition dot (A B : Matrix) (i j : Z) : F :=
  dot_upto A B i j (Z.to_nat (cols A)).

(* How many terms of C(i', j') the blocked kernel has accumulated when it is
   about to handle columns j .. j + 3 of row i in the block that starts at
   (ii, jj, kk), and the contents of C at that point. *)
Definition blocked_progress (K ii jj kk i j i' j' : Z) : Z :=
  if i' <? ii then K
  else if ii + BLOCK_SIZE <=? i' then 0
  else if j' <? jj then K
  else if jj + BLOCK_SIZE <=? j' then 0
  else if i' <? i then Z.min (kk + BLOCK_SIZE) K
  else if i <? i' then Z.min kk K
  else if j' <? j then Z.min (kk + BLOCK_SIZE) K
  else Z.min kk K.

Definition blocked_state (A B C : Matrix) (ii jj kk i j : Z) (c : list F) : Prop :=
  length c = length (data C) /\
  (forall i' j', 0 <= i' < rows A -> 0 <= j' < cols B ->
     rd c (i' * cols B + j')
     = Some (dot_upto A B i' j'
               (Z.to_nat (blocked_progress (cols A) ii jj kk i j i' j')))) /\
  (forall k, ~ 0 <= k < rows A * cols B -> rd c k = rd (data C) k).
End Gemm.
End gemm.

(** A stand-in for the C++ standard library, only to run the encoders on
    examples: a linear congruential generator for [std::mt19937] and
    1 + x for [std::exp]. Every property of the encoders below is proved for
    an arbitrary [StdLib]. *)
Module stand_in.
Definition lcg_next (s : Z) : Z := (1103515245 * s + 12345) mod 2 ^ 31.
Definition draw (a b : Qc) (s : Z) : Qc * Z :=
  let s' := lcg_next s in
  (Qcplus a (Qcmult (Qcminus b a) (Q2Qc (s' # Z.to_pos (2 ^ 31)))), s').
End stand_in.

Definition stand_in_stdlib : StdLib Qc := {|
  std_exp := fun x => Qcplus (Q2Qc 1) x;
  mt19937 := Z;
  mt19937_seed := fun seed => seed;
  uniform_real_draw := stand_in.draw
|}.

(* the same for binary32, with a generator that always draws the lower end *)
Definition stand_in_stdlib32 : StdLib spec_float := {|
  std_exp := fun x => f_add f_one x;
  mt19937 := Z;
  mt19937_seed := fun seed => seed;
  uniform_real_draw := fun a _ s => (a, stand_in.lcg_next s)
|}.

(** ** Build configurations and sample inputs *)

Definition cfg_scalar : BuildConfig := {| HAVE_SME2 := false; HAVE_NEON := false |}.
Definition cfg_neon : BuildConfig := {| HAVE_SME2 := false; HAVE_NEON := true |}.
Definition cfg_sme2_neon : BuildConfig := {| HAVE_SME2 := true; HAVE_NEON := true |}.
Definition cfg_sme2_only : BuildConfig := {| HAVE_SME2 := true; HAVE_NEON := false |}.

(* Scenario A of the specification in binary32: a 4 -> 2 layer at rest with
   all weights 0.5, no bias, threshold 1; the decay factors are 0.5 here *)
Definition sample_layer : LIFLayer spec_float :=
  let half := f_div (f_of_int 1) (f_of_int 2) in
  mk_LIFLayer 4 2
    (mk_LIFParams (f_of_int 10) (f_of_int 5) (f_of_int 1) (f_of_int 0) (f_of_int 0)
       (f_of_int 1))
    (replicate 8 half) (replicate 2 (f_of_int 0))
    (replicate 2 (f_of_int 0)) (replicate 2 (f_of_int 0))
    half half.
Definition sample_input : list spec_float := map binary32.of_int [1; 0; 0; 1].

(* Scenario C of the specification: write 4, write 1 more, read 2, write 2,
   read 4 *)
Definition scenario_C_ops : list (ring_buffer.op (F:=spec_float)) :=
  [ring_buffer.OpWrite (map binary32.of_int [1; 2; 3; 4]) 4;
   ring_buffer.OpWrite [binary32.of_int 9] 1;
   ring_buffer.OpRead (map binary32.of_int [0; 0]) 2;
   ring_buffer.OpWrite (map binary32.of_int [5; 6]) 2;
   ring_buffer.OpRead (map binary32.of_int [0; 0; 0; 0]) 4].

(* a binary32 input whose sum cancels: bias 2^24, weights (1, 1, 1, -2^24) *)
Definition cancel_spikes : list spec_float := map binary32.of_int [1; 1; 1; 1].
Definition cancel_weights : list spec_float := map binary32.of_int [1; 1; 1; -16777216].
Definition cancel_bias : list spec_float := [binary32.of_int 16777216].

(** * Properties *)

(** ** Buffers and loops *)

Section BufferFacts.
Context {A : Type}.
Implicit Types (buf : list A) (i : Z).

Lemma rd_lookup buf i : 0 <= i -> rd buf i = buf !! Z.to_nat i.
Proof. intros Hi. unfold rd. destruct (Z.ltb_spec i 0); [lia | done]. Qed.

Lemma rd_is_Some buf i : 0 <= i < Z.of_nat (length buf) -> is_Some (rd buf i).
Proof.
  intros Hi. rewrite rd_lookup by lia. apply lookup_lt_is_Some. lia.
Qed.

Lemma rd_Some_bounds buf i v : rd buf i = Some v -> 0 <= i < Z.of_nat (length buf).
Proof.
  unfold rd. destruct (Z.ltb_spec i 0); [done |].
  intros Hl. apply lookup_lt_Some in Hl. lia.
Qed.

Lemma wr_in_range buf i v :
  0 <= i < Z.of_nat (length buf) -> wr buf i v = Some (<[Z.to_nat i := v]> buf).
Proof.
  intros Hi. unfold wr.
  destruct (Z.leb_spec 0 i); [| lia].
  destruct (Z.ltb_spec i (Z.of_nat (length buf))); [done | lia].
Qed.

Lemma wr_Some buf i v buf' :
  wr buf i v = Some buf' ->
  0 <= i < Z.of_nat (length buf) /\ buf' = <[Z.to_nat i := v]> buf.
Proof.
  unfold wr.
  destruct (Z.leb_spec 0 i); simpl; [| done].
  destruct (Z.ltb_spec i (Z.of_nat (length buf))); [| done].
  intros [= <-]. split; [lia | done].
Qed.

Lemma rd_insert_eq buf i v :
  0 <= i < Z.of_nat (length buf) -> rd (<[Z.to_nat i := v]> buf) i = Some v.
Proof.
  intros Hi. rewrite rd_lookup by lia. apply list_lookup_insert_eq. lia.
Qed.

Lemma rd_insert_ne buf i j v :
  0 <= i -> i <> j -> rd (<[Z.to_nat i := v]> buf) j = rd buf j.
Proof.
  intros Hi Hne. unfold rd. destruct (Z.ltb_spec j 0); [done |].
  apply list_lookup_insert_ne. lia.
Qed.
End BufferFacts.

Section LoopFacts.
Context {St : Type}.
Implicit Types (body : Z -> St -> option St) (s : St).

(** A counted loop goes through when every iteration keeps the invariant. *)
Lemma for_loop_inv (P : Z -> St -> Prop) body n i s :
  P i s ->
  (forall j t, i <= j < i + Z.of_nat n -> P j t ->
     exists t', body j t = Some t' /\ P (j + 1) t') ->
  exists s', for_loop n i body s = Some s' /\ P (i + Z.of_nat n) s'.
Proof.
  revert i s. induction n as [| n IH]; intros i s Hs Hstep.
  - exists s. split; [done |]. by replace (i + Z.of_nat 0) with i by lia.
  - destruct (Hstep i s) as (t & Hb & Ht); [lia | done |].
    destruct (IH (i + 1) t) as (s' & Hrun & Hs'); [done | |].
    + intros j u Hj Hu. apply Hstep; [lia | done].
    + exists s'. split.
      * simpl. rewrite Hb. simpl. exact Hrun.
      * by replace (i + Z.of_nat (S n)) with (i + 1 + Z.of_nat n) by lia.
Qed.

Lemma for_range_inv (P : Z -> St -> Prop) body lo hi s :
  lo <= hi ->
  P lo s ->
  (forall j t, lo <= j < hi -> P j t ->
     exists t', body j t = Some t' /\ P (j + 1) t') ->
  exists s', for_range lo hi body s = Some s' /\ P hi s'.
Proof.
  intros Hle Hs Hstep. unfold for_range.
  destruct (for_loop_inv P body (Z.to_nat (hi - lo)) lo s) as (s' & Hrun & Hs').
  - done.
  - intros j t Hj. apply Hstep. lia.
  - exists s'. split; [done |].
    by replace (lo + Z.of_nat (Z.to_nat (hi - lo))) with hi in Hs' by lia.
Qed.

(** Two loop bodies that agree on the indices visited give the same loop. *)
Lemma for_loop_ext body1 body2 n i s :
  (forall j t, i <= j < i + Z.of_nat n -> body1 j t = body2 j t) ->
  for_loop n i body1 s = for_loop n i body2 s.
Proof.
  revert i s. induction n as [| n IH]; intros i s Hext; [done |].
  simpl. rewrite Hext by lia.
  destruct (body2 i s) as [t |]; simpl; [| done].
  apply IH. intros j u Hj. apply Hext. lia.
Qed.

Lemma for_range_ext body1 body2 lo hi s :
  (forall j t, lo <= j < hi -> body1 j t = body2 j t) ->
  for_range lo hi body1 s = for_range lo hi body2 s.
Proof.
  intros Hext. unfold for_range. apply for_loop_ext.
  intros j t Hj. apply Hext. lia.
Qed.

Lemma for_range_empty body lo hi s : hi <= lo -> for_range lo hi body s = Some s.
Proof.
  intros Hle. unfold for_range. by replace (Z.to_nat (hi - lo)) with O by lia.
Qed.
End LoopFacts.
(** ** Dense kernels *)

(* run the loop in the goal under an invariant: leaves the bounds, the
   invariant at entry, its preservation, and the goal after the loop *)
Ltac loop_inv P :=
  match goal with
  | |- context [for_range ?lo ?hi ?body ?s] =>
      let r := fresh "r" in
      let Hrun := fresh "Hrun" in
      let Hpost := fresh "Hpost" in
      destruct (for_range_inv P body lo hi s) as (r & Hrun & Hpost);
      [ | | | rewrite Hrun; simpl ]
  end.

Section KernelFacts.
Context {F : Type} `{FloatOps F}.
Implicit Types (spikes weights bias output : list F).

Lemma scalar_loop_dense_loop spikes weights bias output batch_size input_size output_size :
  kernels.scalar_loop spikes weights bias output batch_size input_size output_size
  = kernels.dense_loop (kernels.scalar_row spikes weights bias input_size)
      output batch_size output_size.
Proof. reflexivity. Qed.

Lemma neon_loop_dense_loop spikes weights bias output batch_size input_size output_size :
  kernels.neon_loop spikes weights bias output batch_size input_size output_size
  = kernels.dense_loop (kernels.neon_row spikes weights bias input_size)
      output batch_size output_size.
Proof. reflexivity. Qed.

Lemma dense_terms_snoc spikes weights input_size b o (n : nat) (z : F) :
  fold_left f_add
    (map (kernels.dense_term spikes weights input_size b o) (seq 0 (S n))) z
  = f_add (fold_left f_add
             (map (kernels.dense_term spikes weights input_size b o) (seq 0 n)) z)
          (kernels.dense_term spikes weights input_size b o n).
Proof. rewrite seq_S, map_app, fold_left_app. reflexivity. Qed.

(** Row indices stay inside the buffers. *)
Lemma row_index_bounds (rows row n i len : Z) :
  0 <= row < rows -> 0 <= n -> 0 <= i < n -> rows * n <= len ->
  0 <= row * n + i < len.
Proof. intros. nia. Qed.

Lemma scalar_row_spec spikes weights bias input_size b o :
  0 <= input_size -> 0 <= b -> 0 <= o < Z.of_nat (length bias) ->
  o * input_size + input_size <= Z.of_nat (length weights) ->
  b * input_size + input_size <= Z.of_nat (length spikes) ->
  kernels.scalar_row spikes weights bias input_size b o
  = Some (kernels.dense_spec spikes weights bias input_size b o).
Proof.
  intros Hn Hb Ho Hw Hs. unfold kernels.scalar_row, kernels.dense_spec.
  destruct (rd_is_Some bias o Ho) as [v Hv]. rewrite Hv. simpl.
  loop_inv (fun (j : Z) (sum : F) => 0 <= j /\ sum = fold_left f_add
       (map (kernels.dense_term spikes weights input_size b o)
            (seq 0 (Z.to_nat j))) v).
  - exact Hn.
  - split; [lia | reflexivity].
  - intros j t Hj [_ ->].
    destruct (rd_is_Some weights (o * input_size + j)) as [w Hwj]; [nia |].
    destruct (rd_is_Some spikes (b * input_size + j)) as [x Hxj]; [nia |].
    rewrite Hwj, Hxj. simpl. eexists. split; [reflexivity |]. split; [lia |].
    replace (Z.to_nat (j + 1)) with (S (Z.to_nat j)) by lia.
    rewrite dense_terms_snoc. unfold kernels.dense_term at 3.
    rewrite Z2Nat.id by lia. by rewrite Hwj, Hxj.
  - destruct Hpost as [_ ->]. reflexivity.
Qed.

(** The two nested output loops write row b, column o at b * output_size + o
    and nothing else. *)
Lemma dense_loop_spec (row : Z -> Z -> option F) output batch_size output_size :
  0 <= batch_size -> 0 <= output_size ->
  batch_size * output_size <= Z.of_nat (length output) ->
  (forall b o, 0 <= b < batch_size -> 0 <= o < output_size -> is_Some (row b o)) ->
  exists out,
    kernels.dense_loop row output batch_size output_size = Some out /\
    length out = length output /\
    (forall b o, 0 <= b < batch_size -> 0 <= o < output_size ->
       rd out (b * output_size + o) = row b o) /\
    (forall k, ~ 0 <= k < batch_size * output_size -> rd out k = rd output k).
Proof.
  intros Hb Ho Hlen Hrow. unfold kernels.dense_loop.
  set (done_upto (n : Z) (out : list F) :=
    length out = length output /\
    (forall b o, 0 <= b -> 0 <= o < output_size -> b * output_size + o < n ->
       rd out (b * output_size + o) = row b o) /\
    (forall k, ~ 0 <= k < n -> rd out k = rd output k)).
  loop_inv (fun (b : Z) (out : list F) => done_upto (b * output_size) out).
  - exact Hb.
  - split; [done |]. split; [intros; nia | done].
  - intros b out Hbr Hinv.
    loop_inv (fun (o : Z) (out : list F) => done_upto (b * output_size + o) out).
    + exact Ho.
    + cbv beta. by rewrite Z.add_0_r.
    + intros o t Hor (Hl & Hv & Hf).
      destruct (Hrow b o Hbr Hor) as [v Hv'].
      rewrite Hv'. simpl.
      rewrite wr_in_range by (rewrite Hl; nia).
      eexists. split; [reflexivity |]. split; [| split].
      * by rewrite length_insert.
      * intros b' o' Hb' Ho' Hlt.
        destruct (Z.eq_dec (b' * output_size + o') (b * output_size + o)) as [He | Hne].
        -- assert (b' = b) by nia. subst b'. assert (o' = o) by lia. subst o'.
           rewrite rd_insert_eq by (rewrite Hl; nia). done.
        -- rewrite rd_insert_ne by (nia || lia). apply Hv; [done | done | lia].
      * intros k Hk. rewrite rd_insert_ne by (nia || lia). apply Hf. lia.
    + eexists. split; [reflexivity |].
      by replace ((b + 1) * output_size) with (b * output_size + output_size) by lia.
  - destruct Hpost as (Hlen' & Hval & Hframe).
    eexists. split; [reflexivity |]. split; [done |]. split; [| done].
    intros b o Hbr Hor. apply Hval; [lia | done | nia].
Qed.

Lemma dense_loop_ext (row1 row2 : Z -> Z -> option F) output batch_size output_size :
  (forall b o, 0 <= b < batch_size -> 0 <= o < output_size -> row1 b o = row2 b o) ->
  kernels.dense_loop row1 output batch_size output_size
  = kernels.dense_loop row2 output batch_size output_size.
Proof.
  intros Hrow. unfold kernels.dense_loop.
  apply for_range_ext. intros b out Hb.
  apply for_range_ext. intros o t Ho.
  by rewrite Hrow.
Qed.
End KernelFacts.

Section NeonFacts.
Context {F : Type} `{FloatOps F}.
Implicit Types (spikes weights bias output : list F).

Lemma vld1q_f32_in_range (p : list F) i :
  0 <= i -> i + 4 <= Z.of_nat (length p) ->
  exists a b c d,
    rd p i = Some a /\ rd p (i + 1) = Some b /\ rd p (i + 2) = Some c /\
    rd p (i + 3) = Some d /\ kernels.vld1q_f32 p i = Some (mk_f32x4 a b c d).
Proof.
  intros Hi Hlen. unfold kernels.vld1q_f32.
  destruct (rd_is_Some p i) as [a Ha]; [lia |].
  destruct (rd_is_Some p (i + 1)) as [b Hb]; [lia |].
  destruct (rd_is_Some p (i + 2)) as [c Hc]; [lia |].
  destruct (rd_is_Some p (i + 3)) as [d Hd]; [lia |].
  exists a, b, c, d. rewrite Ha, Hb, Hc, Hd. done.
Qed.

(** The vector loop stops at the first i with i + 3 >= input_size, having
    advanced in steps of four. *)
Lemma neon_vec_loop_progress spikes weights input_size spike_row weight_row fuel i v :
  0 <= spike_row -> 0 <= weight_row -> 0 <= i ->
  spike_row + input_size <= Z.of_nat (length spikes) ->
  weight_row + input_size <= Z.of_nat (length weights) ->
  input_size - i <= Z.of_nat fuel ->
  exists i' v',
    kernels.neon_vec_loop fuel spikes weights input_size spike_row weight_row i v
    = Some (i', v') /\ i <= i' /\ (i <= input_size -> i' <= input_size) /\
    input_size < i' + 4.
Proof.
  intros Hs Hw. revert i v.
  induction fuel as [| fuel IH]; intros i v Hi Hsl Hwl Hfuel.
  - simpl. destruct (Z.ltb_spec (i + 3) input_size); [lia |].
    exists i, v. repeat split; lia || done.
  - simpl. destruct (Z.ltb_spec (i + 3) input_size).
    + destruct (vld1q_f32_in_range spikes (spike_row + i))
        as (a & b & c & d & _ & _ & _ & _ & ->); [lia | lia |].
      destruct (vld1q_f32_in_range weights (weight_row + i))
        as (a' & b' & c' & d' & _ & _ & _ & _ & ->); [lia | lia |].
      simpl.
      destruct (IH (i + 4) (kernels.vmlaq_f32 v (mk_f32x4 a b c d) (mk_f32x4 a' b' c' d')))
        as (i' & v' & -> & Hle & Hub & Hstop); [lia | done | done | lia |].
      exists i', v'. repeat split; lia || done.
    + exists i, v. repeat split; lia || done.
Qed.

Lemma neon_row_is_Some spikes weights bias input_size b o :
  0 <= input_size -> 0 <= b -> 0 <= o < Z.of_nat (length bias) ->
  o * input_size + input_size <= Z.of_nat (length weights) ->
  b * input_size + input_size <= Z.of_nat (length spikes) ->
  is_Some (kernels.neon_row spikes weights bias input_size b o).
Proof.
  intros Hn Hb Ho Hw Hs. unfold kernels.neon_row.
  destruct (rd_is_Some bias o Ho) as [v0 ->]. simpl.
  destruct (neon_vec_loop_progress spikes weights input_size
              (b * input_size) (o * input_size) (Z.to_nat input_size) 0
              (kernels.vdupq_n_f32 f_zero))
    as (i' & v' & -> & Hle & Hub & Hstop); [nia | nia | lia | lia | lia | lia |].
  simpl.
  loop_inv (fun (j : Z) (sum : F) => True).
  - lia.
  - done.
  - intros j t Hj _.
    destruct (rd_is_Some weights (o * input_size + j)) as [w ->]; [nia |].
    destruct (rd_is_Some spikes (b * input_size + j)) as [x ->]; [nia |].
    simpl. eauto.
  - done.
Qed.

Lemma vld1q_f32_lanes_at (p : list F) j :
  0 <= j -> j + 4 <= Z.of_nat (length p) ->
  kernels.vld1q_f32 p j = Some (kernels.lanes_at p j).
Proof.
  intros Hj Hlen.
  destruct (vld1q_f32_in_range p j Hj Hlen)
    as (a & b & c & d & Ha & Hb & Hc & Hd & ->).
  unfold kernels.lanes_at. by rewrite Ha, Hb, Hc, Hd.
Qed.

(** In any arithmetic the vector loop runs floor(input_size / 4) blocks and
    leaves the lanes [neon_lanes] describes. *)
Lemma neon_vec_loop_lanes spikes weights input_size spike_row weight_row fuel (k : nat) :
  0 <= spike_row -> 0 <= weight_row ->
  spike_row + input_size <= Z.of_nat (length spikes) ->
  weight_row + input_size <= Z.of_nat (length weights) ->
  4 * Z.of_nat k <= input_size ->
  input_size - 4 * Z.of_nat k <= Z.of_nat fuel ->
  kernels.neon_vec_loop fuel spikes weights input_size spike_row weight_row
    (4 * Z.of_nat k) (kernels.neon_lanes spikes weights spike_row weight_row k)
  = Some (4 * (input_size / 4),
          kernels.neon_lanes spikes weights spike_row weight_row
            (Z.to_nat (input_size / 4))).
Proof.
  intros Hs Hw Hsl Hwl. revert k.
  assert (Hstop : forall k : nat,
            4 * Z.of_nat k <= input_size -> input_size <= 4 * Z.of_nat k + 3 ->
            input_size / 4 = Z.of_nat k).
  { intros k Hlo Hhi. symmetry. apply (Z.div_unique input_size 4 (Z.of_nat k)
                                         (input_size - 4 * Z.of_nat k)); lia. }
  induction fuel as [| fuel IH]; intros k Hk Hfuel.
  - simpl. destruct (Z.ltb_spec (4 * Z.of_nat k + 3) input_size); [lia |].
    rewrite (Hstop k) by lia. by rewrite Nat2Z.id.
  - simpl. destruct (Z.ltb_spec (4 * Z.of_nat k + 3) input_size).
    + rewrite (vld1q_f32_lanes_at spikes) by lia.
      rewrite (vld1q_f32_lanes_at weights) by lia.
      simpl.
      replace (4 * Z.of_nat k + 4) with (4 * Z.of_nat (S k)) by lia.
      apply (IH (S k)); lia.
    + rewrite (Hstop k) by lia. by rewrite Nat2Z.id.
Qed.

(* the scalar loop over the remaining elements adds their products in order *)
Lemma tail_loop_spec spikes weights input_size b o (lo : Z) (sum : F) :
  0 <= lo <= input_size -> 0 <= b -> 0 <= o ->
  o * input_size + input_size <= Z.of_nat (length weights) ->
  b * input_size + input_size <= Z.of_nat (length spikes) ->
  for_range lo input_size
    (fun i sum_scalar =>
       w ← rd weights (o * input_size + i);
       s ← rd spikes (b * input_size + i);
       Some (f_add sum_scalar (f_mul w s)))
    sum
  = Some (fold_left f_add
            (map (kernels.dense_term spikes weights input_size b o)
                 (seq (Z.to_nat lo) (Z.to_nat (input_size - lo))))
            sum).
Proof.
  intros Hlo Hb Ho Hw Hs.
  loop_inv (fun (j : Z) (acc : F) =>
              acc = fold_left f_add
                      (map (kernels.dense_term spikes weights input_size b o)
                           (seq (Z.to_nat lo) (Z.to_nat (j - lo))))
                      sum).
  - lia.
  - by rewrite Z.sub_diag.
  - intros j t Hj ->.
    destruct (rd_is_Some weights (o * input_size + j)) as [w Hwj]; [nia |].
    destruct (rd_is_Some spikes (b * input_size + j)) as [x Hxj]; [nia |].
    rewrite Hwj, Hxj. simpl. eexists. split; [reflexivity |].
    replace (Z.to_nat (j + 1 - lo)) with (S (Z.to_nat (j - lo))) by lia.
    rewrite seq_S, map_app, fold_left_app. simpl.
    unfold kernels.dense_term at 3.
    replace (Z.of_nat (Z.to_nat lo + Z.to_nat (j - lo))) with j by lia.
    by rewrite Hwj, Hxj.
  - by rewrite Hpost.
Qed.

(** In any arithmetic the NEON body stores [neon_spec] for (b, o). *)
Lemma neon_row_lanes_spec spikes weights bias input_size b o :
  0 <= input_size -> 0 <= b -> 0 <= o < Z.of_nat (length bias) ->
  o * input_size + input_size <= Z.of_nat (length weights) ->
  b * input_size + input_size <= Z.of_nat (length spikes) ->
  kernels.neon_row spikes weights bias input_size b o
  = Some (kernels.neon_spec spikes weights bias input_size b o).
Proof.
  intros Hn Hb Ho Hw Hs. unfold kernels.neon_row, kernels.neon_spec.
  destruct (rd_is_Some bias o Ho) as [v0 ->]. simpl.
  assert (Hvec : kernels.neon_vec_loop (Z.to_nat input_size) spikes weights
                   input_size (b * input_size) (o * input_size) 0
                   (kernels.vdupq_n_f32 f_zero)
                 = Some (4 * (input_size / 4),
                         kernels.neon_lanes spikes weights (b * input_size)
                           (o * input_size) (Z.to_nat (input_size / 4)))).
  { apply (neon_vec_loop_lanes spikes weights input_size
             (b * input_size) (o * input_size) (Z.to_nat input_size) O);
      nia || lia. }
  rewrite Hvec. clear Hvec. simpl.
  pose proof (Z.div_pos input_size 4 Hn ltac:(lia)) as Hq.
  pose proof (Z.mul_div_le input_size 4 ltac:(lia)) as Hle.
  rewrite tail_loop_spec by (nia || lia).
  replace (Z.to_nat (4 * (input_size / 4)))
    with (4 * Z.to_nat (input_size / 4))%nat by lia.
  replace (Z.to_nat (input_size - 4 * (input_size / 4)))
    with (Z.to_nat input_size - 4 * Z.to_nat (input_size / 4))%nat by lia.
  reflexivity.
Qed.

Lemma neon_loop_spec spikes weights bias output batch_size input_size output_size :
  0 <= batch_size -> 0 <= input_size -> 0 <= output_size ->
  batch_size * input_size <= Z.of_nat (length spikes) ->
  output_size * input_size <= Z.of_nat (length weights) ->
  output_size <= Z.of_nat (length bias) ->
  batch_size * output_size <= Z.of_nat (length output) ->
  exists out,
    kernels.neon_loop spikes weights bias output batch_size input_size output_size
    = Some out /\ length out = length output /\
    (forall b o, 0 <= b < batch_size -> 0 <= o < output_size ->
       rd out (b * output_size + o)
       = Some (kernels.neon_spec spikes weights bias input_size b o)) /\
    (forall k, ~ 0 <= k < batch_size * output_size -> rd out k = rd output k).
Proof.
  intros Hb Hi Ho Hs Hw Hbi Hout. rewrite neon_loop_dense_loop.
  destruct (dense_loop_spec (kernels.neon_row spikes weights bias input_size)
              output batch_size output_size) as (out & -> & Hlen & Hval & Hframe);
    [done | done | done | |].
  - intros b o Hbr Hor. rewrite neon_row_lanes_spec by (nia || lia). eauto.
  - exists out. split; [done |]. split; [done |]. split; [| done].
    intros b o Hbr Hor. rewrite Hval by done. apply neon_row_lanes_spec; nia || lia.
Qed.
End NeonFacts.


Section DispatchFacts.
Context {F : Type} `{FloatOps F}.
Implicit Types (spikes weights bias output : list F) (cfg : BuildConfig).

(** With HAVE_NEON every entry point ends in the NEON loop. *)
Lemma call_neon_build cfg fuel k spikes weights bias output batch_size input_size output_size :
  HAVE_NEON cfg = true -> (3 <= fuel)%nat ->
  kernels.call cfg fuel k spikes weights bias output batch_size input_size output_size
  = Some (kernels.neon_loop spikes weights bias output batch_size input_size output_size).
Proof.
  intros Hneon Hfuel.
  destruct fuel as [| [| [| fuel]]]; [lia | lia | lia |].
  destruct k; simpl; rewrite !Hneon; destruct (HAVE_SME2 cfg); reflexivity.
Qed.

(** With neither switch every entry point ends in the scalar loop. *)
Lemma call_scalar_build cfg fuel k spikes weights bias output batch_size input_size output_size :
  HAVE_SME2 cfg = false -> HAVE_NEON cfg = false -> (3 <= fuel)%nat ->
  kernels.call cfg fuel k spikes weights bias output batch_size input_size output_size
  = Some (kernels.scalar_loop spikes weights bias output batch_size input_size output_size).
Proof.
  intros Hsme Hneon Hfuel.
  destruct fuel as [| [| [| fuel]]]; [lia | lia | lia |].
  destruct k; simpl; rewrite ?Hneon, ?Hsme; reflexivity.
Qed.

(** With HAVE_SME2 but not HAVE_NEON the entry points only call each other. *)
Lemma call_sme2_without_neon cfg fuel k spikes weights bias output batch_size input_size output_size :
  HAVE_SME2 cfg = true -> HAVE_NEON cfg = false ->
  kernels.call cfg fuel k spikes weights bias output batch_size input_size output_size
  = None.
Proof.
  intros Hsme Hneon. revert k.
  induction fuel as [| fuel IH]; intros k; [done |].
  destruct k; simpl; rewrite ?Hsme, ?Hneon; apply IH.
Qed.

(** In the builds where the calls return, the three entry points are one
    function. *)
Lemma call_same_in_a_build cfg fuel k k' spikes weights bias output batch_size input_size output_size :
  (HAVE_SME2 cfg = true -> HAVE_NEON cfg = true) -> (3 <= fuel)%nat ->
  kernels.call cfg fuel k spikes weights bias output batch_size input_size output_size
  = kernels.call cfg fuel k' spikes weights bias output batch_size input_size output_size
  /\ is_Some (kernels.call cfg fuel k spikes weights bias output
                batch_size input_size output_size).
Proof.
  intros Hcfg Hfuel. destruct (HAVE_NEON cfg) eqn:Hneon.
  - rewrite !call_neon_build by done. eauto.
  - destruct (HAVE_SME2 cfg) eqn:Hsme; [by discriminate Hcfg |].
    rewrite !call_scalar_build by done. eauto.
Qed.

Lemma neon_loop_is_Some spikes weights bias output batch_size input_size output_size :
  0 <= batch_size -> 0 <= input_size -> 0 <= output_size ->
  batch_size * input_size <= Z.of_nat (length spikes) ->
  output_size * input_size <= Z.of_nat (length weights) ->
  output_size <= Z.of_nat (length bias) ->
  batch_size * output_size <= Z.of_nat (length output) ->
  exists out,
    kernels.neon_loop spikes weights bias output batch_size input_size output_size
    = Some out /\ length out = length output.
Proof.
  intros Hb Hi Ho Hs Hw Hbi Hout. rewrite neon_loop_dense_loop.
  destruct (dense_loop_spec (kernels.neon_row spikes weights bias input_size)
              output batch_size output_size) as (out & -> & Hlen & _);
    [done | done | done | | eauto].
  intros b o Hbr Hor. apply neon_row_is_Some; nia || lia.
Qed.

Lemma scalar_loop_spec spikes weights bias output batch_size input_size output_size :
  0 <= batch_size -> 0 <= input_size -> 0 <= output_size ->
  batch_size * input_size <= Z.of_nat (length spikes) ->
  output_size * input_size <= Z.of_nat (length weights) ->
  output_size <= Z.of_nat (length bias) ->
  batch_size * output_size <= Z.of_nat (length output) ->
  exists out,
    kernels.scalar_loop spikes weights bias output batch_size input_size output_size
    = Some out /\ length out = length output /\
    (forall b o, 0 <= b < batch_size -> 0 <= o < output_size ->
       rd out (b * output_size + o)
       = Some (kernels.dense_spec spikes weights bias input_size b o)) /\
    (forall k, ~ 0 <= k < batch_size * output_size -> rd out k = rd output k).
Proof.
  intros Hb Hi Ho Hs Hw Hbi Hout. rewrite scalar_loop_dense_loop.
  destruct (dense_loop_spec (kernels.scalar_row spikes weights bias input_size)
              output batch_size output_size) as (out & -> & Hlen & Hval & Hframe);
    [done | done | done | |].
  - intros b o Hbr Hor. rewrite scalar_row_spec by (nia || lia). eauto.
  - exists out. split; [done |]. split; [done |]. split; [| done].
    intros b o Hbr Hor. rewrite Hval by done. apply scalar_row_spec; nia || lia.
Qed.
End DispatchFacts.
(** Arithmetic in which the order of a summation does not matter. *)
Section ExactSums.
Context {F : Type} `{FloatOps F}.
Hypothesis add_comm : forall a b : F, f_add a b = f_add b a.
Hypothesis add_assoc : forall a b c : F, f_add a (f_add b c) = f_add (f_add a b) c.
Hypothesis add_0_l : forall a : F, f_add f_zero a = a.
Hypothesis mul_comm : forall a b : F, f_mul a b = f_mul b a.
Implicit Types (spikes weights bias output : list F).

Lemma add_medial (a b c d : F) :
  f_add (f_add a b) (f_add c d) = f_add (f_add a c) (f_add b d).
Proof.
  rewrite <- (add_assoc a b), (add_assoc b c d), (add_comm b c).
  by rewrite <- (add_assoc c b d), (add_assoc a c).
Qed.

(** Adding one product to each lane adds the four products to the
    horizontal sum. *)
Lemma horizontal_sum_vmlaq (v x y : float32x4_t F) :
  kernels.horizontal_sum (kernels.vmlaq_f32 v x y)
  = f_add (f_add (f_add (f_add (kernels.horizontal_sum v)
                           (f_mul (q0 x) (q0 y)))
                    (f_mul (q1 x) (q1 y)))
             (f_mul (q2 x) (q2 y)))
      (f_mul (q3 x) (q3 y)).
Proof.
  unfold kernels.horizontal_sum, kernels.vmlaq_f32. simpl.
  set (p0 := f_mul (q0 x) (q0 y)). set (p1 := f_mul (q1 x) (q1 y)).
  set (p2 := f_mul (q2 x) (q2 y)). set (p3 := f_mul (q3 x) (q3 y)).
  rewrite (add_medial (q0 v) p0), (add_medial (q1 v) p1).
  rewrite (add_medial (f_add (q0 v) (q2 v))), (add_medial p0 p2 p1 p3).
  by rewrite !add_assoc.
Qed.

Lemma fold_add_shift (l : list F) (a z : F) :
  f_add a (fold_left f_add l z) = fold_left f_add l (f_add a z).
Proof.
  revert z. induction l as [| x l IH]; intros z; [done |].
  simpl. by rewrite IH, add_assoc.
Qed.

Lemma neon_vec_loop_sum spikes weights input_size b o fuel i v i' v' :
  0 <= b * input_size -> 0 <= o * input_size -> 0 <= i ->
  kernels.neon_vec_loop fuel spikes weights input_size
    (b * input_size) (o * input_size) i v = Some (i', v') ->
  i <= i' /\
  kernels.horizontal_sum v'
  = fold_left f_add
      (map (kernels.dense_term spikes weights input_size b o)
           (seq (Z.to_nat i) (Z.to_nat (i' - i))))
      (kernels.horizontal_sum v).
Proof.
  intros Hb Ho. revert i v.
  induction fuel as [| fuel IH]; intros i v Hi; simpl;
    destruct (Z.ltb_spec (i + 3) input_size); try done;
    try (intros [= <- <-]; split; [lia |];
         by replace (Z.to_nat (i - i)) with O by lia).
  destruct (kernels.vld1q_f32 spikes (b * input_size + i)) as [x |] eqn:Hx;
    [| done].
  destruct (kernels.vld1q_f32 weights (o * input_size + i)) as [y |] eqn:Hy;
    [| done].
  simpl. intros Hrun. apply IH in Hrun as [Hle ->]; [| lia].
  split; [lia |].
  rewrite horizontal_sum_vmlaq.
  replace (Z.to_nat (i' - i)) with (4 + Z.to_nat (i' - (i + 4)))%nat by lia.
  rewrite seq_app, map_app, fold_left_app.
  replace (Z.to_nat i + 4)%nat with (Z.to_nat (i + 4)) by lia.
  f_equal. simpl. unfold kernels.dense_term.
  unfold kernels.vld1q_f32 in Hx, Hy.
  destruct (rd spikes (b * input_size + i)) as [x0 |] eqn:Hx0; [| done].
  destruct (rd spikes (b * input_size + i + 1)) as [x1 |] eqn:Hx1; [| done].
  destruct (rd spikes (b * input_size + i + 2)) as [x2 |] eqn:Hx2; [| done].
  destruct (rd spikes (b * input_size + i + 3)) as [x3 |] eqn:Hx3; [| done].
  destruct (rd weights (o * input_size + i)) as [y0 |] eqn:Hy0; [| done].
  destruct (rd weights (o * input_size + i + 1)) as [y1 |] eqn:Hy1; [| done].
  destruct (rd weights (o * input_size + i + 2)) as [y2 |] eqn:Hy2; [| done].
  destruct (rd weights (o * input_size + i + 3)) as [y3 |] eqn:Hy3; [| done].
  simpl in Hx, Hy. injection Hx as <-. injection Hy as <-. simpl.
  replace (o * input_size + Z.of_nat (Z.to_nat i)) with (o * input_size + i) by lia.
  replace (b * input_size + Z.of_nat (Z.to_nat i)) with (b * input_size + i) by lia.
  replace (o * input_size + Z.of_nat (S (Z.to_nat i))) with (o * input_size + i + 1) by lia.
  replace (b * input_size + Z.of_nat (S (Z.to_nat i))) with (b * input_size + i + 1) by lia.
  replace (o * input_size + Z.of_nat (S (S (Z.to_nat i)))) with (o * input_size + i + 2) by lia.
  replace (b * input_size + Z.of_nat (S (S (Z.to_nat i)))) with (b * input_size + i + 2) by lia.
  replace (o * input_size + Z.of_nat (S (S (S (Z.to_nat i))))) with (o * input_size + i + 3) by lia.
  replace (b * input_size + Z.of_nat (S (S (S (Z.to_nat i))))) with (b * input_size + i + 3) by lia.
  rewrite Hx0, Hx1, Hx2, Hx3, Hy0, Hy1, Hy2, Hy3. simpl.
  by rewrite (mul_comm x0), (mul_comm x1), (mul_comm x2), (mul_comm x3).
Qed.

Lemma neon_row_spec spikes weights bias input_size b o :
  0 <= input_size -> 0 <= b -> 0 <= o < Z.of_nat (length bias) ->
  o * input_size + input_size <= Z.of_nat (length weights) ->
  b * input_size + input_size <= Z.of_nat (length spikes) ->
  kernels.neon_row spikes weights bias input_size b o
  = Some (kernels.dense_spec spikes weights bias input_size b o).
Proof.
  intros Hn Hb Ho Hw Hs. unfold kernels.neon_row, kernels.dense_spec.
  destruct (rd_is_Some bias o Ho) as [v0 ->]. simpl.
  destruct (neon_vec_loop_progress spikes weights input_size
              (b * input_size) (o * input_size) (Z.to_nat input_size) 0
              (kernels.vdupq_n_f32 f_zero))
    as (i' & v' & Hrun & Hle & Hub & Hstop); [nia | nia | lia | lia | lia | lia |].
  rewrite Hrun. simpl.
  apply neon_vec_loop_sum in Hrun as [_ Hsum]; [| nia | nia | lia].
  change (f_add (f_add (q0 v') (q2 v')) (f_add (q1 v') (q3 v')))
    with (kernels.horizontal_sum v').
  rewrite Hsum.
  replace (kernels.horizontal_sum (kernels.vdupq_n_f32 f_zero)) with (f_zero (F:=F))
    by (unfold kernels.horizontal_sum; simpl; by rewrite !add_0_l).
  rewrite fold_add_shift, (add_comm v0), add_0_l, Z.sub_0_r.
  loop_inv (fun (j : Z) (sum : F) => 0 <= j /\ sum = fold_left f_add
       (map (kernels.dense_term spikes weights input_size b o)
            (seq 0 (Z.to_nat j))) v0).
  - lia.
  - split; [lia | reflexivity].
  - intros j t Hj [_ ->].
    destruct (rd_is_Some weights (o * input_size + j)) as [w Hwj]; [nia |].
    destruct (rd_is_Some spikes (b * input_size + j)) as [x Hxj]; [nia |].
    rewrite Hwj, Hxj. simpl. eexists. split; [reflexivity |]. split; [lia |].
    replace (Z.to_nat (j + 1)) with (S (Z.to_nat j)) by lia.
    rewrite dense_terms_snoc. unfold kernels.dense_term at 3.
    rewrite Z2Nat.id by lia. by rewrite Hwj, Hxj.
  - destruct Hpost as [_ ->]. reflexivity.
Qed.

End ExactSums.

(* where the order of summation is immaterial the two orders give the same
   sum *)
Lemma neon_spec_exact {F : Type} `{FloatOps F}
    (spikes weights bias : list F) input_size b o :
  (forall a b : F, f_add a b = f_add b a) ->
  (forall a b c : F, f_add a (f_add b c) = f_add (f_add a b) c) ->
  (forall a : F, f_add f_zero a = a) ->
  (forall a b : F, f_mul a b = f_mul b a) ->
  0 <= input_size -> 0 <= b -> 0 <= o < Z.of_nat (length bias) ->
  o * input_size + input_size <= Z.of_nat (length weights) ->
  b * input_size + input_size <= Z.of_nat (length spikes) ->
  kernels.neon_spec spikes weights bias input_size b o
  = kernels.dense_spec spikes weights bias input_size b o.
Proof.
  intros Hc Ha H0 Hm Hn Hb Ho Hw Hs.
  pose proof (neon_row_lanes_spec spikes weights bias input_size b o
                Hn Hb Ho Hw Hs) as Hlanes.
  rewrite (neon_row_spec Hc Ha H0 Hm) in Hlanes by done.
  by injection Hlanes.
Qed.

(** Claim C7, in the form the code supports, for any arithmetic, binary32
    included. The scalar loop of [spike_dense_forward] and the NEON loop of
    [spike_dense_neon] both return; at b * output_size + o the first holds
    bias[o] + sum_i weights[o*input_size+i] * spikes[b*input_size+i] added
    in index order ([dense_spec]) and the second the same products added in
    the four-lane order of the NEON loop ([neon_spec]), and neither touches
    another element. The two buffers are equal whenever addition is
    commutative and associative with 0.0f as left identity and
    multiplication is commutative. In one build the two entry points are
    the same function whatever the arithmetic, and without HAVE_NEON
    [spike_dense_neon] is one call away from [spike_dense_forward]. *)
Theorem C7_dense_kernels_agree_exactly {F : Type} `{FloatOps F}
    (spikes weights bias output : list F) batch_size input_size output_size :
  0 <= batch_size -> 0 <= input_size -> 0 <= output_size ->
  batch_size * input_size <= Z.of_nat (length spikes) ->
  output_size * input_size <= Z.of_nat (length weights) ->
  output_size <= Z.of_nat (length bias) ->
  batch_size * output_size <= Z.of_nat (length output) ->
  (exists out_scalar out_neon,
     kernels.spike_dense_forward cfg_scalar 1 spikes weights bias output
       batch_size input_size output_size = Some (Some out_scalar) /\
     kernels.spike_dense_neon cfg_neon 1 spikes weights bias output
       batch_size input_size output_size = Some (Some out_neon) /\
     length out_scalar = length output /\ length out_neon = length output /\
     (forall b o, 0 <= b < batch_size -> 0 <= o < output_size ->
        rd out_scalar (b * output_size + o)
        = Some (kernels.dense_spec spikes weights bias input_size b o) /\
        rd out_neon (b * output_size + o)
        = Some (kernels.neon_spec spikes weights bias input_size b o)) /\
     (forall k, ~ 0 <= k < batch_size * output_size ->
        rd out_scalar k = rd output k /\ rd out_neon k = rd output k) /\
     ((forall a b : F, f_add a b = f_add b a) ->
      (forall a b c : F, f_add a (f_add b c) = f_add (f_add a b) c) ->
      (forall a : F, f_add f_zero a = a) ->
      (forall a b : F, f_mul a b = f_mul b a) ->
      out_neon = out_scalar)) /\
  (forall cfg fuel,
     (HAVE_SME2 cfg = true -> HAVE_NEON cfg = true) -> (3 <= fuel)%nat ->
     kernels.spike_dense_forward cfg fuel spikes weights bias output
       batch_size input_size output_size
     = kernels.spike_dense_neon cfg fuel spikes weights bias output
         batch_size input_size output_size /\
     exists out,
       kernels.spike_dense_neon cfg fuel spikes weights bias output
         batch_size input_size output_size = Some (Some out)) /\
  (forall cfg fuel,
     HAVE_NEON cfg = false ->
     kernels.spike_dense_neon cfg (S fuel) spikes weights bias output
       batch_size input_size output_size
     = kernels.spike_dense_forward cfg fuel spikes weights bias output
         batch_size input_size output_size).
Proof.
  intros Hb Hi Ho Hs Hw Hbi Hout.
  destruct (scalar_loop_spec spikes weights bias output batch_size input_size
              output_size) as (out & Hrun & Hlen & Hval & Hframe); try done.
  destruct (neon_loop_spec spikes weights bias output batch_size input_size
              output_size) as (outn & Hrunn & Hlenn & Hvaln & Hframen); try done.
  split; [| split].
  - exists out, outn. unfold kernels.spike_dense_forward, kernels.spike_dense_neon.
    simpl. split; [by rewrite Hrun |]. split; [by rewrite Hrunn |].
    split; [done |]. split; [done |].
    split; [intros b o Hbr Hor; split; [by apply Hval | by apply Hvaln] |].
    split; [intros k Hk; split; [by apply Hframe | by apply Hframen] |].
    intros Hc Ha H0 Hm.
    assert (Hsame : kernels.neon_loop spikes weights bias output
                      batch_size input_size output_size
                    = kernels.scalar_loop spikes weights bias output
                        batch_size input_size output_size).
    { rewrite neon_loop_dense_loop, scalar_loop_dense_loop.
      apply dense_loop_ext. intros b o Hbr Hor.
      rewrite neon_row_spec, scalar_row_spec by (done || nia || lia). done. }
    rewrite Hrun, Hrunn in Hsame. by injection Hsame.
  - intros cfg fuel Hcfg Hfuel.
    unfold kernels.spike_dense_forward, kernels.spike_dense_neon.
    split; [by apply call_same_in_a_build |].
    destruct (HAVE_NEON cfg) eqn:Hneon.
    + rewrite call_neon_build by done. rewrite Hrunn. eauto.
    + destruct (HAVE_SME2 cfg) eqn:Hsme; [by discriminate Hcfg |].
      rewrite call_scalar_build by done. rewrite Hrun. eauto.
  - intros cfg fuel Hneon.
    unfold kernels.spike_dense_forward, kernels.spike_dense_neon.
    simpl. by rewrite Hneon.
Qed.

Lemma C7_dense_kernels_agree_exactly_witness :
  exists out_scalar out_neon : list spec_float,
    kernels.spike_dense_forward cfg_scalar 1
      cancel_spikes cancel_weights cancel_bias [binary32.of_int 0] 1 4 1
    = Some (Some out_scalar) /\
    kernels.spike_dense_neon cfg_neon 1
      cancel_spikes cancel_weights cancel_bias [binary32.of_int 0] 1 4 1
    = Some (Some out_neon) /\
    rd out_scalar 0
    = Some (kernels.dense_spec cancel_spikes cancel_weights cancel_bias 4 0 0) /\
    rd out_neon 0
    = Some (kernels.neon_spec cancel_spikes cancel_weights cancel_bias 4 0 0).
Proof.
  destruct (C7_dense_kernels_agree_exactly
              cancel_spikes cancel_weights cancel_bias [binary32.of_int 0] 1 4 1)
    as [(out_s & out_n & Hs & Hn & _ & _ & Hval & _) _]; try (simpl; lia).
  exists out_s, out_n. split; [exact Hs |]. split; [exact Hn |].
  destruct (Hval 0 0) as [Hvs Hvn]; [lia | lia |].
  split; [exact Hvs | exact Hvn].
Defined.

(** Claim C7 as stated fails in binary32: with bias 2^24, weights
    (1, 1, 1, -2^24) and four input spikes the scalar loop returns 0 and the
    NEON loop returns 3. *)
Lemma C7_binary32_counterexample :
  kernels.spike_dense_forward cfg_scalar 1
    cancel_spikes cancel_weights cancel_bias [binary32.of_int 0] 1 4 1
  = Some (Some [binary32.of_int 0]) /\
  kernels.spike_dense_neon cfg_neon 1
    cancel_spikes cancel_weights cancel_bias [binary32.of_int 0] 1 4 1
  = Some (Some [binary32.of_int 3]) /\
  ~ agree_within (1 # 10000) (binary32.of_int 0) (binary32.of_int 3).
Proof.
  split; [vm_compute; reflexivity |]. split; [vm_compute; reflexivity |].
  vm_compute. intros Hle. apply Hle. reflexivity.
Qed.

(** Claim C8: built with HAVE_SME2 and without HAVE_NEON, [spike_dense_sme2]
    calls [spike_dense_forward], which calls [spike_dense_sme2] again: the
    call never returns, whatever the input and however deep the calls may
    nest. *)
Theorem C8_sme2_without_neon_never_returns {F : Type} `{FloatOps F} (fuel : nat)
    (spikes weights bias output : list F) (batch_size input_size output_size : Z) :
  kernels.spike_dense_sme2 cfg_sme2_only fuel spikes weights bias output
    batch_size input_size output_size = None.
Proof. by apply call_sme2_without_neon. Qed.

(** In every other build [spike_dense_sme2] hands the call to the next tier
    down and returns what that tier returns. *)
Lemma spike_dense_sme2_delegates {F : Type} `{FloatOps F} (cfg : BuildConfig) (fuel : nat)
    (spikes weights bias output : list F) (batch_size input_size output_size : Z) :
  kernels.spike_dense_sme2 cfg (S fuel) spikes weights bias output
    batch_size input_size output_size
  = if HAVE_NEON cfg
    then kernels.spike_dense_neon cfg fuel spikes weights bias output
           batch_size input_size output_size
    else kernels.spike_dense_forward cfg fuel spikes weights bias output
           batch_size input_size output_size.
Proof. reflexivity. Qed.

(** ** LIF layer *)

Section LIFFacts.
Context {F : Type} `{FloatOps F}.
Implicit Types (L : LIFLayer F) (cfg : BuildConfig).

Lemma create_well_formed (std_exp : F -> F) input_size output_size params :
  0 <= input_size <= INT_MAX -> 0 <= output_size <= INT_MAX ->
  input_size * output_size <= INT_MAX ->
  exists L,
    lif.create std_exp input_size output_size params = Some L /\
    lif.well_formed L /\
    L = mk_LIFLayer input_size output_size params
          (replicate (Z.to_nat (input_size * output_size)) f_zero)
          (replicate (Z.to_nat output_size) f_zero)
          (replicate (Z.to_nat output_size) (v_rest params))
          (replicate (Z.to_nat output_size) f_zero)
          (std_exp (f_div (f_neg (dt params)) (tau_mem params)))
          (std_exp (f_div (f_neg (dt params)) (tau_syn params))).
Proof.
  intros Hi Ho Hio. unfold lif.create, in_int_range, INT_MIN, INT_MAX in *.
  destruct (Z.leb_spec (- 2 ^ 31) input_size); [| lia].
  destruct (Z.leb_spec input_size (2 ^ 31 - 1)); [| lia].
  destruct (Z.leb_spec (- 2 ^ 31) output_size); [| lia].
  destruct (Z.leb_spec output_size (2 ^ 31 - 1)); [| lia].
  destruct (Z.leb_spec (- 2 ^ 31) (input_size * output_size)); [| nia].
  destruct (Z.leb_spec (input_size * output_size) (2 ^ 31 - 1)); [| lia].
  destruct (Z.leb_spec 0 (input_size * output_size)); [| nia].
  destruct (Z.leb_spec 0 output_size); [| lia].
  simpl. eexists. split; [reflexivity |]. split; [| reflexivity].
  unfold lif.well_formed. simpl.
  rewrite !length_replicate. repeat split; nia || lia.
Qed.

(** One pass of [update_neurons]: every neuron below output_size is stepped
    once from its old state, nothing else changes. *)
Lemma update_neurons_spec L (synaptic_input output_spikes : list F) :
  0 <= output_size_ L ->
  Z.of_nat (length (membrane_potential_ L)) = output_size_ L ->
  Z.of_nat (length (synaptic_current_ L)) = output_size_ L ->
  output_size_ L <= Z.of_nat (length synaptic_input) ->
  output_size_ L <= Z.of_nat (length output_spikes) ->
  exists L' out',
    lif.update_neurons L synaptic_input output_spikes = Some (L', out') /\
    L' = lif.set_state L (membrane_potential_ L') (synaptic_current_ L') /\
    length (membrane_potential_ L') = length (membrane_potential_ L) /\
    length (synaptic_current_ L') = length (synaptic_current_ L) /\
    length out' = length output_spikes /\
    (forall i, 0 <= i < output_size_ L ->
       lif.neuron_updated L synaptic_input L' out' i) /\
    (forall i, ~ 0 <= i < output_size_ L -> rd out' i = rd output_spikes i).
Proof.
  intros Ho Hmp Hsc Hsi Hout. unfold lif.update_neurons.
  loop_inv (fun (j : Z) (st : LIFLayer F * list F) =>
    let '(L', out') := st in
    L' = lif.set_state L (membrane_potential_ L') (synaptic_current_ L') /\
    length (membrane_potential_ L') = length (membrane_potential_ L) /\
    length (synaptic_current_ L') = length (synaptic_current_ L) /\
    length out' = length output_spikes /\
    (forall i, 0 <= i < j -> lif.neuron_updated L synaptic_input L' out' i) /\
    (forall i, ~ 0 <= i < j ->
       rd out' i = rd output_spikes i /\
       rd (membrane_potential_ L') i = rd (membrane_potential_ L) i /\
       rd (synaptic_current_ L') i = rd (synaptic_current_ L) i)).
  - exact Ho.
  - split; [by destruct L |]. repeat split; try done. intros i Hi. lia.
  - intros j [L1 out1] Hj (HL1 & Hl1 & Hl2 & Hl3 & Hdone & Hrest).
    destruct (Hrest j) as (Ho1 & Hm1 & Hs1); [lia |].
    destruct (rd_is_Some (synaptic_current_ L) j) as [sc Hsc0]; [lia |].
    destruct (rd_is_Some (membrane_potential_ L) j) as [mp Hmp0]; [lia |].
    destruct (rd_is_Some synaptic_input j) as [si Hsi0]; [lia |].
    assert (HbS : beta_syn_ L1 = beta_syn_ L) by (rewrite HL1; done).
    assert (HbM : beta_mem_ L1 = beta_mem_ L) by (rewrite HL1; done).
    assert (HP : params_ L1 = params_ L) by (rewrite HL1; done).
    unfold lif.update_neuron.
    rewrite Hs1, Hsc0, Hsi0, Hm1, Hmp0, HbS, HbM, HP. simpl.
    set (sc' := f_add (f_mul (beta_syn_ L) sc) si).
    set (mp' := f_add (f_mul (beta_mem_ L) mp) sc').
    repeat (rewrite wr_in_range by (rewrite ?length_insert; lia); simpl).
    destruct (f_ge mp' (v_thresh (params_ L))) eqn:Hfire;
      repeat (rewrite wr_in_range by (rewrite ?length_insert; lia); simpl);
      (eexists; split; [reflexivity |]); simpl;
      (split; [by rewrite HL1 |]);
      rewrite !length_insert; repeat split; try done;
      try (rewrite !rd_insert_ne by lia; apply Hrest; lia).
    + intros i Hi. destruct (Z.eq_dec i j) as [-> | Hne].
      * exists sc, mp, si. do 3 (split; [done |]).
        cbv zeta. fold sc' mp'. rewrite Hfire. simpl.
        rewrite !rd_insert_eq by (rewrite ?length_insert; lia). done.
      * destruct (Hdone i) as (sc0 & mp0 & si0 & Ha & Hb & Hc & Hd); [lia |].
        exists sc0, mp0, si0. do 3 (split; [done |]).
        cbv zeta in *. simpl.
        destruct Hd as [Hd1 Hd2]. rewrite !rd_insert_ne by lia.
        split; [done |].
        destruct (f_ge _ _); rewrite ?rd_insert_ne by lia; done.
    + intros i Hi. destruct (Z.eq_dec i j) as [-> | Hne].
      * exists sc, mp, si. do 3 (split; [done |]).
        cbv zeta. fold sc' mp'. rewrite Hfire. simpl.
        rewrite !rd_insert_eq by (rewrite ?length_insert; lia). done.
      * destruct (Hdone i) as (sc0 & mp0 & si0 & Ha & Hb & Hc & Hd); [lia |].
        exists sc0, mp0, si0. do 3 (split; [done |]).
        cbv zeta in *. simpl.
        destruct Hd as [Hd1 Hd2]. rewrite !rd_insert_ne by lia.
        split; [done |].
        destruct (f_ge _ _); rewrite ?rd_insert_ne by lia; done.
  - destruct r as [L' out'].
    destruct Hpost as (HL' & Hl1 & Hl2 & Hl3 & Hdone & Hrest).
    exists L', out'. repeat split; try done. intros i Hi. by apply Hrest.
Qed.

(** The kernel called by [forward] returns in every build but HAVE_SME2
    without HAVE_NEON; in the scalar build its result is the dense linear
    result W * input_spikes + bias. *)
Lemma compute_synaptic_input_returns cfg fuel L (input_spikes : list F) :
  lif.well_formed L ->
  (HAVE_SME2 cfg = true -> HAVE_NEON cfg = true) -> (3 <= fuel)%nat ->
  input_size_ L <= Z.of_nat (length input_spikes) ->
  exists synaptic_input,
    lif.compute_synaptic_input cfg fuel L input_spikes
      (replicate (Z.to_nat (output_size_ L)) f_zero) = Some (Some synaptic_input) /\
    Z.of_nat (length synaptic_input) = output_size_ L /\
    forall i, 0 <= i < output_size_ L ->
      rd synaptic_input i
      = Some (if HAVE_NEON cfg
              then kernels.neon_spec input_spikes (weights_ L) (bias_ L)
                     (input_size_ L) 0 i
              else kernels.dense_spec input_spikes (weights_ L) (bias_ L)
                     (input_size_ L) 0 i).
Proof.
  intros (Hi & Ho & Hw & Hb & _ & _) Hcfg Hfuel Hin.
  unfold lif.compute_synaptic_input, kernels.spike_dense_forward.
  destruct (HAVE_NEON cfg) eqn:Hneon.
  - rewrite call_neon_build by done.
    destruct (neon_loop_spec input_spikes (weights_ L) (bias_ L)
                (replicate (Z.to_nat (output_size_ L)) f_zero)
                1 (input_size_ L) (output_size_ L)) as (si & -> & Hlen & Hval & _);
      rewrite ?length_replicate; try (nia || lia).
    exists si. split; [done |]. split.
    + rewrite Hlen, length_replicate. lia.
    + intros i Hir. specialize (Hval 0 i).
      rewrite Z.mul_0_l, Z.add_0_l in Hval. apply Hval; lia.
  - destruct (HAVE_SME2 cfg) eqn:Hsme; [by discriminate Hcfg |].
    rewrite call_scalar_build by done.
    destruct (scalar_loop_spec input_spikes (weights_ L) (bias_ L)
                (replicate (Z.to_nat (output_size_ L)) f_zero)
                1 (input_size_ L) (output_size_ L)) as (si & -> & Hlen & Hval & _);
      rewrite ?length_replicate; try (nia || lia).
    exists si. split; [done |]. split.
    + rewrite Hlen, length_replicate. lia.
    + intros i Hir. specialize (Hval 0 i).
      rewrite Z.mul_0_l, Z.add_0_l in Hval. apply Hval; lia.
Qed.

Lemma forward_spec cfg fuel L (input_spikes output_spikes : list F) (batch_size : Z) :
  lif.well_formed L ->
  (HAVE_SME2 cfg = true -> HAVE_NEON cfg = true) -> (3 <= fuel)%nat ->
  input_size_ L <= Z.of_nat (length input_spikes) ->
  output_size_ L <= Z.of_nat (length output_spikes) ->
  exists synaptic_input L' out',
    lif.compute_synaptic_input cfg fuel L input_spikes
      (replicate (Z.to_nat (output_size_ L)) f_zero) = Some (Some synaptic_input) /\
    (forall i, 0 <= i < output_size_ L ->
       rd synaptic_input i
       = Some (if HAVE_NEON cfg
               then kernels.neon_spec input_spikes (weights_ L) (bias_ L)
                      (input_size_ L) 0 i
               else kernels.dense_spec input_spikes (weights_ L) (bias_ L)
                      (input_size_ L) 0 i)) /\
    lif.forward cfg fuel L input_spikes output_spikes batch_size
    = Some (Some (L', out')) /\
    length out' = length output_spikes /\
    (forall i, 0 <= i < output_size_ L ->
       lif.neuron_updated L synaptic_input L' out' i) /\
    (forall i, ~ 0 <= i < output_size_ L -> rd out' i = rd output_spikes i).
Proof.
  intros Hwf Hcfg Hfuel Hin Hout.
  destruct (compute_synaptic_input_returns cfg fuel L input_spikes)
    as (si & Hsi & Hlen & Hval); try done.
  destruct Hwf as (_ & Ho & _ & _ & Hmp & Hsc).
  destruct (update_neurons_spec L si output_spikes)
    as (L' & out' & Hup & _ & _ & _ & Hlo & Hdone & Hframe); try lia.
  exists si, L', out'. unfold lif.forward. rewrite Hsi, Hup. done.
Qed.

(** Claim C1: [forward] returns, and neuron i of the layer goes through
    synaptic_current[i] <- beta_syn * synaptic_current[i] + synaptic_input[i],
    membrane_potential[i] <- beta_mem * membrane_potential[i] + synaptic_current[i],
    then spike 1 and reset to v_reset if membrane_potential[i] >= v_thresh,
    else spike 0 and the decayed potential; synaptic_input[i] is
    W * input_spikes + bias for row i of the weights: bias[i] plus the
    products weights[i][j] * input_spikes[j], added in index order in the
    scalar build and in the four-lane order of the NEON loop in a build with
    HAVE_NEON, the same value in both where the order of summation is
    immaterial. *)
Theorem C1_forward_updates_each_neuron cfg fuel L
    (input_spikes output_spikes : list F) (batch_size : Z) :
  lif.well_formed L ->
  (HAVE_SME2 cfg = true -> HAVE_NEON cfg = true) -> (3 <= fuel)%nat ->
  input_size_ L <= Z.of_nat (length input_spikes) ->
  output_size_ L <= Z.of_nat (length output_spikes) ->
  exists synaptic_input L' out',
    lif.compute_synaptic_input cfg fuel L input_spikes
      (replicate (Z.to_nat (output_size_ L)) f_zero) = Some (Some synaptic_input) /\
    (forall i, 0 <= i < output_size_ L ->
       rd synaptic_input i
       = Some (if HAVE_NEON cfg
               then kernels.neon_spec input_spikes (weights_ L) (bias_ L)
                      (input_size_ L) 0 i
               else kernels.dense_spec input_spikes (weights_ L) (bias_ L)
                      (input_size_ L) 0 i)) /\
    ((forall a b : F, f_add a b = f_add b a) ->
     (forall a b c : F, f_add a (f_add b c) = f_add (f_add a b) c) ->
     (forall a : F, f_add f_zero a = a) ->
     (forall a b : F, f_mul a b = f_mul b a) ->
     forall i, 0 <= i < output_size_ L ->
       rd synaptic_input i
       = Some (kernels.dense_spec input_spikes (weights_ L) (bias_ L)
                 (input_size_ L) 0 i)) /\
    lif.forward cfg fuel L input_spikes output_spikes batch_size
    = Some (Some (L', out')) /\
    forall i, 0 <= i < output_size_ L ->
      exists sc mp si,
        rd (synaptic_current_ L) i = Some sc /\
        rd (membrane_potential_ L) i = Some mp /\
        rd synaptic_input i = Some si /\
        let sc' := f_add (f_mul (beta_syn_ L) sc) si in
        let mp' := f_add (f_mul (beta_mem_ L) mp) sc' in
        rd (synaptic_current_ L') i = Some sc' /\
        if f_ge mp' (v_thresh (params_ L))
        then rd out' i = Some f_one /\
             rd (membrane_potential_ L') i = Some (v_reset (params_ L))
        else rd out' i = Some f_zero /\
             rd (membrane_potential_ L') i = Some mp'.
Proof.
  intros Hwf Hcfg Hfuel Hin Hout.
  destruct (forward_spec cfg fuel L input_spikes output_spikes batch_size)
    as (si & L' & out' & Hsi & Hval & Hfw & _ & Hdone & _); try done.
  exists si, L', out'.
  split; [done |]. split; [done |]. split; [| split; [done | done]].
  intros Hc Ha H0 Hm i Hi. rewrite (Hval i Hi).
  destruct (HAVE_NEON cfg); [| done].
  destruct Hwf as (HI & HO & Hw & Hb & _ & _).
  rewrite neon_spec_exact by (done || nia || lia). done.
Qed.

(** Claim C5: every element [forward] writes to output_spikes, the elements
    below output_size, is exactly 0.0 or exactly 1.0; the rest of the buffer
    is not written. *)
Theorem C5_forward_outputs_are_binary cfg fuel L
    (input_spikes output_spikes : list F) (batch_size : Z) :
  lif.well_formed L ->
  (HAVE_SME2 cfg = true -> HAVE_NEON cfg = true) -> (3 <= fuel)%nat ->
  input_size_ L <= Z.of_nat (length input_spikes) ->
  output_size_ L <= Z.of_nat (length output_spikes) ->
  exists L' out',
    lif.forward cfg fuel L input_spikes output_spikes batch_size
    = Some (Some (L', out')) /\
    length out' = length output_spikes /\
    (forall i, 0 <= i < output_size_ L ->
       rd out' i = Some f_zero \/ rd out' i = Some f_one) /\
    (forall i, ~ 0 <= i < output_size_ L -> rd out' i = rd output_spikes i).
Proof.
  intros Hwf Hcfg Hfuel Hin Hout.
  destruct (forward_spec cfg fuel L input_spikes output_spikes batch_size)
    as (si & L' & out' & _ & _ & Hfw & Hlen & Hdone & Hframe); try done.
  exists L', out'. repeat split; try done.
  intros i Hi. destruct (Hdone i Hi) as (sc & mp & x & _ & _ & _ & Hstep).
  cbv zeta in Hstep. destruct Hstep as [_ Hstep].
  destruct (f_ge _ _); destruct Hstep as [Hout' _]; auto.
Qed.

(** Claim C4: after [reset] every membrane potential is v_rest and every
    synaptic current is 0, the vectors keep their sizes and nothing else in
    the layer changes; a second [reset] changes nothing. *)
Theorem C4_reset_restores_rest_state L :
  (forall i, 0 <= i < Z.of_nat (length (membrane_potential_ L)) ->
     rd (membrane_potential_ (lif.reset L)) i = Some (v_rest (params_ L))) /\
  (forall i, 0 <= i < Z.of_nat (length (synaptic_current_ L)) ->
     rd (synaptic_current_ (lif.reset L)) i = Some f_zero) /\
  length (membrane_potential_ (lif.reset L)) = length (membrane_potential_ L) /\
  length (synaptic_current_ (lif.reset L)) = length (synaptic_current_ L) /\
  lif.reset L
  = lif.set_state L (membrane_potential_ (lif.reset L))
      (synaptic_current_ (lif.reset L)) /\
  lif.reset (lif.reset L) = lif.reset L.
Proof.
  unfold lif.reset. simpl. rewrite !length_replicate.
  repeat split; try done.
  - intros i Hi. rewrite rd_lookup by lia. apply lookup_replicate_2. lia.
  - intros i Hi. rewrite rd_lookup by lia. apply lookup_replicate_2. lia.
Qed.
End LIFFacts.

Lemma C1_forward_updates_each_neuron_witness :
  exists L' out',
    lif.forward cfg_scalar 3 sample_layer sample_input [binary32.of_int 7; binary32.of_int 7] 1
    = Some (Some (L', out')).
Proof.
  destruct (C1_forward_updates_each_neuron cfg_scalar 3 sample_layer sample_input
              [binary32.of_int 7; binary32.of_int 7] 1)
    as (si & L' & out' & _ & _ & _ & Hfw & _).
  - unfold lif.well_formed. simpl. lia.
  - simpl. intros Hc. discriminate Hc.
  - lia.
  - simpl. lia.
  - simpl. lia.
  - exists L', out'. exact Hfw.
Defined.

Lemma C5_forward_outputs_are_binary_witness :
  exists L' out',
    lif.forward cfg_neon 3 sample_layer sample_input [binary32.of_int 7; binary32.of_int 7] 1
    = Some (Some (L', out')) /\
    (forall i, 0 <= i < 2 -> rd out' i = Some f_zero \/ rd out' i = Some f_one).
Proof.
  destruct (C5_forward_outputs_are_binary cfg_neon 3 sample_layer sample_input
              [binary32.of_int 7; binary32.of_int 7] 1)
    as (L' & out' & Hfw & _ & Hbin & _).
  - unfold lif.well_formed. simpl. lia.
  - simpl. intros Hc. discriminate Hc.
  - lia.
  - simpl. lia.
  - simpl. lia.
  - exists L', out'. split; [exact Hfw | exact Hbin].
Defined.

(** ** Spike encoders *)

Section ExactArithmeticFacts.
#[local] Open Scope Q_scope.

Lemma this_of_int z : this (exact.of_int z) == inject_Z z.
Proof. apply Qred_correct. Qed.

Lemma this_add (a b : Qc) : this (f_add a b) == this a + this b.
Proof. apply Qred_correct. Qed.

Lemma this_sub (a b : Qc) : this (f_sub a b) == this a - this b.
Proof.
  simpl. unfold Qcminus, Qcplus, Qcopp, Q2Qc. simpl.
  rewrite !Qred_correct. reflexivity.
Qed.

Lemma this_mul (a b : Qc) : this (f_mul a b) == this a * this b.
Proof. apply Qred_correct. Qed.

Lemma this_div (a b : Qc) : this (f_div a b) == this a / this b.
Proof.
  simpl. unfold Qcdiv, Qcmult, Qcinv, Q2Qc. simpl.
  rewrite !Qred_correct. reflexivity.
Qed.

Lemma exact_lt_true (a b : Qc) : f_lt a b = true <-> this a < this b.
Proof.
  simpl. unfold exact.lt. destruct (Qclt_le_dec a b) as [Hlt | Hle].
  - split; [intros _; exact Hlt | done].
  - split; [done |]. intros Hlt. exfalso.
    apply (Qlt_irrefl (this a)). eapply Qlt_le_trans; [exact Hlt | exact Hle].
Qed.

Lemma exact_lt_false (a b : Qc) : f_lt a b = false <-> this b <= this a.
Proof.
  simpl. unfold exact.lt. destruct (Qclt_le_dec a b) as [Hlt | Hle].
  - split; [done |]. intros Hle. exfalso.
    apply (Qlt_irrefl (this a)). eapply Qlt_le_trans; [exact Hlt | exact Hle].
  - split; [intros _; exact Hle | done].
Qed.

Lemma this_std_min (a b : Qc) : this (std_min a b) == Qmin (this a) (this b).
Proof.
  unfold std_min. destruct (f_lt b a) eqn:Hlt.
  - apply exact_lt_true in Hlt. symmetry. apply Q.min_r. by apply Qlt_le_weak.
  - apply exact_lt_false in Hlt. symmetry. by apply Q.min_l.
Qed.

Lemma this_std_max (a b : Qc) : this (std_max a b) == Qmax (this a) (this b).
Proof.
  unfold std_max. destruct (f_lt a b) eqn:Hlt.
  - apply exact_lt_true in Hlt. symmetry. apply Q.max_r. by apply Qlt_le_weak.
  - apply exact_lt_false in Hlt. symmetry. by apply Q.max_l.
Qed.

(* static_cast<int> of a non-negative value is its floor *)
Lemma exact_to_int_floor (v : Qc) :
  0 <= this v -> (Qfloor (this v) <= INT_MAX)%Z ->
  f_to_int v = Some (Qfloor (this v)).
Proof.
  intros Hpos Hmax. simpl. unfold exact.to_int.
  destruct (this v) as [n d] eqn:Hv. simpl in *.
  assert (0 <= n)%Z by (unfold Qle in Hpos; simpl in Hpos; lia).
  rewrite Z.quot_div_nonneg by lia.
  assert (0 <= n / Z.pos d)%Z by (apply Z.div_pos; lia).
  unfold in_int_range, INT_MIN, INT_MAX in *.
  destruct (Z.leb_spec (- 2 ^ 31) (n / Z.pos d)); [| lia].
  destruct (Z.leb_spec (n / Z.pos d) (2 ^ 31 - 1)); [done | lia].
Qed.

Lemma clamp_bounds (q : Q) : 0 <= Qmax 0 (Qmin 1 q) <= 1.
Proof.
  split; [apply Q.le_max_l |].
  apply Q.max_lub; [done |]. apply Q.le_min_l.
Qed.

Lemma clamp_mono (p q : Q) : p <= q -> Qmax 0 (Qmin 1 p) <= Qmax 0 (Qmin 1 q).
Proof. intros Hle. by apply Q.max_le_compat_l, Q.min_le_compat_l. Qed.

Lemma inject_Z_nonneg (z : Z) : (0 <= z)%Z -> 0 <= inject_Z z.
Proof. intros Hz. unfold Qle. simpl. lia. Qed.

Lemma latency_value_bounds (num_steps : Z) (x : Q) :
  (0 <= num_steps)%Z ->
  0 <= (1 - Qmax 0 (Qmin 1 ((x + 1) / 2))) * inject_Z num_steps <= inject_Z num_steps.
Proof.
  intros Hn. pose proof (clamp_bounds ((x + 1) / 2)) as [H0 H1].
  assert (0 <= inject_Z num_steps) by (by apply inject_Z_nonneg).
  set (c := Qmax 0 (Qmin 1 ((x + 1) / 2))) in *.
  split; [apply Qmult_le_0_compat; [lra | done] |].
  apply Qle_trans with (1 * inject_Z num_steps).
  - apply Qmult_le_compat_r; [lra | done].
  - rewrite Qmult_1_l. apply Qle_refl.
Qed.

(** In exact arithmetic [LatencyEncoder::encode] is the latency code of the
    specification. *)
Lemma LatencyEncoder_encode_exact (num_steps : Z) (x : Qc) :
  (1 <= num_steps <= INT_MAX)%Z ->
  enc.LatencyEncoder_encode num_steps x
  = Some (latency_spike_time num_steps (this x)).
Proof.
  intros Hn. unfold enc.LatencyEncoder_encode, latency_spike_time.
  set (nz := std_max f_zero (std_min f_one (f_div (f_add x f_one) f_two))).
  assert (Hnz : this nz == Qmax 0 (Qmin 1 ((this x + 1) / 2))).
  { unfold nz. rewrite this_std_max, this_std_min, this_div, this_add.
    unfold f_zero, f_one, f_two.
    change (f_of_int (F:=Qc)) with exact.of_int.
    rewrite !this_of_int. reflexivity. }
  clearbody nz.
  set (v := f_mul (f_sub f_one nz) (f_of_int num_steps)).
  assert (Hv : this v == (1 - Qmax 0 (Qmin 1 ((this x + 1) / 2))) * inject_Z num_steps).
  { unfold v. rewrite this_mul, this_sub, Hnz. unfold f_one.
    change (f_of_int (F:=Qc)) with exact.of_int.
    rewrite !this_of_int. reflexivity. }
  clearbody v.
  pose proof (latency_value_bounds num_steps (this x)) as [Hlo Hhi]; [lia |].
  rewrite <- Hv in Hlo, Hhi.
  assert (Hfl : (0 <= Qfloor (this v) <= num_steps)%Z).
  { split.
    - rewrite <- (Qfloor_Z 0). by apply Qfloor_resp_le.
    - rewrite <- (Qfloor_Z num_steps). by apply Qfloor_resp_le. }
  rewrite (exact_to_int_floor v Hlo) by lia.
  rewrite <- (Qfloor_comp _ _ Hv).
  change (Some (Z.min (Qfloor (this v)) (num_steps - 1))
          = Some (Z.max 0 (Z.min (num_steps - 1) (Qfloor (this v))))).
  f_equal. lia.
Qed.

Lemma latency_spike_time_range (num_steps : Z) (x : Q) :
  (1 <= num_steps)%Z -> (0 <= latency_spike_time num_steps x <= num_steps - 1)%Z.
Proof. intros Hn. unfold latency_spike_time. lia. Qed.

(** A larger input never spikes later. *)
Lemma latency_spike_time_antitone (num_steps : Z) (x y : Q) :
  (0 <= num_steps)%Z -> x <= y ->
  (latency_spike_time num_steps y <= latency_spike_time num_steps x)%Z.
Proof.
  intros Hn Hxy. unfold latency_spike_time.
  assert (Hfl : (Qfloor ((1 - Qmax 0 (Qmin 1 ((y + 1) / 2))) * inject_Z num_steps)
                 <= Qfloor ((1 - Qmax 0 (Qmin 1 ((x + 1) / 2))) * inject_Z num_steps))%Z).
  { apply Qfloor_resp_le. apply Qmult_le_compat_r.
    - pose proof (clamp_mono ((x + 1) / 2) ((y + 1) / 2)) as Hc.
      assert ((x + 1) / 2 <= (y + 1) / 2)
        by (apply Qmult_le_compat_r; [lra | unfold Qle; simpl; lia]).
      specialize (Hc H). lra.
    - by apply inject_Z_nonneg. }
  lia.
Qed.
End ExactArithmeticFacts.

Section EncoderFacts.
Context {F : Type} `{FloatOps F}.

Lemma memset_zero_spec (p : list F) (n : Z) :
  0 <= n <= Z.of_nat (length p) ->
  exists p',
    enc.memset_zero p n = Some p' /\ length p' = length p /\
    (forall k, 0 <= k < n -> rd p' k = Some f_zero) /\
    (forall k, ~ 0 <= k < n -> rd p' k = rd p k).
Proof.
  intros Hn. unfold enc.memset_zero.
  destruct (Z.leb_spec 0 n); [| lia].
  destruct (Z.leb_spec n (Z.of_nat (length p))); [| lia]. simpl.
  eexists. split; [reflexivity |]. split; [| split].
  - rewrite length_app, length_replicate, length_drop. lia.
  - intros k Hk. rewrite rd_lookup by lia.
    rewrite lookup_app_l by (rewrite length_replicate; lia).
    apply lookup_replicate_2. lia.
  - intros k Hk. unfold rd. destruct (Z.ltb_spec k 0); [done |].
    rewrite lookup_app_r by (rewrite length_replicate; lia).
    rewrite length_replicate, lookup_drop. f_equal. lia.
Qed.

(* a cell of the [num_steps, batch, feature] tensor has one address *)
Lemma tensor_index_inj (m t q t' q' : Z) :
  0 <= q < m -> 0 <= q' < m -> t * m + q = t' * m + q' -> t = t' /\ q = q'.
Proof.
  intros Hq Hq' Heq.
  assert (t = t'); [| subst; lia].
  destruct (Z.lt_trichotomy t t') as [Hlt | [Hteq | Hgt]]; [exfalso | done | exfalso].
  - assert ((t + 1) * m <= t' * m) by (apply Z.mul_le_mono_nonneg_r; lia). lia.
  - assert ((t' + 1) * m <= t * m) by (apply Z.mul_le_mono_nonneg_r; lia). lia.
Qed.

(** [encode_latency]: after the call the train of feature i of batch row b
    is 1 at its spike time and 0 at every other step. *)
Lemma encode_latency_spec (e : enc.SpikeEncoder) (input spike_trains : list F)
    (batch_size : Z) (time : Z -> Z -> Z) :
  0 <= enc.num_steps_ e -> 0 <= enc.input_size_ e -> 0 <= batch_size ->
  enc.num_steps_ e * batch_size * enc.input_size_ e
    <= Z.of_nat (length spike_trains) ->
  (forall b i, 0 <= b < batch_size -> 0 <= i < enc.input_size_ e ->
     exists x, rd input (b * enc.input_size_ e + i) = Some x /\
       enc.LatencyEncoder_encode (enc.num_steps_ e) x = Some (time b i) /\
       0 <= time b i < enc.num_steps_ e) ->
  exists out,
    enc.encode_latency e input spike_trains batch_size = Some out /\
    length out = length spike_trains /\
    (forall t b i, 0 <= t < enc.num_steps_ e -> 0 <= b < batch_size ->
       0 <= i < enc.input_size_ e ->
       rd out (t * batch_size * enc.input_size_ e + b * enc.input_size_ e + i)
       = Some (if t =? time b i then f_one else f_zero)) /\
    (forall k, ~ 0 <= k < enc.num_steps_ e * batch_size * enc.input_size_ e ->
       rd out k = rd spike_trains k).
Proof.
  destruct e as [I T ty]. simpl. intros HT HI HB Hlen Htime.
  unfold enc.encode_latency. simpl.
  set (M := batch_size * I).
  assert (HM : 0 <= M) by (unfold M; nia).
  assert (HTM : forall t, t * batch_size * I = t * M) by (intros; unfold M; ring).
  destruct (memset_zero_spec spike_trains (T * batch_size * I))
    as (st0 & -> & Hl0 & Hz0 & Hf0); [rewrite HTM in *; nia |]. simpl.
  set (marked_upto (p : Z) (out : list F) :=
    length out = length spike_trains /\
    (forall t b i, 0 <= t < T -> 0 <= b < batch_size -> 0 <= i < I ->
       rd out (t * M + (b * I + i))
       = Some (if (b * I + i <? p) && (t =? time b i) then f_one else f_zero)) /\
    (forall k, ~ 0 <= k < T * M -> rd out k = rd spike_trains k)).
  loop_inv (fun (b : Z) (out : list F) => marked_upto (b * I) out).
  - exact HB.
  - split; [done |]. split.
    + intros t b i Ht Hb Hi.
      destruct (Z.ltb_spec (b * I + i) (0 * I)); [nia |]. simpl.
      apply Hz0. rewrite HTM. unfold M. nia.
    + intros k Hk. apply Hf0. by rewrite HTM.
  - intros b out Hb Hinv.
    loop_inv (fun (i : Z) (out : list F) => marked_upto (b * I + i) out).
    + exact HI.
    + cbv beta. by rewrite Z.add_0_r.
    + intros i t0 Hi (Hl & Hv & Hf).
      destruct (Htime b i Hb Hi) as (x & Hx & Hen & Htr).
      rewrite Hx. simpl. rewrite Hen. simpl.
      rewrite HTM, <- Z.add_assoc.
      assert (Hq : 0 <= b * I + i < M) by (unfold M; nia).
      rewrite wr_in_range by (rewrite HTM in Hlen; nia).
      eexists. split; [reflexivity |]. split; [| split].
      * by rewrite length_insert.
      * intros t b' i' Ht Hb' Hi'.
        assert (Hq' : 0 <= b' * I + i' < M) by (unfold M; nia).
        destruct (Z.eq_dec (t * M + (b' * I + i')) (time b i * M + (b * I + i)))
          as [Heq | Hne].
        -- rewrite Heq, rd_insert_eq by nia.
           apply tensor_index_inj in Heq as [-> Hq2]; [| done | done].
           assert (b' = b) by nia. subst b'. assert (i' = i) by lia. subst i'.
           destruct (Z.ltb_spec (b * I + i) (b * I + (i + 1))); [| lia].
           by rewrite Z.eqb_refl.
        -- rewrite rd_insert_ne by (nia || lia). rewrite Hv by done.
           destruct (Z.eq_dec (b' * I + i') (b * I + i)) as [Hsame | Hother].
           ++ assert (b' = b) by nia. subst b'. assert (i' = i) by lia. subst i'.
              destruct (Z.eqb_spec t (time b i)) as [-> | Hdt]; [done |].
              by rewrite !andb_false_r.
           ++ destruct (Z.ltb_spec (b' * I + i') (b * I + i));
                destruct (Z.ltb_spec (b' * I + i') (b * I + (i + 1))); done || lia.
      * intros k Hk. rewrite rd_insert_ne by (nia || lia). by apply Hf.
    + eexists. split; [reflexivity |].
      by replace ((b + 1) * I) with (b * I + I) by lia.
  - destruct Hpost as (Hl & Hv & Hf).
    eexists. split; [reflexivity |]. split; [done |]. split.
    + intros t b i Ht Hb Hi. rewrite HTM, <- Z.add_assoc, Hv by done.
      destruct (Z.ltb_spec (b * I + i) (batch_size * I)); [done | nia].
    + intros k Hk. apply Hf. by rewrite <- HTM.
Qed.
End EncoderFacts.

Section RateFacts.
Context {F : Type} `{FloatOps F} `{StdLib F}.

Lemma mod_of_row_offset (t m q : Z) : 0 <= q < m -> (t * m + q) mod m = q.
Proof.
  intros Hq. rewrite Z.add_comm, Z.mod_add by lia. apply Z.mod_small. lia.
Qed.

(** [encode_rate] starts from a fresh default RateEncoder and fills the
    first num_steps * batch_size * input_size elements, in address order,
    with the successive spikes of that encoder. *)
Lemma encode_rate_spec (e : enc.SpikeEncoder) (input spike_trains : list F)
    (batch_size : Z) :
  0 <= enc.num_steps_ e -> 0 <= enc.input_size_ e -> 0 <= batch_size ->
  batch_size * enc.input_size_ e <= Z.of_nat (length input) ->
  enc.num_steps_ e * batch_size * enc.input_size_ e
    <= Z.of_nat (length spike_trains) ->
  exists out,
    enc.encode_rate e input spike_trains batch_size = Some out /\
    length out = length spike_trains /\
    (forall k, 0 <= k < enc.num_steps_ e * batch_size * enc.input_size_ e ->
       rd out k
       = Some (enc.rate_spike (enc.rate_input input batch_size (enc.input_size_ e))
                 (Z.to_nat k))) /\
    (forall k, ~ 0 <= k < enc.num_steps_ e * batch_size * enc.input_size_ e ->
       rd out k = rd spike_trains k).
Proof.
  destruct e as [I T ty]. simpl. intros HT HI HB Hin Hlen.
  unfold enc.encode_rate. simpl.
  set (M := batch_size * I) in *.
  assert (HM : 0 <= M) by (unfold M; nia).
  assert (HTM : forall t, t * batch_size * I = t * M) by (intros; unfold M; ring).
  set (xs := enc.rate_input input batch_size I).
  set (filled_upto (p : Z) (st : enc.RateEncoder * list F) :=
    fst st = enc.rate_encoder_before xs (Z.to_nat p) /\
    length (snd st) = length spike_trains /\
    (forall k, 0 <= k < p -> rd (snd st) k = Some (enc.rate_spike xs (Z.to_nat k))) /\
    (forall k, ~ 0 <= k < p -> rd (snd st) k = rd spike_trains k)).
  loop_inv (fun (t : Z) (st : enc.RateEncoder * list F) => filled_upto (t * M) st).
  - exact HT.
  - repeat split; simpl; try done. intros k Hk. lia.
  - intros t st Ht Hinv.
    loop_inv (fun (b : Z) (st : enc.RateEncoder * list F) =>
                filled_upto (t * M + b * I) st).
    + exact HB.
    + cbv beta. by rewrite Z.mul_0_l, Z.add_0_r.
    + intros b st1 Hb Hinv1.
      loop_inv (fun (i : Z) (st : enc.RateEncoder * list F) =>
                  filled_upto (t * M + b * I + i) st).
      * exact HI.
      * cbv beta. by rewrite Z.add_0_r.
      * intros i [encoder st2] Hi (Henc & Hl & Hv & Hf). simpl in Henc, Hl, Hv, Hf.
        assert (Hq : 0 <= b * I + i < M) by (unfold M; nia).
        assert (Hp : 0 <= t * M + b * I + i < T * M) by nia.
        destruct (rd_is_Some input (b * I + i)) as [x Hx]; [lia |].
        rewrite Hx. simpl.
        destruct (enc.RateEncoder_encode encoder x) as [v encoder'] eqn:Hdraw.
        rewrite HTM, wr_in_range by (rewrite HTM in Hlen; lia). simpl.
        assert (Hxs : xs (Z.to_nat (t * M + b * I + i)) = x).
        { unfold xs, enc.rate_input. fold M.
          rewrite Z2Nat.id, <- Z.add_assoc, mod_of_row_offset by lia.
          by rewrite Hx. }
        eexists. split; [reflexivity |]. repeat split; simpl.
        -- replace (Z.to_nat (t * M + b * I + (i + 1)))
             with (S (Z.to_nat (t * M + b * I + i))) by lia.
           simpl. by rewrite <- Henc, Hxs, Hdraw.
        -- by rewrite length_insert.
        -- intros k Hk. destruct (Z.eq_dec k (t * M + b * I + i)) as [-> | Hne].
           ++ rewrite rd_insert_eq by lia. unfold enc.rate_spike.
              by rewrite <- Henc, Hxs, Hdraw.
           ++ rewrite rd_insert_ne by lia. apply Hv. lia.
        -- intros k Hk. rewrite rd_insert_ne by lia. apply Hf. lia.
      * eexists. split; [reflexivity |].
        by replace (t * M + (b + 1) * I) with (t * M + b * I + I) by lia.
    + eexists. split; [reflexivity |].
      by replace ((t + 1) * M) with (t * M + batch_size * I) by (unfold M; lia).
  - destruct r as [encoder out]. destruct Hpost as (_ & Hl & Hv & Hf).
    simpl in *. exists out. rewrite !HTM. done.
Qed.
End RateFacts.

Section EncodeFacts.
Context {F : Type} `{FloatOps F} `{StdLib F}.

(** Claim C9: [encode] with RATE builds a fresh RateEncoder with gain 10 and
    seed 42 on every call and leaves the SpikeEncoder as it was, so two
    calls on encoders of the same shape (or on the same encoder) with the
    same input write the same spikes, whatever the output buffers held. *)
Theorem C9_rate_encoding_repeats (e1 e2 : enc.SpikeEncoder)
    (input spike_trains1 spike_trains2 : list F) (batch_size : Z) :
  enc.type_ e1 = RATE -> enc.type_ e2 = RATE ->
  enc.input_size_ e1 = enc.input_size_ e2 ->
  enc.num_steps_ e1 = enc.num_steps_ e2 ->
  0 <= enc.num_steps_ e1 -> 0 <= enc.input_size_ e1 -> 0 <= batch_size ->
  batch_size * enc.input_size_ e1 <= Z.of_nat (length input) ->
  enc.num_steps_ e1 * batch_size * enc.input_size_ e1
    <= Z.of_nat (length spike_trains1) ->
  enc.num_steps_ e1 * batch_size * enc.input_size_ e1
    <= Z.of_nat (length spike_trains2) ->
  exists out1 out2,
    enc.encode e1 input spike_trains1 batch_size = Some (e1, out1, []) /\
    enc.encode e2 input spike_trains2 batch_size = Some (e2, out2, []) /\
    length out1 = length spike_trains1 /\
    length out2 = length spike_trains2 /\
    forall k, 0 <= k < enc.num_steps_ e1 * batch_size * enc.input_size_ e1 ->
      rd out1 k = rd out2 k /\
      rd out1 k
      = Some (enc.rate_spike
                (enc.rate_input input batch_size (enc.input_size_ e1)) (Z.to_nat k)).
Proof.
  intros Hty1 Hty2 HI HT HT0 HI0 HB Hin Hl1 Hl2.
  destruct (encode_rate_spec e1 input spike_trains1 batch_size)
    as (out1 & Hrun1 & Hlen1 & Hv1 & _); try done.
  destruct (encode_rate_spec e2 input spike_trains2 batch_size)
    as (out2 & Hrun2 & Hlen2 & Hv2 & _); rewrite <- ?HI, <- ?HT; try done.
  exists out1, out2. unfold enc.encode. rewrite Hty1, Hty2, Hrun1, Hrun2. simpl.
  repeat split; try done.
  - rewrite Hv1 by done. rewrite Hv2 by (rewrite <- ?HI, <- ?HT; done).
    by rewrite HI.
  - by apply Hv1.
Qed.

(** Claim C10: [encode] on an encoder of type TEMPORAL returns the output
    buffer and the encoder as they were and sends one line to the error
    log; no code of TemporalContrastEncoder takes part. *)
Theorem C10_temporal_encode_writes_nothing (input_size num_steps : Z)
    (input spike_trains : list F) (batch_size : Z) :
  enc.encode (enc.mk_SpikeEncoder input_size num_steps TEMPORAL)
    input spike_trains batch_size
  = Some (enc.mk_SpikeEncoder input_size num_steps TEMPORAL, spike_trains,
          ["Unsupported encoding type"%string]).
Proof. reflexivity. Qed.
End EncodeFacts.

Section TemporalContrastFacts.
Context {F : Type} `{FloatOps F}.

(** The separate TemporalContrastEncoder does implement the ON/OFF rule:
    ON where the change exceeds the threshold, OFF where it is below minus
    the threshold, and the stored sample is replaced in every case. *)
Lemma TemporalContrastEncoder_encode_spec (e : enc.TemporalContrastEncoder)
    (input on_spikes off_spikes : list F) :
  0 <= enc.tc_input_size_ e ->
  enc.tc_input_size_ e <= Z.of_nat (length input) ->
  enc.tc_input_size_ e <= Z.of_nat (length (enc.prev_input_ e)) ->
  enc.tc_input_size_ e <= Z.of_nat (length on_spikes) ->
  enc.tc_input_size_ e <= Z.of_nat (length off_spikes) ->
  exists e' on' off',
    enc.TemporalContrastEncoder_encode e input on_spikes off_spikes
    = Some (e', on', off') /\
    enc.threshold_ e' = enc.threshold_ e /\
    enc.tc_input_size_ e' = enc.tc_input_size_ e /\
    forall i, 0 <= i < enc.tc_input_size_ e ->
      exists x p,
        rd input i = Some x /\ rd (enc.prev_input_ e) i = Some p /\
        rd (enc.prev_input_ e') i = Some x /\
        rd on' i = Some (if f_gt (f_sub x p) (enc.threshold_ e)
                         then f_one else f_zero) /\
        rd off' i = Some (if f_gt (f_sub x p) (enc.threshold_ e) then f_zero
                          else if f_lt (f_sub x p) (f_neg (enc.threshold_ e))
                               then f_one else f_zero).
Proof.
  destruct e as [n th prev0]. simpl. intros Hn Hin Hprev Hon Hoff.
  unfold enc.TemporalContrastEncoder_encode. simpl.
  loop_inv (fun (j : Z) (st : list F * list F * list F) =>
    let '(prev, on, off) := st in
    length prev = length prev0 /\ length on = length on_spikes /\
    length off = length off_spikes /\
    (forall i, ~ 0 <= i < j -> rd prev i = rd prev0 i) /\
    forall i, 0 <= i < j ->
      exists x p,
        rd input i = Some x /\ rd prev0 i = Some p /\ rd prev i = Some x /\
        rd on i = Some (if f_gt (f_sub x p) th then f_one else f_zero) /\
        rd off i = Some (if f_gt (f_sub x p) th then f_zero
                         else if f_lt (f_sub x p) (f_neg th)
                              then f_one else f_zero)).
  - exact Hn.
  - repeat split; try done. intros i Hi. lia.
  - intros j [[prev on] off] Hj (Hl1 & Hl2 & Hl3 & Hrest & Hdone).
    destruct (rd_is_Some input j) as [x Hx]; [lia |].
    destruct (rd_is_Some prev0 j) as [p Hp]; [lia |].
    rewrite Hx, (Hrest j), Hp by lia. simpl.
    set (on_v := if f_gt (f_sub x p) th then f_one else f_zero).
    set (off_v := if f_gt (f_sub x p) th then f_zero
                  else if f_lt (f_sub x p) (f_neg th) then f_one else f_zero).
    assert (Hpair :
      (if f_gt (f_sub x p) th then (f_one, f_zero)
       else if f_lt (f_sub x p) (f_neg th) then (f_zero, f_one)
            else (f_zero, f_zero)) = (on_v, off_v)).
    { unfold on_v, off_v. destruct (f_gt _ _); [done |]. by destruct (f_lt _ _). }
    rewrite Hpair.
    repeat (rewrite wr_in_range by lia; simpl).
    eexists. split; [reflexivity |]. simpl.
    rewrite !length_insert. repeat split; try done.
    + intros i Hi. rewrite rd_insert_ne by lia. apply Hrest. lia.
    + intros i Hi. destruct (Z.eq_dec i j) as [-> | Hne].
      * exists x, p. rewrite !rd_insert_eq by lia. done.
      * rewrite !rd_insert_ne by lia. apply Hdone. lia.
  - destruct r as [[prev on] off]. destruct Hpost as (_ & _ & _ & _ & Hdone).
    eexists _, on, off. split; [reflexivity |]. simpl. done.
Qed.
End TemporalContrastFacts.

Lemma LatencyEncoder_encode_le {F : Type} `{FloatOps F} (num_steps : Z) (x : F) (t : Z) :
  enc.LatencyEncoder_encode num_steps x = Some t -> t <= num_steps - 1.
Proof.
  unfold enc.LatencyEncoder_encode.
  destruct (f_to_int _) as [v |]; simpl; [| done].
  intros [= <-]. lia.
Qed.




Lemma C9_rate_encoding_repeats_witness :
  exists out1 out2,
    enc.encode (H0:=stand_in_stdlib) (enc.mk_SpikeEncoder 2 3 RATE)
      (map exact.of_int [1; -1]) (replicate 6 (exact.of_int 5)) 1
    = Some (enc.mk_SpikeEncoder 2 3 RATE, out1, []) /\
    enc.encode (H0:=stand_in_stdlib) (enc.mk_SpikeEncoder 2 3 RATE)
      (map exact.of_int [1; -1]) (replicate 8 (exact.of_int 7)) 1
    = Some (enc.mk_SpikeEncoder 2 3 RATE, out2, []) /\
    forall k, 0 <= k < 6 -> rd out1 k = rd out2 k.
Proof.
  destruct (@C9_rate_encoding_repeats Qc exact_ops stand_in_stdlib
              (enc.mk_SpikeEncoder 2 3 RATE) (enc.mk_SpikeEncoder 2 3 RATE)
              (map exact.of_int [1; -1]) (replicate 6 (exact.of_int 5))
              (replicate 8 (exact.of_int 7)) 1)
    as (out1 & out2 & H1 & H2 & _ & _ & Hsame);
    try reflexivity; try (simpl; lia).
  exists out1, out2. split; [exact H1 |]. split; [exact H2 |].
  intros k Hk. apply Hsame. simpl. lia.
Defined.

(** Scenario A of the specification, in binary32 with decay factors 0.5:
    both neurons receive 1.0, reach the threshold, spike and are reset. *)
Example lif_scenario_A :
  lif.forward cfg_scalar 3 sample_layer sample_input
    [binary32.of_int 7; binary32.of_int 7] 1
  = Some (Some (lif.set_state sample_layer
                  [binary32.of_int 0; binary32.of_int 0]
                  [binary32.of_int 1; binary32.of_int 1],
                [binary32.of_int 1; binary32.of_int 1])).
Proof. vm_compute. reflexivity. Qed.

(** ** Ring buffer *)

Section MemcpyFacts.
Context {A : Type}.

Lemma wrap_small (z : Z) : 0 <= z < SIZE_MOD -> wrap z = z.
Proof. intros Hz. unfold wrap. by apply Z.mod_small. Qed.

Lemma memcpy_spec (dst : list A) (dpos : Z) (src : list A) (spos n : Z) :
  0 <= dpos -> 0 <= spos -> 0 <= n -> n * sizeof_float < SIZE_MOD ->
  dpos + n <= Z.of_nat (length dst) -> spos + n <= Z.of_nat (length src) ->
  exists r,
    memcpy dst dpos src spos (wrap (n * sizeof_float)) = Some r /\
    length r = length dst /\
    forall p, rd r p = if (dpos <=? p) && (p <? dpos + n)
                       then rd src (spos + (p - dpos)) else rd dst p.
Proof.
  intros Hd Hs Hn Hbytes Hdl Hsl. unfold memcpy.
  rewrite wrap_small by (unfold sizeof_float in *; lia).
  replace (n * sizeof_float / sizeof_float) with n
    by (unfold sizeof_float; rewrite Z.div_mul; lia).
  destruct (Z.leb_spec 0 dpos); [| lia]. destruct (Z.leb_spec 0 spos); [| lia].
  destruct (Z.leb_spec 0 n); [| lia].
  destruct (Z.leb_spec (dpos + n) (Z.of_nat (length dst))); [| lia].
  destruct (Z.leb_spec (spos + n) (Z.of_nat (length src))); [| lia]. simpl.
  eexists. split; [reflexivity |].
  assert (Hl1 : length (take (Z.to_nat dpos) dst) = Z.to_nat dpos)
    by (rewrite length_take; lia).
  assert (Hl2 : length (take (Z.to_nat n) (drop (Z.to_nat spos) src)) = Z.to_nat n)
    by (rewrite length_take, length_drop; lia).
  split.
  - rewrite !length_app, Hl1, Hl2, length_drop. lia.
  - intros p. unfold rd. destruct (Z.ltb_spec p 0).
    + destruct (Z.leb_spec dpos p); [lia | done].
    + destruct (Z.leb_spec dpos p); simpl.
      * rewrite lookup_app_r by lia. rewrite Hl1.
        destruct (Z.ltb_spec p (dpos + n)).
        -- rewrite lookup_app_l by lia.
           rewrite lookup_take_lt by lia. rewrite lookup_drop.
           destruct (Z.ltb_spec (spos + (p - dpos)) 0); [lia |]. f_equal. lia.
        -- rewrite lookup_app_r by lia. rewrite Hl2, lookup_drop. f_equal. lia.
      * rewrite lookup_app_l by lia. rewrite lookup_take_lt by lia. done.
Qed.
End MemcpyFacts.

Section RingBufferFacts.
Context {F : Type} `{FloatOps F}.
Implicit Types (rb : @ring_buffer.RingBuffer F) (data : list F).

Lemma size_of_well_formed rb :
  ring_buffer.well_formed rb ->
  0 < ring_buffer.capacity_ rb /\ 4 * ring_buffer.capacity_ rb < 2 ^ 64.
Proof.
  intros (Hc & Hb & _). unfold sizeof_float, SIZE_MOD in Hb. lia.
Qed.

Lemma available_spec rb :
  ring_buffer.well_formed rb ->
  ring_buffer.available rb
  = (if ring_buffer.read_pos_ rb <=? ring_buffer.write_pos_ rb
     then ring_buffer.write_pos_ rb - ring_buffer.read_pos_ rb
     else ring_buffer.capacity_ rb
          - (ring_buffer.read_pos_ rb - ring_buffer.write_pos_ rb)) /\
  0 <= ring_buffer.available rb <= ring_buffer.capacity_ rb - 1.
Proof.
  intros Hwf. pose proof (size_of_well_formed rb Hwf) as [Hc Hb].
  destruct Hwf as (_ & _ & _ & Hw & Hr).
  unfold ring_buffer.available. rewrite Z.geb_leb.
  destruct (Z.leb_spec (ring_buffer.read_pos_ rb) (ring_buffer.write_pos_ rb)).
  - rewrite wrap_small by (unfold SIZE_MOD; lia). lia.
  - rewrite (wrap_small (ring_buffer.read_pos_ rb - ring_buffer.write_pos_ rb))
      by (unfold SIZE_MOD; lia).
    rewrite wrap_small by (unfold SIZE_MOD; lia). lia.
Qed.

Lemma remaining_spec rb :
  ring_buffer.well_formed rb ->
  ring_buffer.remaining rb
  = ring_buffer.capacity_ rb - ring_buffer.available rb - 1.
Proof.
  intros Hwf. pose proof (size_of_well_formed rb Hwf) as [Hc Hb].
  pose proof (available_spec rb Hwf) as [_ Ha].
  unfold ring_buffer.remaining.
  rewrite (wrap_small (ring_buffer.capacity_ rb - ring_buffer.available rb))
    by (unfold SIZE_MOD; lia).
  rewrite wrap_small by (unfold SIZE_MOD; lia). done.
Qed.

(* position j of the unread samples lives at read_pos + j, wrapped *)
Lemma contents_length rb :
  ring_buffer.well_formed rb ->
  length (ring_buffer.contents rb) = Z.to_nat (ring_buffer.available rb).
Proof.
  intros Hwf. pose proof (available_spec rb Hwf) as [_ Ha].
  destruct Hwf as (_ & _ & Hl & _ & Hr).
  unfold ring_buffer.contents. rewrite length_take, length_drop, length_app. lia.
Qed.

Lemma contents_lookup rb j :
  ring_buffer.well_formed rb -> 0 <= j < ring_buffer.available rb ->
  ring_buffer.contents rb !! Z.to_nat j
  = rd (ring_buffer.buffer_ rb)
       (if ring_buffer.read_pos_ rb + j <? ring_buffer.capacity_ rb
        then ring_buffer.read_pos_ rb + j
        else ring_buffer.read_pos_ rb + j - ring_buffer.capacity_ rb).
Proof.
  intros Hwf Hj. pose proof (available_spec rb Hwf) as [_ Ha].
  destruct Hwf as (_ & _ & Hl & _ & Hr).
  unfold ring_buffer.contents.
  rewrite lookup_take_lt, lookup_drop by lia.
  destruct (Z.ltb_spec (ring_buffer.read_pos_ rb + j) (ring_buffer.capacity_ rb)).
  - rewrite lookup_app_l, rd_lookup by lia. f_equal. lia.
  - rewrite lookup_app_r, rd_lookup by lia. f_equal. lia.
Qed.

Lemma contents_ext rb (l : list F) :
  ring_buffer.well_formed rb ->
  length l = Z.to_nat (ring_buffer.available rb) ->
  (forall j, 0 <= j < ring_buffer.available rb ->
     l !! Z.to_nat j
     = rd (ring_buffer.buffer_ rb)
          (if ring_buffer.read_pos_ rb + j <? ring_buffer.capacity_ rb
           then ring_buffer.read_pos_ rb + j
           else ring_buffer.read_pos_ rb + j - ring_buffer.capacity_ rb)) ->
  ring_buffer.contents rb = l.
Proof.
  intros Hwf Hlen Hlk. apply list_eq. intros i.
  destruct (decide (i < Z.to_nat (ring_buffer.available rb))%nat) as [Hi | Hi].
  - replace i with (Z.to_nat (Z.of_nat i)) by lia.
    rewrite contents_lookup, Hlk by (done || lia). done.
  - rewrite !lookup_ge_None_2; [done | lia |].
    rewrite contents_length by done. lia.
Qed.

Lemma rem_once (a c : Z) :
  0 < c -> 0 <= a < 2 * c -> a mod c = if a <? c then a else a - c.
Proof.
  intros Hc Ha. destruct (Z.ltb_spec a c).
  - apply Z.mod_small. lia.
  - symmetry. apply (Z.mod_unique a c 1); lia.
Qed.

Lemma write_space_is_remaining rb :
  ring_buffer.well_formed rb ->
  (if ring_buffer.write_pos_ rb >=? ring_buffer.read_pos_ rb
   then wrap (wrap (ring_buffer.capacity_ rb
                    - wrap (ring_buffer.write_pos_ rb - ring_buffer.read_pos_ rb)) - 1)
   else wrap (wrap (ring_buffer.read_pos_ rb - ring_buffer.write_pos_ rb) - 1))
  = ring_buffer.remaining rb.
Proof.
  intros Hwf. pose proof (size_of_well_formed rb Hwf) as [Hc Hb].
  pose proof (available_spec rb Hwf) as [Hav Ha].
  rewrite remaining_spec, Hav by done.
  destruct Hwf as (_ & _ & _ & Hw & Hr). rewrite Z.geb_leb.
  destruct (Z.leb_spec (ring_buffer.read_pos_ rb) (ring_buffer.write_pos_ rb)).
  - rewrite (wrap_small (ring_buffer.write_pos_ rb - ring_buffer.read_pos_ rb))
      by (unfold SIZE_MOD; lia).
    rewrite (wrap_small (ring_buffer.capacity_ rb - _)) by (unfold SIZE_MOD; lia).
    rewrite wrap_small by (unfold SIZE_MOD; lia). done.
  - rewrite (wrap_small (ring_buffer.read_pos_ rb - ring_buffer.write_pos_ rb))
      by (unfold SIZE_MOD; lia).
    rewrite wrap_small by (unfold SIZE_MOD; lia). lia.
Qed.

(* after the bounds are known, the comparisons left in a goal are decided
   by linear arithmetic *)
Ltac case_bounds :=
  repeat match goal with
    | |- context [Z.leb ?a ?b] => destruct (Z.leb_spec a b)
    | |- context [Z.ltb ?a ?b] => destruct (Z.ltb_spec a b)
    | _ : context [Z.leb ?a ?b] |- _ => destruct (Z.leb_spec a b)
    | _ : context [Z.ltb ?a ?b] |- _ => destruct (Z.ltb_spec a b)
    end;
  simpl in *; try lia; try done; try (f_equal; lia).

(** [write] copies min(count, remaining()) samples behind the unread ones
    and touches nothing that is still unread. *)
Lemma write_spec rb data count :
  ring_buffer.well_formed rb ->
  0 <= count < SIZE_MOD -> count <= Z.of_nat (length data) ->
  exists rb',
    ring_buffer.write rb data count
    = Some (rb', Z.min count (ring_buffer.remaining rb)) /\
    ring_buffer.well_formed rb' /\
    ring_buffer.capacity_ rb' = ring_buffer.capacity_ rb /\
    ring_buffer.read_pos_ rb' = ring_buffer.read_pos_ rb /\
    ring_buffer.available rb'
    = ring_buffer.available rb + Z.min count (ring_buffer.remaining rb) /\
    ring_buffer.contents rb'
    = ring_buffer.contents rb
      ++ take (Z.to_nat (Z.min count (ring_buffer.remaining rb))) data.
Proof.
  intros Hwf Hcount Hdata.
  pose proof (size_of_well_formed rb Hwf) as [Hc Hb].
  pose proof (available_spec rb Hwf) as [Hav Ha].
  pose proof (remaining_spec rb Hwf) as Hrem.
  pose proof (contents_length rb Hwf) as Hcl.
  pose proof (fun j => contents_lookup rb j Hwf) as Hlk.
  unfold ring_buffer.write. rewrite write_space_is_remaining by done.
  set (n := Z.min count (ring_buffer.remaining rb)) in *.
  destruct (Z.eqb_spec n 0) as [Hn0 | Hn0].
  { exists rb. rewrite Hn0. simpl. rewrite app_nil_r, Z.add_0_r. done. }
  assert (Hn : 0 < n <= ring_buffer.capacity_ rb - 1 - ring_buffer.available rb)
    by lia.
  destruct rb as [buf cap wp rp]. simpl in *.
  destruct Hwf as (_ & _ & Hl & Hw & Hr). simpl in *.
  rewrite (wrap_small (cap - wp)) by (unfold SIZE_MOD; lia).
  set (first := Z.min n (cap - wp)).
  destruct (memcpy_spec buf wp data 0 first) as (buf1 & -> & Hl1 & Hv1);
    try (unfold sizeof_float, SIZE_MOD; lia). simpl.
  assert (Hbuf2 : exists buf2,
    (if first <? n
     then memcpy buf1 0 data first (wrap (wrap (n - first) * sizeof_float))
     else Some buf1) = Some buf2 /\
    length buf2 = length buf /\
    forall p, rd buf2 p
      = if (0 <=? p) && (p <? n - first) then rd data (first + p)
        else if (wp <=? p) && (p <? wp + first) then rd data (p - wp)
             else rd buf p).
  { destruct (Z.ltb_spec first n).
    - rewrite (wrap_small (n - first)) by (unfold SIZE_MOD; lia).
      destruct (memcpy_spec buf1 0 data first (n - first)) as (buf2 & -> & Hl2 & Hv2);
        try (unfold sizeof_float, SIZE_MOD; lia).
      exists buf2. split; [done |]. split; [lia |].
      intros p. rewrite Hv2, Hv1. case_bounds.
    - exists buf1. split; [done |]. split; [done |].
      intros p. rewrite Hv1. case_bounds. }
  destruct Hbuf2 as (buf2 & -> & Hl2 & Hv2). simpl.
  unfold ring_buffer.size_rem. destruct (Z.eqb_spec cap 0); [lia |]. simpl.
  rewrite (wrap_small (wp + n)) by (unfold SIZE_MOD; lia).
  rewrite rem_once by lia.
  set (wp' := if wp + n <? cap then wp + n else wp + n - cap).
  assert (Hwp' : 0 <= wp' < cap) by (unfold wp'; case_bounds).
  set (rb' := ring_buffer.mk_RingBuffer buf2 cap wp' rp).
  assert (Hwf' : ring_buffer.well_formed rb').
  { unfold ring_buffer.well_formed, sizeof_float, SIZE_MOD. simpl. lia. }
  pose proof (available_spec rb' Hwf') as [Hav' _]. simpl in Hav'.
  assert (Ha' : ring_buffer.available rb' = ring_buffer.available
                  (ring_buffer.mk_RingBuffer buf cap wp rp) + n).
  { rewrite Hav', Hav. unfold wp'. case_bounds. }
  exists rb'. split; [done |]. split; [exact Hwf' |]. split; [done |].
  split; [done |]. split; [exact Ha' |].
  apply contents_ext; [done | |].
  - rewrite length_app, length_take, Hcl, Ha'. lia.
  - intros j Hj. simpl.
    destruct (Z.ltb_spec j (ring_buffer.available
                              (ring_buffer.mk_RingBuffer buf cap wp rp))) as [Hold | Hnew].
    + rewrite lookup_app_l by lia. rewrite Hlk by lia. simpl.
      rewrite Hv2. rewrite Hav in *. unfold first in *. case_bounds.
    + rewrite lookup_app_r by lia. rewrite Hcl.
      rewrite lookup_take_lt by lia. rewrite Hv2.
      replace (Z.to_nat j - Z.to_nat (ring_buffer.available
                                        (ring_buffer.mk_RingBuffer buf cap wp rp)))%nat
        with (Z.to_nat (j - ring_buffer.available
                              (ring_buffer.mk_RingBuffer buf cap wp rp))) by lia.
      rewrite <- rd_lookup by lia.
      rewrite Ha' in Hj. rewrite Hav in *. unfold first in *. case_bounds.
Qed.

(** [read] hands out the min(count, available()) oldest unread samples, in
    order, and leaves the rest of the caller's array alone. *)
Lemma read_spec rb data count :
  ring_buffer.well_formed rb ->
  0 <= count < SIZE_MOD -> count <= Z.of_nat (length data) ->
  exists rb' data',
    ring_buffer.read rb data count
    = Some (rb', data', Z.min count (ring_buffer.available rb)) /\
    ring_buffer.well_formed rb' /\
    ring_buffer.capacity_ rb' = ring_buffer.capacity_ rb /\
    ring_buffer.write_pos_ rb' = ring_buffer.write_pos_ rb /\
    ring_buffer.buffer_ rb' = ring_buffer.buffer_ rb /\
    length data' = length data /\
    ring_buffer.available rb'
    = ring_buffer.available rb - Z.min count (ring_buffer.available rb) /\
    take (Z.to_nat (Z.min count (ring_buffer.available rb))) data'
    = take (Z.to_nat (Z.min count (ring_buffer.available rb)))
        (ring_buffer.contents rb) /\
    drop (Z.to_nat (Z.min count (ring_buffer.available rb))) data'
    = drop (Z.to_nat (Z.min count (ring_buffer.available rb))) data /\
    ring_buffer.contents rb'
    = drop (Z.to_nat (Z.min count (ring_buffer.available rb)))
        (ring_buffer.contents rb).
Proof.
  intros Hwf Hcount Hdata.
  pose proof (size_of_well_formed rb Hwf) as [Hc Hb].
  pose proof (available_spec rb Hwf) as [Hav Ha].
  pose proof (contents_length rb Hwf) as Hcl.
  pose proof (fun j => contents_lookup rb j Hwf) as Hlk.
  unfold ring_buffer.read.
  change (if ring_buffer.write_pos_ rb >=? ring_buffer.read_pos_ rb
          then wrap (ring_buffer.write_pos_ rb - ring_buffer.read_pos_ rb)
          else wrap (ring_buffer.capacity_ rb
                     - wrap (ring_buffer.read_pos_ rb - ring_buffer.write_pos_ rb)))
    with (ring_buffer.available rb).
  set (n := Z.min count (ring_buffer.available rb)) in *.
  destruct (Z.eqb_spec n 0) as [Hn0 | Hn0].
  { exists rb, data. rewrite Hn0. simpl. rewrite Z.sub_0_r, !drop_0. done. }
  assert (Hn : 0 < n <= ring_buffer.available rb) by lia.
  destruct rb as [buf cap wp rp]. simpl in *.
  destruct Hwf as (_ & _ & Hl & Hw & Hr). simpl in *.
  rewrite (wrap_small (cap - rp)) by (unfold SIZE_MOD; lia).
  set (first := Z.min n (cap - rp)).
  destruct (memcpy_spec data 0 buf rp first) as (data1 & -> & Hl1 & Hv1);
    try (unfold sizeof_float, SIZE_MOD; lia). simpl.
  assert (Hdata2 : exists data2,
    (if first <? n
     then memcpy data1 first buf 0 (wrap (wrap (n - first) * sizeof_float))
     else Some data1) = Some data2 /\
    length data2 = length data /\
    forall p, rd data2 p
      = if (first <=? p) && (p <? n) then rd buf (p - first)
        else if (0 <=? p) && (p <? first) then rd buf (rp + p)
             else rd data p).
  { destruct (Z.ltb_spec first n).
    - rewrite (wrap_small (n - first)) by (unfold SIZE_MOD; lia).
      destruct (memcpy_spec data1 first buf 0 (n - first)) as (data2 & -> & Hl2 & Hv2);
        try (unfold sizeof_float, SIZE_MOD; lia).
      exists data2. split; [done |]. split; [lia |].
      intros p. rewrite Hv2, Hv1. case_bounds.
    - exists data1. split; [done |]. split; [done |].
      intros p. rewrite Hv1. case_bounds. }
  destruct Hdata2 as (data2 & -> & Hl2 & Hv2). simpl.
  unfold ring_buffer.size_rem. destruct (Z.eqb_spec cap 0); [lia |]. simpl.
  rewrite (wrap_small (rp + n)) by (unfold SIZE_MOD; lia).
  rewrite rem_once by lia.
  set (rp' := if rp + n <? cap then rp + n else rp + n - cap).
  assert (Hrp' : 0 <= rp' < cap) by (unfold rp'; case_bounds).
  set (rb' := ring_buffer.mk_RingBuffer buf cap wp rp').
  assert (Hwf' : ring_buffer.well_formed rb').
  { unfold ring_buffer.well_formed, sizeof_float, SIZE_MOD. simpl. lia. }
  pose proof (available_spec rb' Hwf') as [Hav' _]. simpl in Hav'.
  assert (Ha' : ring_buffer.available rb' = ring_buffer.available
                  (ring_buffer.mk_RingBuffer buf cap wp rp) - n).
  { rewrite Hav', Hav. rewrite Hav in Hn. unfold rp'. case_bounds. }
  exists rb', data2. split; [done |]. split; [exact Hwf' |].
  do 3 (split; [done |]). split; [done |]. split; [exact Ha' |].
  split; [| split].
  - apply list_eq. intros i.
    destruct (decide (i < Z.to_nat n)%nat) as [Hi | Hi].
    + rewrite !lookup_take_lt by done.
      replace i with (Z.to_nat (Z.of_nat i)) by lia.
      rewrite Hlk by lia. rewrite <- rd_lookup by lia. rewrite Hv2. simpl.
      unfold first in *. rewrite Hav in *. case_bounds.
    + rewrite !lookup_take_ge by lia. done.
  - apply list_eq. intros i. rewrite !lookup_drop.
    replace (Z.to_nat n + i)%nat with (Z.to_nat (n + Z.of_nat i)) by lia.
    rewrite <- !rd_lookup by lia. rewrite Hv2. unfold first. case_bounds.
  - apply contents_ext; [done | |].
    + rewrite length_drop, Hcl, Ha'. lia.
    + intros j Hj. rewrite lookup_drop.
      replace (Z.to_nat n + Z.to_nat j)%nat with (Z.to_nat (n + j)) by lia.
      rewrite Ha' in Hj. rewrite Hlk by lia. simpl.
      unfold rp'. rewrite Hav in *. case_bounds.
Qed.

Lemma clear_spec rb :
  ring_buffer.well_formed rb ->
  ring_buffer.well_formed (ring_buffer.clear rb) /\
  ring_buffer.capacity_ (ring_buffer.clear rb) = ring_buffer.capacity_ rb /\
  ring_buffer.available (ring_buffer.clear rb) = 0 /\
  ring_buffer.contents (ring_buffer.clear rb) = [].
Proof.
  intros Hwf.
  assert (Hwf' : ring_buffer.well_formed (ring_buffer.clear rb)).
  { destruct Hwf as (? & ? & ? & ? & ?). unfold ring_buffer.well_formed. simpl. done. }
  pose proof (available_spec _ Hwf') as [Hav _]. simpl in Hav.
  rewrite Z.leb_refl, Z.sub_diag in Hav.
  split; [done |]. split; [done |]. split; [done |].
  unfold ring_buffer.contents. rewrite Hav. done.
Qed.

Lemma create_spec (n : Z) :
  0 <= n -> (n + 1) * sizeof_float < SIZE_MOD ->
  exists rb,
    ring_buffer.create n = Some rb /\ ring_buffer.well_formed rb /\
    ring_buffer.capacity_ rb = n + 1 /\
    Z.of_nat (length (ring_buffer.buffer_ rb)) = n + 1 /\
    ring_buffer.write_pos_ rb = 0 /\ ring_buffer.read_pos_ rb = 0 /\
    ring_buffer.contents rb = [].
Proof.
  intros Hn Hbytes. unfold ring_buffer.create.
  rewrite (wrap_small (n + 1)) by (unfold sizeof_float, SIZE_MOD in *; lia).
  rewrite wrap_small by (unfold sizeof_float, SIZE_MOD in *; lia).
  rewrite Z.eqb_refl. eexists. split; [reflexivity |].
  unfold ring_buffer.well_formed, ring_buffer.contents, ring_buffer.available.
  simpl. rewrite length_replicate.
  repeat split; try lia; try done.
Qed.

Lemma step_spec rb (o : ring_buffer.op) :
  ring_buffer.well_formed rb -> ring_buffer.op_ok o ->
  exists rb' ev,
    ring_buffer.step rb o = Some (rb', ev) /\
    ring_buffer.well_formed rb' /\
    ring_buffer.capacity_ rb' = ring_buffer.capacity_ rb /\
    length (ring_buffer.buffer_ rb') = length (ring_buffer.buffer_ rb) /\
    (ring_buffer.is_rw o = true ->
     ring_buffer.contents rb ++ ring_buffer.written [ev]
     = ring_buffer.read_out [ev] ++ ring_buffer.contents rb').
Proof.
  intros Hwf Hok. destruct o as [data count | data count |]; simpl in *.
  - destruct Hok as [Hc Hd].
    destruct (write_spec rb data count) as (rb' & -> & Hwf' & Hcap & _ & _ & Hcont);
      try done.
    simpl. eexists _, _. split; [reflexivity |]. split; [done |]. split; [done |].
    split.
    + destruct Hwf as (_ & _ & Hl & _). destruct Hwf' as (_ & _ & Hl' & _). lia.
    + intros _. simpl. by rewrite app_nil_r, Hcont.
  - destruct Hok as [Hc Hd].
    destruct (read_spec rb data count)
      as (rb' & data' & -> & Hwf' & Hcap & _ & Hbuf & _ & _ & Htake & _ & Hcont);
      try done.
    simpl. eexists _, _. split; [reflexivity |]. split; [done |]. split; [done |].
    split; [by rewrite Hbuf |].
    intros _. simpl. by rewrite !app_nil_r, Htake, Hcont, take_drop.
  - destruct (clear_spec rb Hwf) as (Hwf' & Hcap & _).
    eexists _, _. split; [reflexivity |]. split; [done |]. split; [done |].
    split; [done |]. intros Hrw. discriminate Hrw.
Qed.

Lemma written_cons (ev : ring_buffer.event (F:=F)) evs :
  ring_buffer.written (ev :: evs)
  = ring_buffer.written [ev] ++ ring_buffer.written evs.
Proof. destruct ev; simpl; by rewrite ?app_nil_r. Qed.

Lemma read_out_cons (ev : ring_buffer.event (F:=F)) evs :
  ring_buffer.read_out (ev :: evs)
  = ring_buffer.read_out [ev] ++ ring_buffer.read_out evs.
Proof. destruct ev; simpl; by rewrite ?app_nil_r. Qed.

(** Every history of calls within their contract runs to the end, keeps the
    class invariant, and, without [clear], conserves the samples: what was
    unread plus what was written is what was read plus what is unread. *)
Lemma run_spec rb (ops : list ring_buffer.op) :
  ring_buffer.well_formed rb -> Forall ring_buffer.op_ok ops ->
  exists rb' evs,
    ring_buffer.run rb ops = Some (rb', evs) /\
    ring_buffer.well_formed rb' /\
    ring_buffer.capacity_ rb' = ring_buffer.capacity_ rb /\
    length (ring_buffer.buffer_ rb') = length (ring_buffer.buffer_ rb) /\
    (forallb ring_buffer.is_rw ops = true ->
     ring_buffer.contents rb ++ ring_buffer.written evs
     = ring_buffer.read_out evs ++ ring_buffer.contents rb').
Proof.
  intros Hwf Hok. revert rb Hwf.
  induction Hok as [| o ops Ho Hops IH]; intros rb Hwf.
  - exists rb, []. simpl. by rewrite app_nil_r.
  - destruct (step_spec rb o Hwf Ho) as (rb1 & ev & Hstep & Hwf1 & Hcap1 & Hl1 & Hc1).
    destruct (IH rb1 Hwf1) as (rb' & evs & Hrun & Hwf' & Hcap' & Hl' & Hc').
    exists rb', (ev :: evs).
    split; [simpl; rewrite Hstep; simpl; by rewrite Hrun |].
    split; [done |]. split; [congruence |]. split; [congruence |].
    intros Hrw. apply andb_prop in Hrw as [Hrw1 Hrw2].
    rewrite written_cons, read_out_cons, app_assoc, Hc1 by done.
    rewrite <- !app_assoc. f_equal. by apply Hc'.
Qed.

(** Claim C2: on a well-formed buffer every history of writes and reads
    within their contract runs to the end; the samples read are, in order, a
    prefix of the unread samples followed by the samples the writes copied
    in (of the written samples alone when the buffer started empty); and in
    the state reached, write copies exactly min(count, remaining()) samples
    behind the unread ones, read hands out exactly the
    min(count, available()) oldest ones and leaves the rest of the caller's
    array alone, whether or not the copy wraps. *)
Theorem C2_ring_buffer_fifo rb (ops : list ring_buffer.op) :
  ring_buffer.well_formed rb -> Forall ring_buffer.op_ok ops ->
  forallb ring_buffer.is_rw ops = true ->
  exists rb' evs,
    ring_buffer.run rb ops = Some (rb', evs) /\
    ring_buffer.contents rb ++ ring_buffer.written evs
    = ring_buffer.read_out evs ++ ring_buffer.contents rb' /\
    ring_buffer.read_out evs
      `prefix_of` ring_buffer.contents rb ++ ring_buffer.written evs /\
    (ring_buffer.contents rb = [] ->
     ring_buffer.read_out evs `prefix_of` ring_buffer.written evs) /\
    (forall data count,
       0 <= count < SIZE_MOD -> count <= Z.of_nat (length data) ->
       exists rb'',
         ring_buffer.write rb' data count
         = Some (rb'', Z.min count (ring_buffer.remaining rb')) /\
         ring_buffer.contents rb''
         = ring_buffer.contents rb'
           ++ take (Z.to_nat (Z.min count (ring_buffer.remaining rb'))) data) /\
    (forall data count,
       0 <= count < SIZE_MOD -> count <= Z.of_nat (length data) ->
       exists rb'' data',
         ring_buffer.read rb' data count
         = Some (rb'', data', Z.min count (ring_buffer.available rb')) /\
         take (Z.to_nat (Z.min count (ring_buffer.available rb'))) data'
         = take (Z.to_nat (Z.min count (ring_buffer.available rb')))
             (ring_buffer.contents rb') /\
         drop (Z.to_nat (Z.min count (ring_buffer.available rb'))) data'
         = drop (Z.to_nat (Z.min count (ring_buffer.available rb'))) data /\
         ring_buffer.contents rb''
         = drop (Z.to_nat (Z.min count (ring_buffer.available rb')))
             (ring_buffer.contents rb')).
Proof.
  intros Hwf Hok Hrw.
  destruct (run_spec rb ops Hwf Hok) as (rb' & evs & Hrun & Hwf' & _ & _ & Hcons).
  specialize (Hcons Hrw).
  exists rb', evs. split; [done |]. split; [done |].
  split; [rewrite Hcons; by eexists |].
  split; [intros Hempty; rewrite Hempty in Hcons; simpl in Hcons;
          rewrite Hcons; by eexists |].
  split.
  - intros data count Hc Hd.
    destruct (write_spec rb' data count) as (rb'' & Hw & _ & _ & _ & _ & Hcont);
      try done.
    by exists rb''.
  - intros data count Hc Hd.
    destruct (read_spec rb' data count)
      as (rb'' & data' & Hr & _ & _ & _ & _ & _ & _ & Htake & Hdrop & Hcont);
      try done.
    by exists rb'', data'.
Qed.

(** Claim C3: for a requested capacity n whose n + 1 floats are
    addressable, the constructor makes an array of n + 1 slots, and in every
    state reached by writes, reads and clears within their contract
    available() + remaining() = capacity_ - 1 = n; the cursors are equal
    exactly when nothing is unread. *)
Theorem C3_ring_buffer_capacity_law (n : Z) (ops : list ring_buffer.op) :
  0 <= n -> (n + 1) * sizeof_float < SIZE_MOD ->
  Forall ring_buffer.op_ok ops ->
  exists rb0 rb' evs,
    ring_buffer.create n = Some rb0 /\
    Z.of_nat (length (ring_buffer.buffer_ rb0)) = n + 1 /\
    ring_buffer.run rb0 ops = Some (rb', evs) /\
    Z.of_nat (length (ring_buffer.buffer_ rb')) = n + 1 /\
    ring_buffer.capacity_ rb' = n + 1 /\
    ring_buffer.available rb' + ring_buffer.remaining rb'
    = ring_buffer.capacity_ rb' - 1 /\
    ring_buffer.capacity_ rb' - 1 = n /\
    0 <= ring_buffer.available rb' <= n /\
    0 <= ring_buffer.remaining rb' <= n /\
    (ring_buffer.write_pos_ rb' = ring_buffer.read_pos_ rb'
     <-> ring_buffer.available rb' = 0).
Proof.
  intros Hn Hbytes Hok.
  destruct (create_spec n Hn Hbytes) as (rb0 & Hnew & Hwf0 & Hcap0 & Hlen0 & _).
  destruct (run_spec rb0 ops Hwf0 Hok) as (rb' & evs & Hrun & Hwf' & Hcap' & Hl' & _).
  pose proof (available_spec rb' Hwf') as [Hav Ha].
  pose proof (remaining_spec rb' Hwf') as Hrem.
  exists rb0, rb', evs. split; [done |]. split; [done |]. split; [done |].
  split; [lia |]. split; [lia |]. split; [lia |]. split; [lia |].
  split; [lia |]. split; [lia |].
  destruct Hwf' as (_ & _ & _ & Hw & Hr). rewrite Hav.
  destruct (Z.leb_spec (ring_buffer.read_pos_ rb') (ring_buffer.write_pos_ rb')); lia.
Qed.
End RingBufferFacts.

(** Scenario C of the specification, in binary32. *)
Example ring_buffer_scenario_C :
  (rb ← ring_buffer.create (F:=spec_float) 4;
   r ← ring_buffer.run rb scenario_C_ops;
   Some (snd r))
  = Some [ring_buffer.EvWrite (map binary32.of_int [1; 2; 3; 4]) 4;
          ring_buffer.EvWrite [binary32.of_int 9] 0;
          ring_buffer.EvRead (map binary32.of_int [1; 2]) 2;
          ring_buffer.EvWrite (map binary32.of_int [5; 6]) 2;
          ring_buffer.EvRead (map binary32.of_int [3; 4; 5; 6]) 4].
Proof. vm_compute. reflexivity. Qed.

Lemma C2_ring_buffer_fifo_witness :
  exists rb' evs,
    ring_buffer.run
      (ring_buffer.mk_RingBuffer (replicate 5 (binary32.of_int 0)) 5 0 0)
      scenario_C_ops = Some (rb', evs) /\
    ring_buffer.read_out evs `prefix_of` ring_buffer.written evs.
Proof.
  destruct (C2_ring_buffer_fifo
              (ring_buffer.mk_RingBuffer (replicate 5 (binary32.of_int 0)) 5 0 0)
              scenario_C_ops)
    as (rb' & evs & Hrun & _ & _ & Hprefix & _).
  - unfold ring_buffer.well_formed, sizeof_float, SIZE_MOD. simpl. lia.
  - unfold scenario_C_ops.
    repeat (constructor; [simpl; unfold SIZE_MOD; lia |]). constructor.
  - reflexivity.
  - exists rb', evs. split; [exact Hrun |]. apply Hprefix. reflexivity.
Defined.

Lemma C3_ring_buffer_capacity_law_witness :
  exists rb0 rb' evs,
    ring_buffer.create (F:=spec_float) 4 = Some rb0 /\
    ring_buffer.run rb0 (scenario_C_ops ++ [ring_buffer.OpClear]) = Some (rb', evs) /\
    ring_buffer.available rb' + ring_buffer.remaining rb' = 4.
Proof.
  destruct (C3_ring_buffer_capacity_law (F:=spec_float) 4
              (scenario_C_ops ++ [ring_buffer.OpClear]))
    as (rb0 & rb' & evs & Hnew & _ & Hrun & _ & _ & Hsum & Hcap & _).
  - lia.
  - unfold sizeof_float, SIZE_MOD. lia.
  - unfold scenario_C_ops. simpl.
    repeat (constructor; [simpl; unfold SIZE_MOD; lia |]). constructor.
  - exists rb0, rb', evs. split; [exact Hnew |]. split; [exact Hrun |]. lia.
Defined.

(** Outside the sizes the properties above ask for, the source goes on
    unchecked: a requested capacity of SIZE_MAX wraps to a buffer of no
    slots, on which a write of one sample leaves the array; and a latency
    encoder of zero steps returns time step -1. *)
Example ring_buffer_create_wraps :
  ring_buffer.create (F:=spec_float) (2 ^ 64 - 1)
  = Some (ring_buffer.mk_RingBuffer [] 0 0 0) /\
  ring_buffer.write (ring_buffer.mk_RingBuffer [] 0 0 0) [binary32.of_int 1] 1
  = None.
Proof. split; vm_compute; reflexivity. Qed.

Example latency_encoder_zero_steps :
  enc.LatencyEncoder_encode (F:=spec_float) 0 (binary32.of_int 0) = Some (-1).
Proof. vm_compute. reflexivity. Qed.

(** * Further properties of the code *)

(* decide the comparisons of a goal and of its hypotheses, then close it by
   linear arithmetic *)
Ltac by_bounds :=
  repeat match goal with
    | |- context [Z.leb ?a ?b] => destruct (Z.leb_spec a b)
    | |- context [Z.ltb ?a ?b] => destruct (Z.ltb_spec a b)
    | _ : context [Z.leb ?a ?b] |- _ => destruct (Z.leb_spec a b)
    | _ : context [Z.ltb ?a ?b] |- _ => destruct (Z.ltb_spec a b)
    end;
  simpl in *; try lia; try done; try (f_equal; lia).

(** ** Sample ring buffer: edge behaviour and round trip *)

Section RingBufferEdges.
Context {F : Type} `{FloatOps F}.
Implicit Types (rb : @ring_buffer.RingBuffer F) (data : list F).

Lemma full_iff rb :
  ring_buffer.well_formed rb ->
  ring_buffer.full rb = true
  <-> ring_buffer.available rb = ring_buffer.capacity_ rb - 1.
Proof.
  intros Hwf. unfold ring_buffer.full. rewrite remaining_spec by done.
  rewrite Z.eqb_eq. lia.
Qed.

Lemma empty_iff rb :
  ring_buffer.well_formed rb ->
  ring_buffer.empty rb = true
  <-> ring_buffer.write_pos_ rb = ring_buffer.read_pos_ rb.
Proof.
  intros Hwf. pose proof (available_spec rb Hwf) as [Hav _].
  destruct Hwf as (_ & _ & _ & Hw & Hr).
  unfold ring_buffer.empty. rewrite Z.eqb_eq, Hav.
  destruct (Z.leb_spec (ring_buffer.read_pos_ rb) (ring_buffer.write_pos_ rb)); lia.
Qed.

Lemma write_on_full rb data count :
  ring_buffer.well_formed rb -> 0 <= count -> ring_buffer.full rb = true ->
  ring_buffer.write rb data count = Some (rb, 0).
Proof.
  intros Hwf Hcount Hfull. unfold ring_buffer.full in Hfull.
  apply Z.eqb_eq in Hfull.
  unfold ring_buffer.write. rewrite write_space_is_remaining, Hfull by done.
  by replace (Z.min count 0) with 0 by lia.
Qed.

Lemma read_on_empty rb data count :
  0 <= count -> ring_buffer.empty rb = true ->
  ring_buffer.read rb data count = Some (rb, data, 0).
Proof.
  intros Hcount Hempty. unfold ring_buffer.empty in Hempty.
  apply Z.eqb_eq in Hempty. unfold ring_buffer.read.
  change (if ring_buffer.write_pos_ rb >=? ring_buffer.read_pos_ rb
          then wrap (ring_buffer.write_pos_ rb - ring_buffer.read_pos_ rb)
          else wrap (ring_buffer.capacity_ rb
                     - wrap (ring_buffer.read_pos_ rb - ring_buffer.write_pos_ rb)))
    with (ring_buffer.available rb).
  rewrite Hempty. by replace (Z.min count 0) with 0 by lia.
Qed.

(** A write to a full buffer and a read from an empty one return 0 and
    change nothing: neither the buffer nor the caller's array, which is not
    even looked at, whatever its size. *)
Theorem ring_buffer_full_and_empty_are_no_ops rb data count :
  ring_buffer.well_formed rb -> 0 <= count ->
  (ring_buffer.full rb = true -> ring_buffer.write rb data count = Some (rb, 0)) /\
  (ring_buffer.empty rb = true ->
   ring_buffer.read rb data count = Some (rb, data, 0)) /\
  (ring_buffer.full rb = true
   <-> ring_buffer.available rb = ring_buffer.capacity_ rb - 1) /\
  (ring_buffer.empty rb = true
   <-> ring_buffer.write_pos_ rb = ring_buffer.read_pos_ rb) /\
  (ring_buffer.empty rb = true <-> ring_buffer.contents rb = []).
Proof.
  intros Hwf Hcount. split; [| split; [| split; [| split]]].
  - by apply write_on_full.
  - by apply read_on_empty.
  - by apply full_iff.
  - by apply empty_iff.
  - pose proof (contents_length rb Hwf) as Hl.
    pose proof (available_spec rb Hwf) as [_ Ha].
    unfold ring_buffer.empty. rewrite Z.eqb_eq. split.
    + intros H0. rewrite H0 in Hl. by apply nil_length_inv.
    + intros Hnil. rewrite Hnil in Hl. simpl in Hl. lia.
Qed.

(** [clear] discards every unread sample by moving the read cursor only:
    the array is not erased, all n slots are free again, and the next read
    returns 0. *)
Theorem ring_buffer_clear_discards_unread rb data count :
  ring_buffer.well_formed rb -> 0 <= count ->
  ring_buffer.well_formed (ring_buffer.clear rb) /\
  ring_buffer.buffer_ (ring_buffer.clear rb) = ring_buffer.buffer_ rb /\
  ring_buffer.write_pos_ (ring_buffer.clear rb) = ring_buffer.write_pos_ rb /\
  ring_buffer.available (ring_buffer.clear rb) = 0 /\
  ring_buffer.remaining (ring_buffer.clear rb) = ring_buffer.capacity_ rb - 1 /\
  ring_buffer.contents (ring_buffer.clear rb) = [] /\
  ring_buffer.read (ring_buffer.clear rb) data count
  = Some (ring_buffer.clear rb, data, 0).
Proof.
  intros Hwf Hcount.
  destruct (clear_spec rb Hwf) as (Hwf' & Hcap & Hav & Hcont).
  split; [done |]. split; [done |]. split; [done |]. split; [done |].
  split; [rewrite remaining_spec, Hav, Hcap by done; lia |]. split; [done |].
  apply read_on_empty; [done |].
  unfold ring_buffer.empty. by rewrite Hav.
Qed.

(** Round trip: what is written to a buffer with room for it comes back, after
    the samples that were already waiting, from one read of everything, and
    the buffer is empty afterwards. *)
Theorem ring_buffer_write_then_read_all rb data (dest : list F) :
  ring_buffer.well_formed rb ->
  Z.of_nat (length data) <= ring_buffer.remaining rb ->
  ring_buffer.available rb + Z.of_nat (length data) <= Z.of_nat (length dest) ->
  exists rb1 rb2 dest',
    ring_buffer.write rb data (Z.of_nat (length data))
    = Some (rb1, Z.of_nat (length data)) /\
    ring_buffer.read rb1 dest (ring_buffer.available rb + Z.of_nat (length data))
    = Some (rb2, dest', ring_buffer.available rb + Z.of_nat (length data)) /\
    take (length (ring_buffer.contents rb) + length data) dest'
    = ring_buffer.contents rb ++ data /\
    ring_buffer.contents rb2 = [] /\ ring_buffer.empty rb2 = true.
Proof.
  intros Hwf Hroom Hdest.
  pose proof (size_of_well_formed rb Hwf) as [Hc Hb].
  pose proof (available_spec rb Hwf) as [_ Ha].
  pose proof (remaining_spec rb Hwf) as Hrem.
  pose proof (contents_length rb Hwf) as Hcl.
  set (n := Z.of_nat (length data)) in *.
  destruct (write_spec rb data n) as (rb1 & Hw & Hwf1 & _ & _ & Hav1 & Hc1);
    [done | unfold SIZE_MOD; lia | lia |].
  replace (Z.min n (ring_buffer.remaining rb)) with n in * by lia.
  destruct (read_spec rb1 dest (ring_buffer.available rb + n))
    as (rb2 & dest' & Hr & Hwf2 & _ & _ & _ & _ & Hav2 & Htake & _ & Hc2);
    [done | unfold SIZE_MOD; lia | lia |].
  rewrite Hav1 in *.
  replace (Z.min (ring_buffer.available rb + n) (ring_buffer.available rb + n))
    with (ring_buffer.available rb + n) in * by lia.
  assert (Hlen1 : length (ring_buffer.contents rb1)
                  = Z.to_nat (ring_buffer.available rb + n)).
  { rewrite contents_length, Hav1 by done. done. }
  exists rb1, rb2, dest'. split; [done |]. split; [done |].
  replace (length (ring_buffer.contents rb) + length data)%nat
    with (Z.to_nat (ring_buffer.available rb + n)) by lia.
  split.
  - rewrite Htake, <- Hlen1, firstn_all, Hc1.
    unfold n. by rewrite Nat2Z.id, firstn_all.
  - assert (Hnil : ring_buffer.contents rb2 = []).
    { rewrite Hc2, <- Hlen1. apply drop_all. }
    split; [done |].
    unfold ring_buffer.empty. apply Z.eqb_eq. lia.
Qed.

End RingBufferEdges.

(** ** Spike ring buffer (utils/ring_buffer.h) *)

Section SpikeRingFacts.
Context {T : Type}.
Implicit Types (rb : @spike_ring.RingBuffer T) (item : T).

Lemma spike_ring_size_spec rb :
  spike_ring.well_formed rb ->
  spike_ring.size rb
  = (if spike_ring.read_idx_ rb <=? spike_ring.write_idx_ rb
     then spike_ring.write_idx_ rb - spike_ring.read_idx_ rb
     else spike_ring.capacity_ rb - spike_ring.read_idx_ rb
          + spike_ring.write_idx_ rb) /\
  0 <= spike_ring.size rb <= spike_ring.capacity_ rb - 1.
Proof.
  intros (Hc & _ & Hw & Hr). unfold spike_ring.size. rewrite Z.geb_leb.
  destruct (Z.leb_spec (spike_ring.read_idx_ rb) (spike_ring.write_idx_ rb)).
  - rewrite wrap_small by lia. lia.
  - rewrite (wrap_small (spike_ring.capacity_ rb - spike_ring.read_idx_ rb)) by lia.
    rewrite wrap_small by lia. lia.
Qed.

Lemma spike_ring_next rb (i : Z) :
  spike_ring.well_formed rb -> 0 <= i < spike_ring.capacity_ rb ->
  ring_buffer.size_rem (wrap (i + 1)) (spike_ring.capacity_ rb)
  = Some (if i + 1 <? spike_ring.capacity_ rb then i + 1 else 0).
Proof.
  intros (Hc & _) Hi. unfold ring_buffer.size_rem.
  destruct (Z.eqb_spec (spike_ring.capacity_ rb) 0); [lia |].
  rewrite wrap_small, rem_once by lia. f_equal. by_bounds.
Qed.

Lemma spike_ring_items_length rb :
  spike_ring.well_formed rb ->
  length (spike_ring.items rb) = Z.to_nat (spike_ring.size rb).
Proof.
  intros Hwf. pose proof (spike_ring_size_spec rb Hwf) as [_ Hs].
  destruct Hwf as (_ & Hl & _ & Hr).
  unfold spike_ring.items. rewrite length_take, length_drop, length_app. lia.
Qed.

Lemma spike_ring_items_lookup rb j :
  spike_ring.well_formed rb -> 0 <= j < spike_ring.size rb ->
  spike_ring.items rb !! Z.to_nat j
  = rd (spike_ring.buffer_ rb)
       (if spike_ring.read_idx_ rb + j <? spike_ring.capacity_ rb
        then spike_ring.read_idx_ rb + j
        else spike_ring.read_idx_ rb + j - spike_ring.capacity_ rb).
Proof.
  intros Hwf Hj. pose proof (spike_ring_size_spec rb Hwf) as [_ Hs].
  destruct Hwf as (_ & Hl & _ & Hr).
  unfold spike_ring.items.
  rewrite lookup_take_lt, lookup_drop by lia.
  destruct (Z.ltb_spec (spike_ring.read_idx_ rb + j) (spike_ring.capacity_ rb)).
  - rewrite lookup_app_l, rd_lookup by lia. f_equal. lia.
  - rewrite lookup_app_r, rd_lookup by lia. f_equal. lia.
Qed.

Lemma spike_ring_items_ext rb (l : list T) :
  spike_ring.well_formed rb ->
  length l = Z.to_nat (spike_ring.size rb) ->
  (forall j, 0 <= j < spike_ring.size rb ->
     l !! Z.to_nat j
     = rd (spike_ring.buffer_ rb)
          (if spike_ring.read_idx_ rb + j <? spike_ring.capacity_ rb
           then spike_ring.read_idx_ rb + j
           else spike_ring.read_idx_ rb + j - spike_ring.capacity_ rb)) ->
  spike_ring.items rb = l.
Proof.
  intros Hwf Hlen Hlk. apply list_eq. intros i.
  destruct (decide (i < Z.to_nat (spike_ring.size rb))%nat) as [Hi | Hi].
  - replace i with (Z.to_nat (Z.of_nat i)) by lia.
    rewrite spike_ring_items_lookup, Hlk by (done || lia). done.
  - rewrite !lookup_ge_None_2; [done | lia |].
    rewrite spike_ring_items_length by done. lia.
Qed.

Lemma spike_ring_push_spec rb item :
  spike_ring.well_formed rb ->
  (spike_ring.size rb = spike_ring.capacity_ rb - 1 /\
   spike_ring.push rb item = Some (rb, false)) \/
  (spike_ring.size rb < spike_ring.capacity_ rb - 1 /\
   exists rb',
     spike_ring.push rb item = Some (rb', true) /\
     spike_ring.well_formed rb' /\
     spike_ring.capacity_ rb' = spike_ring.capacity_ rb /\
     spike_ring.size rb' = spike_ring.size rb + 1 /\
     spike_ring.items rb' = spike_ring.items rb ++ [item]).
Proof.
  intros Hwf. pose proof (spike_ring_size_spec rb Hwf) as [Hsz Hs].
  pose proof (spike_ring_items_length rb Hwf) as Hil.
  pose proof (fun j => spike_ring_items_lookup rb j Hwf) as Hlk.
  pose proof Hwf as (Hc & Hl & Hw & Hr).
  unfold spike_ring.push. rewrite (spike_ring_next rb _ Hwf Hw). simpl.
  set (w' := if spike_ring.write_idx_ rb + 1 <? spike_ring.capacity_ rb
             then spike_ring.write_idx_ rb + 1 else 0).
  assert (Hw' : 0 <= w' < spike_ring.capacity_ rb) by (unfold w'; by_bounds).
  destruct (Z.eqb_spec w' (spike_ring.read_idx_ rb)) as [Heq | Hne].
  - left. split; [| done]. rewrite Hsz. unfold w' in Heq. by_bounds.
  - right. split; [rewrite Hsz; unfold w' in Hne; by_bounds |].
    rewrite wr_in_range by lia. simpl.
    set (rb' := spike_ring.mk_RingBuffer _ _ _ _).
    assert (Hwf' : spike_ring.well_formed rb').
    { unfold spike_ring.well_formed. simpl. rewrite length_insert. lia. }
    pose proof (spike_ring_size_spec rb' Hwf') as [Hsz' _]. simpl in Hsz'.
    assert (Hs' : spike_ring.size rb' = spike_ring.size rb + 1).
    { rewrite Hsz', Hsz. unfold w' in *. by_bounds. }
    exists rb'. split; [done |]. split; [done |]. split; [done |].
    split; [done |].
    apply spike_ring_items_ext; [done | |].
    + rewrite length_app, Hil, Hs'. simpl. lia.
    + intros j Hj. simpl. rewrite Hs' in Hj.
      destruct (Z.eq_dec j (spike_ring.size rb)) as [-> | Hjne].
      * rewrite lookup_app_r by lia. rewrite Hil, Nat.sub_diag. simpl.
        symmetry. rewrite Hsz.
        destruct (Z.leb_spec (spike_ring.read_idx_ rb) (spike_ring.write_idx_ rb));
          [| destruct (Z.ltb_spec (spike_ring.read_idx_ rb
                 + (spike_ring.capacity_ rb - spike_ring.read_idx_ rb
                    + spike_ring.write_idx_ rb)) (spike_ring.capacity_ rb)); [lia |]].
        -- destruct (Z.ltb_spec (spike_ring.read_idx_ rb
                 + (spike_ring.write_idx_ rb - spike_ring.read_idx_ rb))
                 (spike_ring.capacity_ rb)); [| lia].
           replace (spike_ring.read_idx_ rb
                    + (spike_ring.write_idx_ rb - spike_ring.read_idx_ rb))
             with (spike_ring.write_idx_ rb) by lia.
           apply rd_insert_eq. lia.
        -- replace (spike_ring.read_idx_ rb
                    + (spike_ring.capacity_ rb - spike_ring.read_idx_ rb
                       + spike_ring.write_idx_ rb) - spike_ring.capacity_ rb)
             with (spike_ring.write_idx_ rb) by lia.
           apply rd_insert_eq. lia.
      * rewrite lookup_app_l by lia. rewrite Hlk by lia.
        rewrite rd_insert_ne; [done | lia |].
        rewrite Hsz in *. by_bounds.
Qed.

Lemma spike_ring_pop_spec rb item :
  spike_ring.well_formed rb ->
  (spike_ring.items rb = [] /\ spike_ring.size rb = 0 /\
   spike_ring.pop rb item = Some (rb, item, false)) \/
  (exists v rest rb',
     spike_ring.items rb = v :: rest /\
     spike_ring.pop rb item = Some (rb', v, true) /\
     spike_ring.well_formed rb' /\
     spike_ring.capacity_ rb' = spike_ring.capacity_ rb /\
     spike_ring.size rb' = spike_ring.size rb - 1 /\
     spike_ring.items rb' = rest).
Proof.
  intros Hwf. pose proof (spike_ring_size_spec rb Hwf) as [Hsz Hs].
  pose proof (spike_ring_items_length rb Hwf) as Hil.
  pose proof (fun j => spike_ring_items_lookup rb j Hwf) as Hlk.
  pose proof Hwf as (Hc & Hl & Hw & Hr).
  unfold spike_ring.pop.
  destruct (Z.eqb_spec (spike_ring.read_idx_ rb) (spike_ring.write_idx_ rb))
    as [Heq | Hne].
  - left. assert (H0 : spike_ring.size rb = 0) by (rewrite Hsz; by_bounds).
    split; [| done]. rewrite H0 in Hil. by apply nil_length_inv.
  - right. assert (Hpos : 0 < spike_ring.size rb) by (rewrite Hsz; by_bounds).
    destruct (rd_is_Some (spike_ring.buffer_ rb) (spike_ring.read_idx_ rb))
      as [v Hv]; [lia |].
    rewrite Hv. simpl. rewrite (spike_ring_next rb _ Hwf Hr). simpl.
    set (r' := if spike_ring.read_idx_ rb + 1 <? spike_ring.capacity_ rb
               then spike_ring.read_idx_ rb + 1 else 0).
    assert (Hr' : 0 <= r' < spike_ring.capacity_ rb) by (unfold r'; by_bounds).
    set (rb' := spike_ring.mk_RingBuffer _ _ _ _).
    assert (Hwf' : spike_ring.well_formed rb').
    { unfold spike_ring.well_formed. simpl. lia. }
    pose proof (spike_ring_size_spec rb' Hwf') as [Hsz' _]. simpl in Hsz'.
    assert (Hs' : spike_ring.size rb' = spike_ring.size rb - 1).
    { rewrite Hsz', Hsz. unfold r' in *. by_bounds. }
    destruct (spike_ring.items rb) as [| v0 rest] eqn:Hitems;
      [simpl in Hil; lia |].
    assert (v0 = v) as ->.
    { specialize (Hlk 0). rewrite Z.add_0_r in Hlk. simpl in Hlk.
      destruct (Z.ltb_spec (spike_ring.read_idx_ rb) (spike_ring.capacity_ rb));
        [| lia].
      rewrite Hv in Hlk. specialize (Hlk ltac:(lia)). by injection Hlk. }
    exists v, rest, rb'. split; [done |]. split; [done |]. split; [done |].
    split; [done |]. split; [done |].
    apply spike_ring_items_ext; [done | |].
    + rewrite Hs'. simpl in Hil. lia.
    + intros j Hj. simpl. rewrite Hs' in Hj.
      specialize (Hlk (j + 1) ltac:(lia)).
      replace (Z.to_nat (j + 1)) with (S (Z.to_nat j)) in Hlk by lia.
      simpl in Hlk. rewrite Hlk. unfold r'. rewrite Hsz in *. by_bounds.
Qed.

Lemma spike_ring_create_spec (init : T) (capacity : Z) :
  0 < capacity < SIZE_MOD ->
  spike_ring.well_formed (spike_ring.create init capacity) /\
  spike_ring.size (spike_ring.create init capacity) = 0 /\
  spike_ring.items (spike_ring.create init capacity) = [].
Proof.
  intros Hc.
  assert (Hwf : spike_ring.well_formed (spike_ring.create init capacity)).
  { unfold spike_ring.well_formed. simpl. rewrite length_replicate. lia. }
  pose proof (spike_ring_size_spec _ Hwf) as [Hsz _]. simpl in Hsz.
  pose proof (spike_ring_items_length _ Hwf) as Hil. rewrite Hsz in Hil.
  split; [done |]. split; [done |]. by apply nil_length_inv.
Qed.

Lemma spike_ring_push_all_spec rb (l : list T) :
  spike_ring.well_formed rb ->
  exists rb',
    spike_ring.push_all rb l
    = Some (rb',
            replicate (Nat.min (Z.to_nat (spike_ring.capacity_ rb - 1
                                          - spike_ring.size rb)) (length l)) true
            ++ replicate (length l - Z.to_nat (spike_ring.capacity_ rb - 1
                                               - spike_ring.size rb)) false) /\
    spike_ring.well_formed rb' /\
    spike_ring.capacity_ rb' = spike_ring.capacity_ rb /\
    spike_ring.items rb'
    = spike_ring.items rb
      ++ take (Z.to_nat (spike_ring.capacity_ rb - 1 - spike_ring.size rb)) l.
Proof.
  revert rb. induction l as [| x l IH]; intros rb Hwf.
  - exists rb. simpl. rewrite Nat.min_0_r, take_nil, !app_nil_r. done.
  - pose proof (spike_ring_size_spec rb Hwf) as [_ Hs].
    destruct (spike_ring_push_spec rb x Hwf)
      as [[Hfull Hpush] | (Hroom & rb1 & Hpush & Hwf1 & Hcap1 & Hs1 & Hi1)].
    + destruct (IH rb Hwf) as (rb' & Hrun & Hwf' & Hcap' & Hitems').
      exists rb'. simpl. rewrite Hpush. simpl. rewrite Hrun. simpl.
      replace (Z.to_nat (spike_ring.capacity_ rb - 1 - spike_ring.size rb))
        with O in * by lia.
      simpl in *. rewrite Nat.sub_0_r in *. done.
    + destruct (IH rb1 Hwf1) as (rb' & Hrun & Hwf' & Hcap' & Hitems').
      exists rb'. simpl. rewrite Hpush. simpl. rewrite Hrun. simpl.
      rewrite Hcap1, Hs1 in *.
      replace (Z.to_nat (spike_ring.capacity_ rb - 1 - spike_ring.size rb))
        with (S (Z.to_nat (spike_ring.capacity_ rb - 1
                           - (spike_ring.size rb + 1)))) by lia.
      simpl. split; [done |]. split; [done |]. split; [done |].
      by rewrite Hitems', Hi1, <- app_assoc.
Qed.

(** The spike ring buffer is a bounded queue: [push] appends the item behind
    the waiting ones unless capacity - 1 items are waiting, in which case it
    returns false and changes nothing; [pop] hands out the oldest item, or
    returns false and leaves the caller's item and the buffer alone when
    nothing is waiting. *)
Theorem spike_ring_is_a_bounded_queue rb item :
  spike_ring.well_formed rb ->
  ((spike_ring.size rb = spike_ring.capacity_ rb - 1 /\
    spike_ring.push rb item = Some (rb, false)) \/
   (spike_ring.size rb < spike_ring.capacity_ rb - 1 /\
    exists rb',
      spike_ring.push rb item = Some (rb', true) /\
      spike_ring.well_formed rb' /\
      spike_ring.size rb' = spike_ring.size rb + 1 /\
      spike_ring.items rb' = spike_ring.items rb ++ [item])) /\
  ((spike_ring.items rb = [] /\
    spike_ring.pop rb item = Some (rb, item, false)) \/
   (exists v rest rb',
      spike_ring.items rb = v :: rest /\
      spike_ring.pop rb item = Some (rb', v, true) /\
      spike_ring.well_formed rb' /\
      spike_ring.size rb' = spike_ring.size rb - 1 /\
      spike_ring.items rb' = rest)).
Proof.
  intros Hwf. split.
  - destruct (spike_ring_push_spec rb item Hwf)
      as [Hfull | (Hroom & rb' & Hp & Hwf' & _ & Hs & Hi)]; [by left | right].
    split; [done |]. by exists rb'.
  - destruct (spike_ring_pop_spec rb item Hwf)
      as [(Hnil & _ & Hp) | (v & rest & rb' & Hi & Hp & Hwf' & _ & Hs & Hi')];
      [by left | right].
    by exists v, rest, rb'.
Qed.

(** A spike ring buffer constructed with capacity c stores c - 1 items, not
    c: of the items a producer pushes into the new buffer, the first c - 1
    are accepted and every later push is refused. *)
Theorem spike_ring_stores_capacity_minus_one (init : T) (capacity : Z) (l : list T) :
  0 < capacity < SIZE_MOD ->
  exists rb',
    spike_ring.push_all (spike_ring.create init capacity) l
    = Some (rb',
            replicate (Nat.min (Z.to_nat (capacity - 1)) (length l)) true
            ++ replicate (length l - Z.to_nat (capacity - 1)) false) /\
    spike_ring.items rb' = take (Z.to_nat (capacity - 1)) l /\
    spike_ring.size rb' = Z.min (capacity - 1) (Z.of_nat (length l)).
Proof.
  intros Hc.
  destruct (spike_ring_create_spec init capacity Hc) as (Hwf & Hsz & Hitems).
  destruct (spike_ring_push_all_spec _ l Hwf) as (rb' & Hrun & Hwf' & Hcap & Hi).
  rewrite Hsz, Hitems in *. simpl in *. rewrite Z.sub_0_r in *.
  exists rb'. split; [done |]. split; [done |].
  pose proof (spike_ring_items_length rb' Hwf') as Hl.
  pose proof (spike_ring_size_spec rb' Hwf') as [_ Hs].
  rewrite Hi, length_take in Hl. lia.
Qed.

(** The observers agree with the contents: [empty] holds exactly when no
    item is waiting, [full] exactly when capacity - 1 are, [size] is their
    number, and [clear] leaves none. *)
Theorem spike_ring_observers_agree rb :
  spike_ring.well_formed rb ->
  Z.of_nat (length (spike_ring.items rb)) = spike_ring.size rb /\
  0 <= spike_ring.size rb <= spike_ring.capacity_ rb - 1 /\
  (spike_ring.empty rb = true <-> spike_ring.items rb = []) /\
  spike_ring.full rb
  = Some (spike_ring.size rb =? spike_ring.capacity_ rb - 1) /\
  spike_ring.well_formed (spike_ring.clear rb) /\
  spike_ring.items (spike_ring.clear rb) = [] /\
  spike_ring.empty (spike_ring.clear rb) = true.
Proof.
  intros Hwf. pose proof (spike_ring_size_spec rb Hwf) as [Hsz Hs].
  pose proof (spike_ring_items_length rb Hwf) as Hil.
  pose proof Hwf as (Hc & Hl & Hw & Hr).
  split; [lia |]. split; [done |]. split; [| split].
  - unfold spike_ring.empty. rewrite Z.eqb_eq. split.
    + intros Heq. apply nil_length_inv. rewrite Hil, Hsz. by_bounds.
    + intros Hnil. rewrite Hnil in Hil. simpl in Hil. rewrite Hsz in *. by_bounds.
  - unfold spike_ring.full. rewrite (spike_ring_next rb _ Hwf Hw). simpl.
    f_equal. rewrite Hsz.
    destruct (Z.eqb_spec
      (if spike_ring.write_idx_ rb + 1 <? spike_ring.capacity_ rb
       then spike_ring.write_idx_ rb + 1 else 0) (spike_ring.read_idx_ rb));
    symmetry; [apply Z.eqb_eq | apply Z.eqb_neq]; by_bounds.
  - assert (Hwf' : spike_ring.well_formed (spike_ring.clear rb)).
    { unfold spike_ring.well_formed. simpl. lia. }
    pose proof (spike_ring_size_spec _ Hwf') as [Hsz' _]. simpl in Hsz'.
    rewrite Z.leb_refl, Z.sub_diag in Hsz'.
    pose proof (spike_ring_items_length _ Hwf') as Hil'. rewrite Hsz' in Hil'.
    split; [done |]. split; [by apply nil_length_inv |].
    unfold spike_ring.empty. simpl. apply Z.eqb_refl.
Qed.

(** With capacity 0 the index arithmetic of [push] and [full] divides by
    zero, and with capacity 1 no push is ever accepted. *)
Example spike_ring_degenerate_capacities (init item : T) :
  spike_ring.push (spike_ring.create init 0) item = None /\
  spike_ring.full (spike_ring.create init 0) = None /\
  spike_ring.push (spike_ring.create init 1) item
  = Some (spike_ring.create init 1, false) /\
  spike_ring.full (spike_ring.create init 1) = Some true.
Proof. repeat split. Qed.
End SpikeRingFacts.

(** ** LIF layer: what forward, reset, load_weights and the constructor keep *)

Section LIFExtras.
Context {F : Type} `{FloatOps F}.
Implicit Types (L : LIFLayer F) (cfg : BuildConfig).

Lemma set_state_well_formed L (mp sc : list F) :
  lif.well_formed L ->
  length mp = length (membrane_potential_ L) ->
  length sc = length (synaptic_current_ L) ->
  lif.well_formed (lif.set_state L mp sc).
Proof.
  intros (Hi & Ho & Hw & Hb & Hmp & Hsc) Hl1 Hl2.
  unfold lif.well_formed. simpl. rewrite Hl1, Hl2. done.
Qed.

Lemma reset_set_state L (mp sc : list F) :
  length mp = length (membrane_potential_ L) ->
  length sc = length (synaptic_current_ L) ->
  lif.reset (lif.set_state L mp sc) = lif.reset L.
Proof. intros Hl1 Hl2. unfold lif.reset. simpl. by rewrite Hl1, Hl2. Qed.

(** [forward] changes the two state vectors only: sizes, parameters, decay
    factors, weights and bias are as before and the layer keeps its shape;
    and whatever the inputs were, a [reset] afterwards gives the state a
    [reset] before would have given. *)
Theorem forward_keeps_parameters_and_reset_erases cfg fuel L
    (input_spikes output_spikes : list F) (batch_size : Z) :
  lif.well_formed L ->
  (HAVE_SME2 cfg = true -> HAVE_NEON cfg = true) -> (3 <= fuel)%nat ->
  input_size_ L <= Z.of_nat (length input_spikes) ->
  output_size_ L <= Z.of_nat (length output_spikes) ->
  exists L' out',
    lif.forward cfg fuel L input_spikes output_spikes batch_size
    = Some (Some (L', out')) /\
    L' = lif.set_state L (membrane_potential_ L') (synaptic_current_ L') /\
    lif.well_formed L' /\
    lif.reset L' = lif.reset L.
Proof.
  intros Hwf Hcfg Hfuel Hin Hout.
  destruct (compute_synaptic_input_returns cfg fuel L input_spikes)
    as (si & Hsi & Hlen & _); try done.
  pose proof Hwf as (_ & Ho & _ & _ & Hmp & Hsc).
  destruct (update_neurons_spec L si output_spikes)
    as (L' & out' & Hup & HL' & Hl1 & Hl2 & _); try lia.
  exists L', out'. unfold lif.forward. rewrite Hsi, Hup.
  split; [done |]. split; [done |]. rewrite HL'. simpl.
  split; [by apply set_state_well_formed | by apply reset_set_state].
Qed.


Lemma memcpy_whole (dst src : list F) :
  Z.of_nat (length dst) * sizeof_float < SIZE_MOD ->
  memcpy dst 0 src 0 (wrap (Z.of_nat (length dst) * sizeof_float))
  = if Z.of_nat (length dst) <=? Z.of_nat (length src)
    then Some (take (length dst) src) else None.
Proof.
  intros Hb. unfold memcpy.
  rewrite wrap_small by (unfold sizeof_float in *; lia).
  replace (Z.of_nat (length dst) * sizeof_float / sizeof_float)
    with (Z.of_nat (length dst)) by (unfold sizeof_float; rewrite Z.div_mul; lia).
  simpl. rewrite !Z.add_0_l.
  destruct (Z.leb_spec 0 (Z.of_nat (length dst))); [| lia].
  destruct (Z.leb_spec (Z.of_nat (length dst)) (Z.of_nat (length dst))); [| lia].
  destruct (Z.leb_spec (Z.of_nat (length dst)) (Z.of_nat (length src))); simpl;
    [| done].
  rewrite Nat2Z.id, drop_0, drop_all, app_nil_r. done.
Qed.

(** [load_weights] replaces the weights and the bias by the leading
    input_size * output_size and output_size elements of the caller's
    arrays and leaves the neuron state alone; it reads outside an array
    that is shorter than that. *)
Theorem load_weights_spec L (weights bias : list F) :
  lif.well_formed L ->
  input_size_ L * output_size_ L * sizeof_float < SIZE_MOD ->
  output_size_ L * sizeof_float < SIZE_MOD ->
  (input_size_ L * output_size_ L <= Z.of_nat (length weights) ->
   output_size_ L <= Z.of_nat (length bias) ->
   exists L',
     load_weights L weights bias = Some L' /\
     weights_ L' = take (Z.to_nat (input_size_ L * output_size_ L)) weights /\
     bias_ L' = take (Z.to_nat (output_size_ L)) bias /\
     lif.set_state L' (membrane_potential_ L) (synaptic_current_ L) = L' /\
     input_size_ L' = input_size_ L /\ output_size_ L' = output_size_ L /\
     params_ L' = params_ L /\ beta_mem_ L' = beta_mem_ L /\
     beta_syn_ L' = beta_syn_ L /\
     lif.well_formed L') /\
  (Z.of_nat (length weights) < input_size_ L * output_size_ L \/
   Z.of_nat (length bias) < output_size_ L ->
   load_weights L weights bias = None).
Proof.
  intros (Hi & Ho & Hw & Hb & Hmp & Hsc) Hwb Hbb.
  unfold load_weights.
  rewrite !memcpy_whole by lia. rewrite Hw, Hb.
  split.
  - intros Hlw Hlb.
    destruct (Z.leb_spec (input_size_ L * output_size_ L) (Z.of_nat (length weights)));
      [| lia].
    destruct (Z.leb_spec (output_size_ L) (Z.of_nat (length bias))); [| lia].
    simpl. eexists. split; [reflexivity |]. simpl.
    replace (length (weights_ L)) with (Z.to_nat (input_size_ L * output_size_ L))
      by lia.
    replace (length (bias_ L)) with (Z.to_nat (output_size_ L)) by lia.
    repeat split; try done; try lia; simpl; rewrite length_take; lia.
  - intros [Hshort | Hshort].
    + destruct (Z.leb_spec (input_size_ L * output_size_ L)
                  (Z.of_nat (length weights))); [lia | done].
    + destruct (Z.leb_spec (input_size_ L * output_size_ L)
                  (Z.of_nat (length weights))); [| done]. simpl.
      destruct (Z.leb_spec (output_size_ L) (Z.of_nat (length bias))); [lia | done].
Qed.
End LIFExtras.

(** ** Dense kernels: selection and degenerate shapes *)

Section KernelExtras.
Context {F : Type} `{FloatOps F}.
Implicit Types (spikes weights bias output : list F) (cfg : BuildConfig).

(** Which loop runs is decided by the build alone: with HAVE_NEON each of the
    three entry points, [spike_dense_forward] included, returns what the NEON
    loop returns; with neither switch each returns what the scalar loop
    returns. *)
Theorem kernel_selection_by_build cfg fuel (k : kernel_fn)
    spikes weights bias output batch_size input_size output_size :
  (HAVE_SME2 cfg = true -> HAVE_NEON cfg = true) -> (3 <= fuel)%nat ->
  kernels.call cfg fuel k spikes weights bias output batch_size input_size output_size
  = Some (if HAVE_NEON cfg
          then kernels.neon_loop spikes weights bias output
                 batch_size input_size output_size
          else kernels.scalar_loop spikes weights bias output
                 batch_size input_size output_size).
Proof.
  intros Hcfg Hfuel. destruct (HAVE_NEON cfg) eqn:Hneon.
  - by apply call_neon_build.
  - destruct (HAVE_SME2 cfg) eqn:Hsme; [by discriminate Hcfg |].
    by apply call_scalar_build.
Qed.

Lemma for_loop_skip {St : Type} (body : Z -> St -> option St) n i (s : St) :
  (forall j t, body j t = Some t) -> for_loop n i body s = Some s.
Proof.
  intros Hid. revert i. induction n as [| n IH]; intros i; [done |].
  simpl. rewrite Hid. simpl. apply IH.
Qed.

Lemma for_range_skip {St : Type} (body : Z -> St -> option St) lo hi (s : St) :
  (forall j t, body j t = Some t) -> for_range lo hi body s = Some s.
Proof. intros Hid. unfold for_range. by apply for_loop_skip. Qed.

(** A batch or an output size that is zero or negative makes both loops
    return the output buffer as it was, without reading any of the arrays. *)
Theorem dense_loops_skip_empty_shapes
    spikes weights bias output batch_size input_size output_size :
  batch_size <= 0 \/ output_size <= 0 ->
  kernels.scalar_loop spikes weights bias output batch_size input_size output_size
  = Some output /\
  kernels.neon_loop spikes weights bias output batch_size input_size output_size
  = Some output.
Proof.
  intros [Hb | Ho].
  - unfold kernels.scalar_loop, kernels.neon_loop.
    by rewrite !for_range_empty by lia.
  - unfold kernels.scalar_loop, kernels.neon_loop.
    split; apply for_range_skip; intros b t; by rewrite for_range_empty by lia.
Qed.

(** With no input features the scalar loop returns the bias itself, and the
    NEON loop returns the bias plus the horizontal sum of its zeroed
    accumulator. *)
Theorem dense_loops_without_inputs
    spikes weights bias output batch_size input_size output_size :
  input_size <= 0 -> 0 <= batch_size -> 0 <= output_size ->
  output_size <= Z.of_nat (length bias) ->
  batch_size * output_size <= Z.of_nat (length output) ->
  exists out_scalar out_neon,
    kernels.scalar_loop spikes weights bias output batch_size input_size output_size
    = Some out_scalar /\
    kernels.neon_loop spikes weights bias output batch_size input_size output_size
    = Some out_neon /\
    forall b o, 0 <= b < batch_size -> 0 <= o < output_size ->
      rd out_scalar (b * output_size + o) = rd bias o /\
      rd out_neon (b * output_size + o)
      = (x ← rd bias o;
         Some (f_add x (f_add (f_add f_zero f_zero) (f_add f_zero f_zero)))).
Proof.
  intros Hi Hb Ho Hbias Hout.
  assert (Hs : forall b o, kernels.scalar_row spikes weights bias input_size b o
                           = rd bias o).
  { intros b o. unfold kernels.scalar_row.
    destruct (rd bias o); simpl; [| done]. by rewrite for_range_empty by lia. }
  assert (Hn : forall b o, kernels.neon_row spikes weights bias input_size b o
      = (x ← rd bias o;
         Some (f_add x (f_add (f_add f_zero f_zero) (f_add f_zero f_zero))))).
  { intros b o. unfold kernels.neon_row.
    destruct (rd bias o); simpl; [| done].
    replace (Z.to_nat input_size) with O by lia. simpl.
    destruct (Z.ltb_spec (0 + 3) input_size); [lia |]. simpl.
    by rewrite for_range_empty by lia. }
  rewrite scalar_loop_dense_loop, neon_loop_dense_loop.
  destruct (dense_loop_spec (kernels.scalar_row spikes weights bias input_size)
              output batch_size output_size) as (o1 & -> & _ & Hv1 & _);
    [done | done | done | |].
  { intros b o _ Ho'. rewrite Hs. apply rd_is_Some. lia. }
  destruct (dense_loop_spec (kernels.neon_row spikes weights bias input_size)
              output batch_size output_size) as (o2 & -> & _ & Hv2 & _);
    [done | done | done | |].
  { intros b o _ Ho'. rewrite Hn.
    destruct (rd_is_Some bias o) as [x ->]; [lia |]. simpl. eauto. }
  exists o1, o2. split; [done |]. split; [done |].
  intros b o Hbr Hor. by rewrite Hv1, Hv2, Hs, Hn.
Qed.
End KernelExtras.


(** ** Encoders: binary outputs and temporal contrast *)

Section RateExtras.
Context {F : Type} `{FloatOps F} `{StdLib F}.

Lemma RateEncoder_encode_binary (e : enc.RateEncoder) (x : F) :
  fst (enc.RateEncoder_encode e x) = f_one \/
  fst (enc.RateEncoder_encode e x) = f_zero.
Proof.
  unfold enc.RateEncoder_encode.
  destruct (uniform_real_draw _ _ _) as [u rng']. simpl.
  destruct (f_lt u _); auto.
Qed.

(** Whatever [std::exp] and the generator return, rate encoding writes
    nothing but 1.0f and 0.0f, fills exactly the first
    num_steps * batch_size * input_size elements and leaves the rest of the
    tensor as it was. *)
Theorem rate_encoding_writes_only_spikes (e : enc.SpikeEncoder)
    (input spike_trains : list F) (batch_size : Z) :
  0 <= enc.num_steps_ e -> 0 <= enc.input_size_ e -> 0 <= batch_size ->
  batch_size * enc.input_size_ e <= Z.of_nat (length input) ->
  enc.num_steps_ e * batch_size * enc.input_size_ e
    <= Z.of_nat (length spike_trains) ->
  exists out,
    enc.encode_rate e input spike_trains batch_size = Some out /\
    length out = length spike_trains /\
    (forall k, 0 <= k < enc.num_steps_ e * batch_size * enc.input_size_ e ->
       rd out k = Some f_one \/ rd out k = Some f_zero) /\
    (forall k, ~ 0 <= k < enc.num_steps_ e * batch_size * enc.input_size_ e ->
       rd out k = rd spike_trains k).
Proof.
  intros HT HI HB Hin Hlen.
  destruct (encode_rate_spec e input spike_trains batch_size)
    as (out & Hrun & Hl & Hval & Hframe); try done.
  exists out. split; [done |]. split; [done |]. split; [| done].
  intros k Hk. rewrite (Hval k Hk). unfold enc.rate_spike.
  destruct (RateEncoder_encode_binary
              (enc.rate_encoder_before
                 (enc.rate_input input batch_size (enc.input_size_ e)) (Z.to_nat k))
              (enc.rate_input input batch_size (enc.input_size_ e) (Z.to_nat k)))
    as [-> | ->]; auto.
Qed.
End RateExtras.

Section TemporalContrastExtras.
Context {F : Type} `{FloatOps F}.

Lemma length_of_reads (l : list F) (n : Z) :
  (forall i, 0 <= i < n -> is_Some (rd l i)) -> n <= Z.of_nat (length l).
Proof.
  intros Hrd. destruct (Z.le_gt_cases n 0) as [| Hpos]; [lia |].
  destruct (Hrd (n - 1)) as [x Hx]; [lia |].
  rewrite rd_lookup in Hx by lia. apply lookup_lt_Some in Hx. lia.
Qed.

(** The temporal-contrast encoder marks each element ON, OFF or neither and
    never both, and remembers the frame; presenting the same frame again
    compares every element with itself. *)
Theorem temporal_contrast_repeated_frame (e : enc.TemporalContrastEncoder)
    (input on_spikes off_spikes : list F) :
  0 <= enc.tc_input_size_ e ->
  enc.tc_input_size_ e <= Z.of_nat (length input) ->
  enc.tc_input_size_ e <= Z.of_nat (length (enc.prev_input_ e)) ->
  enc.tc_input_size_ e <= Z.of_nat (length on_spikes) ->
  enc.tc_input_size_ e <= Z.of_nat (length off_spikes) ->
  exists e1 on1 off1 e2 on2 off2,
    enc.TemporalContrastEncoder_encode e input on_spikes off_spikes
    = Some (e1, on1, off1) /\
    enc.TemporalContrastEncoder_encode e1 input on1 off1 = Some (e2, on2, off2) /\
    forall i, 0 <= i < enc.tc_input_size_ e ->
      (rd on1 i = Some f_one /\ rd off1 i = Some f_zero \/
       rd on1 i = Some f_zero /\ rd off1 i = Some f_one \/
       rd on1 i = Some f_zero /\ rd off1 i = Some f_zero) /\
      exists x,
        rd input i = Some x /\
        rd (enc.prev_input_ e1) i = Some x /\
        rd (enc.prev_input_ e2) i = Some x /\
        rd on2 i = Some (if f_gt (f_sub x x) (enc.threshold_ e)
                         then f_one else f_zero) /\
        rd off2 i = Some (if f_gt (f_sub x x) (enc.threshold_ e) then f_zero
                          else if f_lt (f_sub x x) (f_neg (enc.threshold_ e))
                               then f_one else f_zero).
Proof.
  intros Hn Hin Hprev Hon Hoff.
  destruct (TemporalContrastEncoder_encode_spec e input on_spikes off_spikes)
    as (e1 & on1 & off1 & Hrun1 & Hth1 & Hsz1 & Hv1); try done.
  assert (Hp1 : enc.tc_input_size_ e <= Z.of_nat (length (enc.prev_input_ e1))).
  { apply length_of_reads. intros i Hi.
    destruct (Hv1 i Hi) as (x & p & _ & _ & -> & _). eauto. }
  assert (Hon1 : enc.tc_input_size_ e <= Z.of_nat (length on1)).
  { apply length_of_reads. intros i Hi.
    destruct (Hv1 i Hi) as (x & p & _ & _ & _ & -> & _). eauto. }
  assert (Hoff1 : enc.tc_input_size_ e <= Z.of_nat (length off1)).
  { apply length_of_reads. intros i Hi.
    destruct (Hv1 i Hi) as (x & p & _ & _ & _ & _ & ->). eauto. }
  destruct (TemporalContrastEncoder_encode_spec e1 input on1 off1)
    as (e2 & on2 & off2 & Hrun2 & Hth2 & Hsz2 & Hv2); rewrite ?Hsz1; try done.
  exists e1, on1, off1, e2, on2, off2. split; [done |]. split; [done |].
  intros i Hi.
  destruct (Hv1 i Hi) as (x & p & Hx & Hp & Hx1 & Ho1 & Hf1).
  rewrite Hsz1 in Hv2.
  destruct (Hv2 i Hi) as (x' & p' & Hx' & Hp' & Hx2 & Ho2 & Hf2).
  rewrite Hx in Hx'. injection Hx' as <-.
  rewrite Hx1 in Hp'. injection Hp' as <-.
  rewrite Hth1 in Ho2, Hf2.
  split.
  - rewrite Ho1, Hf1.
    destruct (f_gt (f_sub x p) (enc.threshold_ e)); [by left |].
    destruct (f_lt (f_sub x p) (f_neg (enc.threshold_ e))); auto.
  - exists x. done.
Qed.
End TemporalContrastExtras.

(* a finite binary32 value minus itself is +0 *)
Lemma binary32_sub_self (x : spec_float) :
  binary32.is_finite x = true -> f_sub x x = S754_zero false.
Proof.
  destruct x as [s | s | | s m e]; try done; intros _.
  - by destruct s.
  - simpl. unfold SFsub. by rewrite Z.sub_diag.
Qed.

(* against a zero difference the ON test reads the sign of the threshold,
   and the OFF test never passes when the ON test failed *)
Lemma binary32_zero_against_threshold (th : spec_float) :
  f_gt (S754_zero false) th = f_lt th f_zero /\
  (f_lt th f_zero = false -> f_lt (S754_zero false) (f_neg th) = false).
Proof.
  destruct th as [s | s | | s m e]; try destruct s; split; done.
Qed.

(** In binary32, a frame of finite values presented to
    [TemporalContrastEncoder::encode] a second time raises no OFF spike at
    all, and raises an ON spike in every element exactly when the threshold
    compares below zero (for a zero, positive or NaN threshold: none). *)
Theorem temporal_contrast_static_input_binary32
    (e : enc.TemporalContrastEncoder (F:=spec_float))
    (input on_spikes off_spikes : list spec_float) :
  0 <= enc.tc_input_size_ e ->
  enc.tc_input_size_ e <= Z.of_nat (length input) ->
  enc.tc_input_size_ e <= Z.of_nat (length (enc.prev_input_ e)) ->
  enc.tc_input_size_ e <= Z.of_nat (length on_spikes) ->
  enc.tc_input_size_ e <= Z.of_nat (length off_spikes) ->
  (forall i x, 0 <= i < enc.tc_input_size_ e -> rd input i = Some x ->
     binary32.is_finite x = true) ->
  exists e1 on1 off1 e2 on2 off2,
    enc.TemporalContrastEncoder_encode e input on_spikes off_spikes
    = Some (e1, on1, off1) /\
    enc.TemporalContrastEncoder_encode e1 input on1 off1 = Some (e2, on2, off2) /\
    forall i, 0 <= i < enc.tc_input_size_ e ->
      rd on2 i = Some (if f_lt (enc.threshold_ e) f_zero then f_one else f_zero) /\
      rd off2 i = Some f_zero.
Proof.
  intros Hn Hin Hprev Hon Hoff Hfin.
  destruct (TemporalContrastEncoder_encode_spec e input on_spikes off_spikes)
    as (e1 & on1 & off1 & Hrun1 & Hth1 & Hsz1 & Hv1); try done.
  assert (Hp1 : enc.tc_input_size_ e <= Z.of_nat (length (enc.prev_input_ e1))).
  { apply length_of_reads. intros i Hi.
    destruct (Hv1 i Hi) as (x & p & _ & _ & -> & _). eauto. }
  assert (Hon1 : enc.tc_input_size_ e <= Z.of_nat (length on1)).
  { apply length_of_reads. intros i Hi.
    destruct (Hv1 i Hi) as (x & p & _ & _ & _ & -> & _). eauto. }
  assert (Hoff1 : enc.tc_input_size_ e <= Z.of_nat (length off1)).
  { apply length_of_reads. intros i Hi.
    destruct (Hv1 i Hi) as (x & p & _ & _ & _ & _ & ->). eauto. }
  destruct (TemporalContrastEncoder_encode_spec e1 input on1 off1)
    as (e2 & on2 & off2 & Hrun2 & Hth2 & Hsz2 & Hv2); rewrite ?Hsz1; try done.
  exists e1, on1, off1, e2, on2, off2. split; [done |]. split; [done |].
  intros i Hi.
  destruct (Hv1 i Hi) as (x & p & Hx & Hp & Hx1 & Ho1 & Hf1).
  rewrite Hsz1 in Hv2.
  destruct (Hv2 i Hi) as (x' & p' & Hx' & Hp' & Hx2 & Ho2 & Hf2).
  rewrite Hx in Hx'. injection Hx' as <-.
  rewrite Hx1 in Hp'. injection Hp' as <-.
  rewrite Hth1 in Ho2, Hf2. rewrite Ho2, Hf2. clear Ho2 Hf2.
  rewrite (binary32_sub_self x (Hfin i x Hi Hx)).
  destruct (binary32_zero_against_threshold (enc.threshold_ e)) as [Hgt Hlt].
  rewrite Hgt.
  destruct (f_lt (enc.threshold_ e) f_zero) eqn:Hneg; [done |].
  by rewrite Hlt.
Qed.

(** ** GEMM microbenchmark: the NEON kernel against the scalar baseline *)

Section StrideFacts.
Context {St : Type}.
Implicit Types (body : Z -> St -> option St) (s : St).

(** A strided loop goes through when it has fuel for every iteration and
    every iteration keeps the invariant. *)
Lemma for_stride_inv (P : Z -> St -> Prop) body fuel j step hi s :
  0 < step -> hi - j <= Z.of_nat fuel * step ->
  P j s ->
  (forall j' t, j <= j' < hi -> P j' t ->
     exists t', body j' t = Some t' /\ P (j' + step) t') ->
  exists s' j', for_stride fuel j step hi body s = Some s' /\ P j' s' /\ hi <= j'.
Proof.
  intros Hstep. revert j s. induction fuel as [| fuel IH]; intros j s Hfuel Hs Hbody.
  - exists s, j. simpl. destruct (Z.ltb_spec j hi); [lia |]. done.
  - simpl. destruct (Z.ltb_spec j hi) as [Hlt | Hge].
    + destruct (Hbody j s) as (t & Hb & Ht); [lia | done |].
      rewrite Hb. simpl. apply IH; [nia | done |].
      intros j' u Hj' Hu. apply Hbody; [lia | done].
    + exists s, j. done.
Qed.

(** A loop with an iteration that fails in every state fails. *)
Lemma for_stride_fails body fuel j step hi s (j0 : Z) :
  0 < step -> j <= j0 < hi -> (j0 - j) mod step = 0 ->
  (forall t, body j0 t = None) ->
  for_stride fuel j step hi body s = None.
Proof.
  intros Hstep. revert j s. induction fuel as [| fuel IH]; intros j s Hj Hmod Hfail.
  - simpl. destruct (Z.ltb_spec j hi); [done | lia].
  - simpl. destruct (Z.ltb_spec j hi); [| lia].
    destruct (Z.eq_dec j j0) as [-> | Hne]; [by rewrite Hfail |].
    destruct (body j s) as [t |]; simpl; [| done].
    apply IH; [| | done].
    + apply Z.mod_divide in Hmod; [| lia]. destruct Hmod as [q Hq].
      assert (1 <= q) by nia. nia.
    + replace (j0 - (j + step)) with (j0 - j + (-1) * step) by lia.
      by rewrite Z.mod_add by lia.
Qed.

Lemma for_loop_fails body n i s (k : Z) :
  i <= k < i + Z.of_nat n -> (forall t, body k t = None) ->
  for_loop n i body s = None.
Proof.
  revert i s. induction n as [| n IH]; intros i s Hk Hfail; [lia |].
  simpl. destruct (Z.eq_dec i k) as [-> | Hne]; [by rewrite Hfail |].
  destruct (body i s) as [t |]; simpl; [| done].
  apply IH; [lia | done].
Qed.

Lemma for_range_fails body lo hi s (k : Z) :
  lo <= k < hi -> (forall t, body k t = None) -> for_range lo hi body s = None.
Proof. intros Hk Hfail. unfold for_range. apply for_loop_fails with k; [lia | done]. Qed.
End StrideFacts.

Section GemmFacts.
Context {F : Type} `{FloatOps F}.
Implicit Types (A B C : gemm.Matrix (F:=F)).

Lemma dot_upto_S A B i j (n : nat) :
  gemm.dot_upto A B i j (S n)
  = f_add (gemm.dot_upto A B i j n)
      (f_mul (default f_zero (rd (gemm.data A) (i * gemm.cols A + Z.of_nat n)))
             (default f_zero (rd (gemm.data B) (Z.of_nat n * gemm.cols B + j)))).
Proof. unfold gemm.dot_upto. by rewrite seq_S, fold_left_app. Qed.

Lemma vld1q_f32_out_of_range (p : list F) i :
  Z.of_nat (length p) <= i + 3 -> kernels.vld1q_f32 p i = None.
Proof.
  intros Hlen. unfold kernels.vld1q_f32.
  assert (Hd : rd p (i + 3) = None).
  { unfold rd. destruct (Z.ltb_spec (i + 3) 0); [done |].
    apply lookup_ge_None. lia. }
  rewrite Hd.
  destruct (rd p i); simpl; [| done].
  destruct (rd p (i + 1)); simpl; [| done].
  by destruct (rd p (i + 2)).
Qed.

Lemma vst1q_f32_spec (p : list F) i (v : float32x4_t F) :
  0 <= i -> i + 4 <= Z.of_nat (length p) ->
  exists p',
    gemm.vst1q_f32 p i v = Some p' /\ length p' = length p /\
    rd p' i = Some (q0 v) /\ rd p' (i + 1) = Some (q1 v) /\
    rd p' (i + 2) = Some (q2 v) /\ rd p' (i + 3) = Some (q3 v) /\
    forall k, ~ i <= k < i + 4 -> rd p' k = rd p k.
Proof.
  intros Hi Hlen. unfold gemm.vst1q_f32.
  rewrite wr_in_range by lia. simpl.
  rewrite wr_in_range by (rewrite length_insert; lia). simpl.
  rewrite wr_in_range by (rewrite !length_insert; lia). simpl.
  rewrite wr_in_range by (rewrite !length_insert; lia).
  eexists. split; [reflexivity |].
  split; [by rewrite !length_insert |].
  split; [| split; [| split; [| split]]].
  - rewrite !rd_insert_ne by lia. apply rd_insert_eq. lia.
  - rewrite !rd_insert_ne by lia. apply rd_insert_eq. rewrite length_insert. lia.
  - rewrite !rd_insert_ne by lia. apply rd_insert_eq. rewrite !length_insert. lia.
  - apply rd_insert_eq. rewrite !length_insert. lia.
  - intros k Hk. rewrite !rd_insert_ne by lia. done.
Qed.

Lemma gemm_scalar_cell A B i j :
  0 <= gemm.cols A -> 0 <= i -> 0 <= j ->
  i * gemm.cols A + gemm.cols A <= Z.of_nat (length (gemm.data A)) ->
  (forall k, 0 <= k < gemm.cols A ->
     k * gemm.cols B + j < Z.of_nat (length (gemm.data B))) ->
  0 <= gemm.cols B ->
  for_range 0 (gemm.cols A)
    (fun k sum =>
       a ← rd (gemm.data A) (i * gemm.cols A + k);
       b ← rd (gemm.data B) (k * gemm.cols B + j);
       Some (f_add sum (f_mul a b)))
    f_zero
  = Some (gemm.dot A B i j).
Proof.
  intros HK Hi Hj HA HB HN.
  loop_inv (fun (k : Z) (sum : F) =>
              0 <= k /\ sum = gemm.dot_upto A B i j (Z.to_nat k)).
  - exact HK.
  - done.
  - intros k t Hk [_ ->].
    destruct (rd_is_Some (gemm.data A) (i * gemm.cols A + k)) as [a Ha]; [nia |].
    destruct (rd_is_Some (gemm.data B) (k * gemm.cols B + j)) as [b Hb].
    { specialize (HB k Hk). nia. }
    rewrite Ha, Hb. simpl. eexists. split; [reflexivity |]. split; [lia |].
    replace (Z.to_nat (k + 1)) with (S (Z.to_nat k)) by lia.
    rewrite dot_upto_S, Z2Nat.id by lia. by rewrite Ha, Hb.
  - destruct Hpost as [_ ->]. done.
Qed.

Lemma gemm_neon_cell A B i j :
  0 <= gemm.cols A -> 0 <= i -> 0 <= j ->
  i * gemm.cols A + gemm.cols A <= Z.of_nat (length (gemm.data A)) ->
  (forall k, 0 <= k < gemm.cols A ->
     k * gemm.cols B + j + 4 <= Z.of_nat (length (gemm.data B))) ->
  0 <= gemm.cols B ->
  for_range 0 (gemm.cols A)
    (fun k sum =>
       a ← rd (gemm.data A) (i * gemm.cols A + k);
       b ← kernels.vld1q_f32 (gemm.data B) (k * gemm.cols B + j);
       Some (kernels.vmlaq_f32 sum (kernels.vdupq_n_f32 a) b))
    (kernels.vdupq_n_f32 f_zero)
  = Some (mk_f32x4 (gemm.dot A B i j) (gemm.dot A B i (j + 1))
            (gemm.dot A B i (j + 2)) (gemm.dot A B i (j + 3))).
Proof.
  intros HK Hi Hj HA HB HN.
  loop_inv (fun (k : Z) (sum : float32x4_t F) =>
              0 <= k /\
              sum = mk_f32x4 (gemm.dot_upto A B i j (Z.to_nat k))
                      (gemm.dot_upto A B i (j + 1) (Z.to_nat k))
                      (gemm.dot_upto A B i (j + 2) (Z.to_nat k))
                      (gemm.dot_upto A B i (j + 3) (Z.to_nat k))).
  - exact HK.
  - done.
  - intros k t Hk [_ ->].
    destruct (rd_is_Some (gemm.data A) (i * gemm.cols A + k)) as [a Ha]; [nia |].
    destruct (vld1q_f32_in_range (gemm.data B) (k * gemm.cols B + j))
      as (b0 & b1 & b2 & b3 & Hb0 & Hb1 & Hb2 & Hb3 & Hld).
    { nia. }
    { by apply HB. }
    rewrite Ha, Hld. simpl. eexists. split; [reflexivity |]. split; [lia |].
    replace (Z.to_nat (k + 1)) with (S (Z.to_nat k)) by lia.
    rewrite !dot_upto_S, Z2Nat.id by lia.
    rewrite !Z.add_assoc, Ha, Hb0, Hb1, Hb2, Hb3. done.
  - destruct Hpost as [_ ->]. done.
Qed.

Lemma gemm_scalar_spec A B C :
  0 <= gemm.rows A -> 0 <= gemm.cols A -> 0 <= gemm.cols B ->
  gemm.cols C = gemm.cols B ->
  gemm.rows A * gemm.cols A <= Z.of_nat (length (gemm.data A)) ->
  gemm.cols A * gemm.cols B <= Z.of_nat (length (gemm.data B)) ->
  gemm.rows A * gemm.cols B <= Z.of_nat (length (gemm.data C)) ->
  exists out,
    gemm.gemm_scalar A B C = Some out /\ length out = length (gemm.data C) /\
    (forall i j, 0 <= i < gemm.rows A -> 0 <= j < gemm.cols B ->
       rd out (i * gemm.cols B + j) = Some (gemm.dot A B i j)) /\
    (forall k, ~ 0 <= k < gemm.rows A * gemm.cols B -> rd out k = rd (gemm.data C) k).
Proof.
  intros HM HK HN HC HA HB HCl.
  assert (Hrow : forall i j, 0 <= i < gemm.rows A -> 0 <= j < gemm.cols B ->
    for_range 0 (gemm.cols A)
      (fun k sum =>
         a ← rd (gemm.data A) (i * gemm.cols A + k);
         b ← rd (gemm.data B) (k * gemm.cols B + j);
         Some (f_add sum (f_mul a b)))
      f_zero
    = Some (gemm.dot A B i j)).
  { intros i j Hi Hj. apply gemm_scalar_cell; try lia; [nia |].
    intros k Hk. nia. }
  destruct (dense_loop_spec
              (fun i j =>
                 for_range 0 (gemm.cols A)
                   (fun k sum =>
                      a ← rd (gemm.data A) (i * gemm.cols A + k);
                      b ← rd (gemm.data B) (k * gemm.cols B + j);
                      Some (f_add sum (f_mul a b)))
                   f_zero)
              (gemm.data C) (gemm.rows A) (gemm.cols B))
    as (out & Hrun & Hlen & Hval & Hframe); [done | done | done | |].
  { intros i j Hi Hj. rewrite Hrow by done. eauto. }
  exists out. split; [| split; [done | split; [| done]]].
  - unfold gemm.gemm_scalar. rewrite HC. exact Hrun.
  - intros i j Hi Hj. rewrite Hval by done. by apply Hrow.
Qed.

Lemma gemm_neon_spec A B C :
  0 <= gemm.rows A -> 0 <= gemm.cols A -> 0 <= gemm.cols B ->
  gemm.cols B mod 4 = 0 ->
  gemm.cols C = gemm.cols B ->
  gemm.rows A * gemm.cols A <= Z.of_nat (length (gemm.data A)) ->
  gemm.cols A * gemm.cols B <= Z.of_nat (length (gemm.data B)) ->
  gemm.rows A * gemm.cols B <= Z.of_nat (length (gemm.data C)) ->
  exists out,
    gemm.gemm_neon A B C = Some out /\ length out = length (gemm.data C) /\
    (forall i j, 0 <= i < gemm.rows A -> 0 <= j < gemm.cols B ->
       rd out (i * gemm.cols B + j) = Some (gemm.dot A B i j)) /\
    (forall k, ~ 0 <= k < gemm.rows A * gemm.cols B -> rd out k = rd (gemm.data C) k).
Proof.
  intros HM HK HN H4 HC HA HB HCl. unfold gemm.gemm_neon. cbv zeta.
  set (N := gemm.cols B) in *.
  set (done_upto (n : Z) (out : list F) :=
    length out = length (gemm.data C) /\
    (forall i j, 0 <= i -> 0 <= j < N -> i * N + j < n ->
       rd out (i * N + j) = Some (gemm.dot A B i j)) /\
    (forall k, ~ 0 <= k < n -> rd out k = rd (gemm.data C) k)).
  loop_inv (fun (i : Z) (out : list F) => done_upto (i * N) out).
  - exact HM.
  - split; [done |]. split; [intros; nia | done].
  - intros i out Hi Hinv.
    destruct (for_stride_inv
                (fun (j : Z) (out : list F) =>
                   0 <= j <= N /\ j mod 4 = 0 /\ done_upto (i * N + j) out)
                (fun j c =>
                   sum ← for_range 0 (gemm.cols A)
                           (fun k sum =>
                              a ← rd (gemm.data A) (i * gemm.cols A + k);
                              b ← kernels.vld1q_f32 (gemm.data B) (k * N + j);
                              Some (kernels.vmlaq_f32 sum (kernels.vdupq_n_f32 a) b))
                           (kernels.vdupq_n_f32 f_zero);
                   gemm.vst1q_f32 c (i * gemm.cols C + j) sum)
                (Z.to_nat N) 0 4 N out)
      as (out' & j' & Hrun' & (Hj' & _ & Hdone) & Hge).
    + lia.
    + lia.
    + split; [lia |]. split; [done |]. by rewrite Z.add_0_r.
    + intros j t Hj (Hjr & Hjm & Hl & Hv & Hf).
      assert (Hj4 : j + 4 <= N).
      { apply Z.mod_divide in Hjm; [| lia]. destruct Hjm as [a Ha].
        apply Z.mod_divide in H4; [| lia]. destruct H4 as [b Hb]. lia. }
      rewrite gemm_neon_cell; try lia; [| nia | intros k Hk; fold N; nia].
      simpl. rewrite HC. fold N.
      destruct (vst1q_f32_spec t (i * N + j)
                  (mk_f32x4 (gemm.dot A B i j) (gemm.dot A B i (j + 1))
                     (gemm.dot A B i (j + 2)) (gemm.dot A B i (j + 3))))
        as (t' & Hst & Hl' & H0 & H1 & H2 & H3 & Hfr); [nia | rewrite Hl; nia |].
      exists t'. split; [done |].
      split; [lia |]. split.
      { replace (j + 4) with (j + 1 * 4) by lia. by rewrite Z.mod_add by lia. }
      split; [by rewrite Hl' |]. split.
      * intros i' o' Hi' Ho' Hlt.
        destruct (Z_lt_le_dec (i' * N + o') (i * N + j)) as [Hold | Hnew].
        -- rewrite Hfr by lia. by apply Hv.
        -- assert (i' = i) by nia. subst i'.
           assert (Ho : o' = j \/ o' = j + 1 \/ o' = j + 2 \/ o' = j + 3) by lia.
           destruct Ho as [-> | [-> | [-> | ->]]].
           ++ exact H0.
           ++ by rewrite Z.add_assoc.
           ++ by rewrite Z.add_assoc.
           ++ by rewrite Z.add_assoc.
      * intros k Hk. rewrite Hfr by lia. apply Hf. lia.
    + rewrite Hrun'. eexists. split; [reflexivity |].
      assert (j' = N) by lia. subst j'.
      by replace ((i + 1) * N) with (i * N + N) by lia.
  - destruct Hpost as (Hlen' & Hval & Hframe).
    eexists. split; [reflexivity |]. split; [done |]. split; [| done].
    intros i j Hi Hj. apply Hval; [lia | done | nia].
Qed.

(** When the number of columns of B is a multiple of 4 the NEON kernel
    computes, in any arithmetic, the very values the scalar baseline
    computes: each C(i, j) is the sum over k of A(i, k) * B(k, j) accumulated
    from 0.0f in the order of k, and nothing outside the product is
    touched. *)
Theorem gemm_neon_equals_gemm_scalar A B C :
  0 <= gemm.rows A -> 0 <= gemm.cols A -> 0 <= gemm.cols B ->
  gemm.cols B mod 4 = 0 ->
  gemm.cols C = gemm.cols B ->
  gemm.rows A * gemm.cols A <= Z.of_nat (length (gemm.data A)) ->
  gemm.cols A * gemm.cols B <= Z.of_nat (length (gemm.data B)) ->
  gemm.rows A * gemm.cols B <= Z.of_nat (length (gemm.data C)) ->
  exists out,
    gemm.gemm_scalar A B C = Some out /\
    gemm.gemm_neon A B C = Some out /\
    length out = length (gemm.data C) /\
    (forall i j, 0 <= i < gemm.rows A -> 0 <= j < gemm.cols B ->
       rd out (i * gemm.cols B + j) = Some (gemm.dot A B i j)) /\
    (forall k, ~ 0 <= k < gemm.rows A * gemm.cols B -> rd out k = rd (gemm.data C) k).
Proof.
  intros HM HK HN H4 HC HA HB HCl.
  destruct (gemm_scalar_spec A B C) as (o1 & Hr1 & Hl1 & Hv1 & Hf1); try done.
  destruct (gemm_neon_spec A B C) as (o2 & Hr2 & Hl2 & Hv2 & Hf2); try done.
  exists o1. split; [done |]. split; [| done].
  rewrite Hr2. f_equal. apply list_eq. intros n.
  pose proof (rd_lookup o1 (Z.of_nat n) ltac:(lia)) as E1.
  pose proof (rd_lookup o2 (Z.of_nat n) ltac:(lia)) as E2.
  rewrite Nat2Z.id in E1, E2. rewrite <- E1, <- E2.
  destruct (Z_lt_le_dec (Z.of_nat n) (gemm.rows A * gemm.cols B)) as [Hin | Hout].
  - assert (Hpos : 0 < gemm.cols B) by nia.
    pose proof (Z.div_mod (Z.of_nat n) (gemm.cols B) ltac:(lia)) as Hdm.
    pose proof (Z.mod_pos_bound (Z.of_nat n) (gemm.cols B) Hpos) as Hmb.
    assert (Hq : 0 <= Z.of_nat n / gemm.cols B < gemm.rows A).
    { split; [apply Z.div_pos; lia |]. apply Z.div_lt_upper_bound; [lia | nia]. }
    rewrite Hdm at 1 2.
    rewrite (Z.mul_comm (gemm.cols B)).
    rewrite Hv1, Hv2 by done. done.
  - rewrite Hf1, Hf2 by lia. done.
Qed.

(** When the number of columns of B is not a multiple of 4 the last block of
    the first row makes the NEON kernel load four floats of which at least
    one lies behind the rows * cols elements of B. *)
Theorem gemm_neon_overruns_ragged_columns A B C :
  1 <= gemm.rows A -> 1 <= gemm.cols A ->
  0 < gemm.cols B -> gemm.cols B mod 4 <> 0 ->
  Z.of_nat (length (gemm.data B)) <= gemm.cols A * gemm.cols B ->
  gemm.gemm_neon A B C = None.
Proof.
  intros HM HK HN H4 HB. unfold gemm.gemm_neon. cbv zeta.
  apply for_range_fails with 0; [lia |]. intros c.
  pose proof (Z.div_mod (gemm.cols B) 4 ltac:(lia)) as Hdm.
  pose proof (Z.mod_pos_bound (gemm.cols B) 4 ltac:(lia)) as Hmb.
  apply for_stride_fails with (4 * (gemm.cols B / 4)); [lia | lia | |].
  { rewrite Z.sub_0_r, Z.mul_comm. apply Z.mod_mul. lia. }
  intros c'.
  rewrite (for_range_fails _ 0 (gemm.cols A) _ (gemm.cols A - 1)); [done | lia |].
  intros sum. rewrite vld1q_f32_out_of_range by nia.
  by destruct (rd (gemm.data A) _).
Qed.
End GemmFacts.

(** ** GEMM microbenchmark: the blocked NEON kernel and the SME2 placeholder *)

(* run the strided loop in the goal under an invariant *)
Ltac stride_inv P :=
  match goal with
  | |- context [for_stride ?fuel ?j ?step ?hi ?body ?s] =>
      let r := fresh "r" in
      let last := fresh "last" in
      let Hrun := fresh "Hrun" in
      let Hpost := fresh "Hpost" in
      let Hge := fresh "Hge" in
      destruct (for_stride_inv P body fuel j step hi s)
        as (r & last & Hrun & Hpost & Hge);
      [ | | | | rewrite Hrun; simpl ]
  end.

(* compare two positions of the blocked kernel cell by cell *)
Ltac by_progress :=
  unfold gemm.blocked_progress, gemm.BLOCK_SIZE in *;
  repeat match goal with
    | |- context [Z.leb ?a ?b] => destruct (Z.leb_spec a b)
    | |- context [Z.ltb ?a ?b] => destruct (Z.ltb_spec a b)
    end;
  lia.

Section BlockedGemmFacts.
Context {F : Type} `{FloatOps F}.
Implicit Types (A B C : gemm.Matrix (F:=F)).

Lemma blocked_state_ext A B C ii jj kk i j ii' jj' kk' i0 j0 (c : list F) :
  (forall i' j', 0 <= i' < gemm.rows A -> 0 <= j' < gemm.cols B ->
     gemm.blocked_progress (gemm.cols A) ii jj kk i j i' j'
     = gemm.blocked_progress (gemm.cols A) ii' jj' kk' i0 j0 i' j') ->
  gemm.blocked_state A B C ii jj kk i j c ->
  gemm.blocked_state A B C ii' jj' kk' i0 j0 c.
Proof.
  intros Hsame (Hl & Hv & Hf). split; [done |]. split; [| done].
  intros i' j' Hi' Hj'. rewrite <- Hsame by done. by apply Hv.
Qed.

(* the k loop of one column block carries the four partial sums on *)
Lemma gemm_neon_cell_from A B i j kk k_end :
  0 <= kk <= k_end -> k_end <= gemm.cols A -> 0 <= i -> 0 <= j ->
  i * gemm.cols A + gemm.cols A <= Z.of_nat (length (gemm.data A)) ->
  (forall k, 0 <= k < gemm.cols A ->
     k * gemm.cols B + j + 4 <= Z.of_nat (length (gemm.data B))) ->
  0 <= gemm.cols B ->
  for_range kk k_end
    (fun k sum =>
       a ← rd (gemm.data A) (i * gemm.cols A + k);
       b ← kernels.vld1q_f32 (gemm.data B) (k * gemm.cols B + j);
       Some (kernels.vmlaq_f32 sum (kernels.vdupq_n_f32 a) b))
    (mk_f32x4 (gemm.dot_upto A B i j (Z.to_nat kk))
       (gemm.dot_upto A B i (j + 1) (Z.to_nat kk))
       (gemm.dot_upto A B i (j + 2) (Z.to_nat kk))
       (gemm.dot_upto A B i (j + 3) (Z.to_nat kk)))
  = Some (mk_f32x4 (gemm.dot_upto A B i j (Z.to_nat k_end))
            (gemm.dot_upto A B i (j + 1) (Z.to_nat k_end))
            (gemm.dot_upto A B i (j + 2) (Z.to_nat k_end))
            (gemm.dot_upto A B i (j + 3) (Z.to_nat k_end))).
Proof.
  intros Hkk Hke Hi Hj HA HB HN.
  loop_inv (fun (k : Z) (sum : float32x4_t F) =>
              sum = mk_f32x4 (gemm.dot_upto A B i j (Z.to_nat k))
                      (gemm.dot_upto A B i (j + 1) (Z.to_nat k))
                      (gemm.dot_upto A B i (j + 2) (Z.to_nat k))
                      (gemm.dot_upto A B i (j + 3) (Z.to_nat k))).
  - lia.
  - done.
  - intros k t Hk ->.
    destruct (rd_is_Some (gemm.data A) (i * gemm.cols A + k)) as [a Ha]; [nia |].
    destruct (vld1q_f32_in_range (gemm.data B) (k * gemm.cols B + j))
      as (b0 & b1 & b2 & b3 & Hb0 & Hb1 & Hb2 & Hb3 & Hld).
    { nia. }
    { apply HB. lia. }
    rewrite Ha, Hld. simpl. eexists. split; [reflexivity |].
    replace (Z.to_nat (k + 1)) with (S (Z.to_nat k)) by lia.
    rewrite !dot_upto_S, Z2Nat.id by lia.
    rewrite !Z.add_assoc, Ha, Hb0, Hb1, Hb2, Hb3. done.
  - by rewrite Hpost.
Qed.

(* one step of the innermost strided loop: columns j .. j + 3 of row i *)
Lemma blocked_column_step A B C ii jj kk i j (c : list F) :
  0 <= gemm.rows A -> 0 <= gemm.cols A -> 0 <= gemm.cols B ->
  gemm.rows A * gemm.cols A <= Z.of_nat (length (gemm.data A)) ->
  gemm.cols A * gemm.cols B <= Z.of_nat (length (gemm.data B)) ->
  gemm.rows A * gemm.cols B <= Z.of_nat (length (gemm.data C)) ->
  0 <= ii <= i -> i < ii + gemm.BLOCK_SIZE -> i < gemm.rows A ->
  0 <= jj <= j -> j + 4 <= jj + gemm.BLOCK_SIZE -> j + 4 <= gemm.cols B ->
  0 <= kk < gemm.cols A ->
  gemm.blocked_state A B C ii jj kk i j c ->
  exists c',
    (sum ← kernels.vld1q_f32 c (i * gemm.cols B + j);
     sum ← for_range kk (Z.min (kk + gemm.BLOCK_SIZE) (gemm.cols A))
             (fun k sum =>
                a ← rd (gemm.data A) (i * gemm.cols A + k);
                b ← kernels.vld1q_f32 (gemm.data B) (k * gemm.cols B + j);
                Some (kernels.vmlaq_f32 sum (kernels.vdupq_n_f32 a) b))
             sum;
     gemm.vst1q_f32 c (i * gemm.cols B + j) sum) = Some c' /\
    gemm.blocked_state A B C ii jj kk i (j + 4) c'.
Proof.
  intros HM HK HN HA HB HC Hii Hib Hi Hjj Hjb Hj Hkk (Hl & Hv & Hf).
  assert (Hcell : forall l, 0 <= l < 4 ->
            rd c (i * gemm.cols B + (j + l))
            = Some (gemm.dot_upto A B i (j + l) (Z.to_nat kk))).
  { intros l Hlr. rewrite Hv by lia. do 2 f_equal. by_progress. }
  pose proof (Hcell 0 ltac:(lia)) as H0. rewrite Z.add_0_r in H0.
  pose proof (Hcell 1 ltac:(lia)) as H1. rewrite Z.add_assoc in H1.
  pose proof (Hcell 2 ltac:(lia)) as H2. rewrite Z.add_assoc in H2.
  pose proof (Hcell 3 ltac:(lia)) as H3. rewrite Z.add_assoc in H3.
  destruct (vld1q_f32_in_range c (i * gemm.cols B + j))
    as (v0 & v1 & v2 & v3 & E0 & E1 & E2 & E3 & ->); [nia | rewrite Hl; nia |].
  rewrite H0 in E0. rewrite H1 in E1. rewrite H2 in E2. rewrite H3 in E3.
  injection E0 as <-. injection E1 as <-. injection E2 as <-. injection E3 as <-.
  simpl.
  rewrite gemm_neon_cell_from; try lia; [| nia | intros k Hk; nia].
  simpl.
  destruct (vst1q_f32_spec c (i * gemm.cols B + j)
              (mk_f32x4
                 (gemm.dot_upto A B i j
                    (Z.to_nat (Z.min (kk + gemm.BLOCK_SIZE) (gemm.cols A))))
                 (gemm.dot_upto A B i (j + 1)
                    (Z.to_nat (Z.min (kk + gemm.BLOCK_SIZE) (gemm.cols A))))
                 (gemm.dot_upto A B i (j + 2)
                    (Z.to_nat (Z.min (kk + gemm.BLOCK_SIZE) (gemm.cols A))))
                 (gemm.dot_upto A B i (j + 3)
                    (Z.to_nat (Z.min (kk + gemm.BLOCK_SIZE) (gemm.cols A))))))
    as (c' & Hst & Hl' & S0 & S1 & S2 & S3 & Hfr); [nia | rewrite Hl; nia |].
  exists c'. split; [done |].
  split; [by rewrite Hl' |]. split.
  - intros i' j' Hi' Hj'.
    destruct (Z.eq_dec i' i) as [-> | Hne].
    + destruct (Z_lt_le_dec j' j) as [Hlo | Hge].
      { rewrite Hfr by lia. rewrite Hv by lia. do 2 f_equal. by_progress. }
      destruct (Z_lt_le_dec j' (j + 4)) as [Hin | Hhi].
      * assert (Ho : j' = j \/ j' = j + 1 \/ j' = j + 2 \/ j' = j + 3) by lia.
        assert (Hp : gemm.blocked_progress (gemm.cols A) ii jj kk i (j + 4) i j'
                     = Z.min (kk + gemm.BLOCK_SIZE) (gemm.cols A)) by by_progress.
        rewrite Hp.
        destruct Ho as [-> | [-> | [-> | ->]]]; rewrite ?Z.add_assoc; done.
      * rewrite Hfr by lia. rewrite Hv by lia. do 2 f_equal. by_progress.
    + rewrite Hfr by nia. rewrite Hv by lia. do 2 f_equal. by_progress.
  - intros k Hk. rewrite Hfr by nia. by apply Hf.
Qed.

Lemma gemm_neon_blocked_spec A B C :
  0 <= gemm.rows A -> 0 <= gemm.cols A -> 0 <= gemm.cols B ->
  gemm.cols B mod 4 = 0 ->
  gemm.cols C = gemm.cols B ->
  gemm.rows A * gemm.cols A <= Z.of_nat (length (gemm.data A)) ->
  gemm.cols A * gemm.cols B <= Z.of_nat (length (gemm.data B)) ->
  gemm.rows A * gemm.cols B <= Z.of_nat (length (gemm.data C)) ->
  exists out,
    gemm.gemm_neon_blocked A B C = Some out /\ length out = length (gemm.data C) /\
    (forall i j, 0 <= i < gemm.rows A -> 0 <= j < gemm.cols B ->
       rd out (i * gemm.cols B + j) = Some (gemm.dot A B i j)) /\
    (forall k, ~ 0 <= k < gemm.rows A * gemm.cols B -> rd out k = rd (gemm.data C) k).
Proof.
  intros HM HK HN H4 HC HA HB HCl. unfold gemm.gemm_neon_blocked. cbv zeta.
  rewrite HC.
  apply Z.mod_divide in H4; [| lia]. destruct H4 as [n4 Hn4].
  destruct (memset_zero_spec (gemm.data C) (gemm.rows A * gemm.cols B))
    as (c0 & -> & Hl0 & Hz0 & Hf0); [nia |]. simpl.
  assert (Hst0 : gemm.blocked_state A B C 0 0 0 0 0 c0).
  { split; [done |]. split; [| done].
    intros i' j' Hi' Hj'. rewrite Hz0 by nia.
    replace (gemm.blocked_progress (gemm.cols A) 0 0 0 0 0 i' j') with 0
      by by_progress.
    done. }
  stride_inv (fun (ii : Z) (c : list F) =>
                0 <= ii /\ gemm.blocked_state A B C ii 0 0 ii 0 c).
  - unfold gemm.BLOCK_SIZE. lia.
  - unfold gemm.BLOCK_SIZE. lia.
  - done.
  - intros ii c [Hii Hlt] [_ Hst].
    stride_inv (fun (jj : Z) (c : list F) =>
                  (exists q, jj = 4 * q) /\ 0 <= jj /\
                  gemm.blocked_state A B C ii jj 0 ii jj c).
    + unfold gemm.BLOCK_SIZE. lia.
    + unfold gemm.BLOCK_SIZE. lia.
    + split; [by exists 0 |]. done.
    + intros jj c1 [Hjj Hjlt] ([q Hq] & _ & Hst1).
      stride_inv (fun (kk : Z) (c : list F) =>
                    0 <= kk /\ gemm.blocked_state A B C ii jj kk ii jj c).
      * unfold gemm.BLOCK_SIZE. lia.
      * unfold gemm.BLOCK_SIZE. lia.
      * done.
      * intros kk c2 [Hkk Hklt] [_ Hst2].
        loop_inv (fun (i : Z) (c : list F) =>
                    gemm.blocked_state A B C ii jj kk i jj c).
        -- unfold gemm.BLOCK_SIZE. lia.
        -- done.
        -- intros i c3 Hi Hst3.
           stride_inv (fun (j : Z) (c : list F) =>
                         (exists a, j = 4 * a) /\
                         jj <= j <= Z.min (jj + gemm.BLOCK_SIZE) (gemm.cols B) /\
                         gemm.blocked_state A B C ii jj kk i j c).
           ++ lia.
           ++ unfold gemm.BLOCK_SIZE. lia.
           ++ split; [by exists q |]. split; [unfold gemm.BLOCK_SIZE; lia | done].
           ++ intros j c4 [Hj Hjlt'] ([a Ha] & Hjr & Hst4).
              assert (Hj4 : j + 4 <= Z.min (jj + gemm.BLOCK_SIZE) (gemm.cols B))
                by (unfold gemm.BLOCK_SIZE in *; lia).
              destruct (blocked_column_step A B C ii jj kk i j c4)
                as (c5 & Hrun5 & Hst5); try done;
                try (unfold gemm.BLOCK_SIZE in *; lia).
              exists c5. split; [exact Hrun5 |].
              split; [exists (a + 1); lia |]. split; [lia | done].
           ++ destruct Hpost as (_ & Hjr & Hst4).
              eexists. split; [reflexivity |].
              eapply blocked_state_ext; [| exact Hst4].
              intros i' j' Hi' Hj'. by_progress.
        -- eexists. split; [reflexivity |]. split; [unfold gemm.BLOCK_SIZE; lia |].
           eapply blocked_state_ext; [| exact Hpost].
           intros i' j' Hi' Hj'. by_progress.
      * destruct Hpost as [_ Hst2]. eexists. split; [reflexivity |].
        split; [exists (q + 16); unfold gemm.BLOCK_SIZE; lia |].
        split; [unfold gemm.BLOCK_SIZE; lia |].
        eapply blocked_state_ext; [| exact Hst2].
        intros i' j' Hi' Hj'. by_progress.
    + destruct Hpost as (_ & _ & Hst1). eexists. split; [reflexivity |].
      split; [unfold gemm.BLOCK_SIZE; lia |].
      eapply blocked_state_ext; [| exact Hst1].
      intros i' j' Hi' Hj'. by_progress.
  - destruct Hpost as [_ (Hl & Hv & Hf)].
    eexists. split; [reflexivity |]. split; [by rewrite Hl |]. split.
    + intros i j Hi Hj. rewrite Hv by done. unfold gemm.dot. do 2 f_equal.
      by_progress.
    + intros k Hk. by apply Hf.
Qed.

(** When the number of columns of B is a multiple of 4, the blocked NEON
    kernel, which zeroes C and then accumulates each C(i, j) block of k by
    block of k, and with it the SME2 placeholder in either build, leave in C
    exactly what the scalar baseline leaves, in any arithmetic. *)
Theorem gemm_neon_blocked_equals_gemm_scalar (cfg : BuildConfig) A B C :
  0 <= gemm.rows A -> 0 <= gemm.cols A -> 0 <= gemm.cols B ->
  gemm.cols B mod 4 = 0 ->
  gemm.cols C = gemm.cols B ->
  gemm.rows A * gemm.cols A <= Z.of_nat (length (gemm.data A)) ->
  gemm.cols A * gemm.cols B <= Z.of_nat (length (gemm.data B)) ->
  gemm.rows A * gemm.cols B <= Z.of_nat (length (gemm.data C)) ->
  exists out,
    gemm.gemm_scalar A B C = Some out /\
    gemm.gemm_neon_blocked A B C = Some out /\
    gemm.gemm_sme2 cfg A B C = Some out.
Proof.
  intros HM HK HN H4 HC HA HB HCl.
  destruct (gemm_scalar_spec A B C) as (o1 & Hr1 & Hl1 & Hv1 & Hf1); try done.
  destruct (gemm_neon_blocked_spec A B C) as (o2 & Hr2 & Hl2 & Hv2 & Hf2); try done.
  assert (Heq : o2 = o1).
  { apply list_eq. intros n.
    pose proof (rd_lookup o1 (Z.of_nat n) ltac:(lia)) as E1.
    pose proof (rd_lookup o2 (Z.of_nat n) ltac:(lia)) as E2.
    rewrite Nat2Z.id in E1, E2. rewrite <- E1, <- E2.
    destruct (Z_lt_le_dec (Z.of_nat n) (gemm.rows A * gemm.cols B)) as [Hin | Hout].
    - assert (Hpos : 0 < gemm.cols B) by nia.
      pose proof (Z.div_mod (Z.of_nat n) (gemm.cols B) ltac:(lia)) as Hdm.
      pose proof (Z.mod_pos_bound (Z.of_nat n) (gemm.cols B) Hpos) as Hmb.
      assert (Hq : 0 <= Z.of_nat n / gemm.cols B < gemm.rows A).
      { split; [apply Z.div_pos; lia |]. apply Z.div_lt_upper_bound; [lia | nia]. }
      rewrite Hdm at 1 2.
      rewrite (Z.mul_comm (gemm.cols B)).
      rewrite Hv1, Hv2 by done. done.
    - rewrite Hf1, Hf2 by lia. done. }
  subst o2. exists o1. split; [done |]. split; [done |].
  unfold gemm.gemm_sme2. by destruct (HAVE_NEON cfg).
Qed.
End BlockedGemmFacts.

(** ** INT8 quantized dense kernel *)

Section Int8Facts.
Context {F : Type} `{FloatOps F}.
Implicit Types (spikes weights bias output : list Z).

Lemma sint_small (bits z : Z) :
  0 < bits -> - 2 ^ (bits - 1) <= z < 2 ^ (bits - 1) -> sint bits z = z.
Proof.
  intros Hb Hz. unfold sint.
  replace (2 ^ bits) with (2 * 2 ^ (bits - 1)).
  - rewrite Z.mod_small; lia.
  - rewrite <- Z.pow_succ_r by lia. f_equal. lia.
Qed.

Lemma sint16_small z : -32768 <= z <= 32767 -> sint 16 z = z.
Proof. intros Hz. apply sint_small; [lia |]. simpl. lia. Qed.

Lemma sint32_small z : INT_MIN <= z <= INT_MAX -> sint 32 z = z.
Proof.
  unfold INT_MIN, INT_MAX. intros Hz. apply sint_small; [lia |]. simpl. lia.
Qed.

Lemma int8_product_bound x y :
  is_int8 x -> is_int8 y -> -16384 <= x * y <= 16384.
Proof. unfold is_int8. intros Hx Hy. nia. Qed.

Lemma int8_elem (p : list Z) (k : Z) :
  Forall is_int8 p -> is_int8 (default 0 (rd p k)).
Proof.
  intros Hp. destruct (rd p k) as [x |] eqn:Hx; simpl; [| unfold is_int8; lia].
  unfold rd in Hx. destruct (k <? 0); [done |].
  by eapply Forall_lookup_1.
Qed.

Lemma rd_elem (p : list Z) (k : Z) :
  0 <= k < Z.of_nat (length p) -> rd p k = Some (default 0 (rd p k)).
Proof. intros Hk. by destruct (rd_is_Some p k Hk) as [x ->]. Qed.

Lemma vld1_s8_in_range (p : list Z) j :
  0 <= j -> j + 8 <= Z.of_nat (length p) ->
  kernels_int8.vld1_s8 p j
  = Some (mk_s8x8 (default 0 (rd p j)) (default 0 (rd p (j + 1)))
            (default 0 (rd p (j + 2))) (default 0 (rd p (j + 3)))
            (default 0 (rd p (j + 4))) (default 0 (rd p (j + 5)))
            (default 0 (rd p (j + 6))) (default 0 (rd p (j + 7)))).
Proof.
  intros Hj Hlen. unfold kernels_int8.vld1_s8.
  rewrite (rd_elem p j) at 1 by lia. simpl.
  rewrite (rd_elem p (j + 1)) at 1 by lia. simpl.
  rewrite (rd_elem p (j + 2)) at 1 by lia. simpl.
  rewrite (rd_elem p (j + 3)) at 1 by lia. simpl.
  rewrite (rd_elem p (j + 4)) at 1 by lia. simpl.
  rewrite (rd_elem p (j + 5)) at 1 by lia. simpl.
  rewrite (rd_elem p (j + 6)) at 1 by lia. simpl.
  rewrite (rd_elem p (j + 7)) at 1 by lia. simpl.
  reflexivity.
Qed.

Lemma vld1q_s8_in_range (p : list Z) j :
  0 <= j -> j + 16 <= Z.of_nat (length p) ->
  kernels_int8.vld1q_s8 p j
  = Some (mk_s8x16
            (mk_s8x8 (default 0 (rd p j)) (default 0 (rd p (j + 1)))
               (default 0 (rd p (j + 2))) (default 0 (rd p (j + 3)))
               (default 0 (rd p (j + 4))) (default 0 (rd p (j + 5)))
               (default 0 (rd p (j + 6))) (default 0 (rd p (j + 7))))
            (mk_s8x8 (default 0 (rd p (j + 8))) (default 0 (rd p (j + 9)))
               (default 0 (rd p (j + 10))) (default 0 (rd p (j + 11)))
               (default 0 (rd p (j + 12))) (default 0 (rd p (j + 13)))
               (default 0 (rd p (j + 14))) (default 0 (rd p (j + 15))))).
Proof.
  intros Hj Hlen. unfold kernels_int8.vld1q_s8.
  rewrite !vld1_s8_in_range by lia. simpl.
  replace (j + 8 + 1) with (j + 9) by lia.
  replace (j + 8 + 2) with (j + 10) by lia.
  replace (j + 8 + 3) with (j + 11) by lia.
  replace (j + 8 + 4) with (j + 12) by lia.
  replace (j + 8 + 5) with (j + 13) by lia.
  replace (j + 8 + 6) with (j + 14) by lia.
  replace (j + 8 + 7) with (j + 15) by lia.
  reflexivity.
Qed.

(* the products of one 16-byte block *)
Lemma int8_dot_block spikes weights spike_row weight_row (i : Z) :
  0 <= i ->
  kernels_int8.int8_dot spikes weights spike_row weight_row (Z.to_nat (i + 16))
  = kernels_int8.int8_dot spikes weights spike_row weight_row (Z.to_nat i)
    + default 0 (rd weights (weight_row + i)) * default 0 (rd spikes (spike_row + i))
    + default 0 (rd weights (weight_row + i + 1)) * default 0 (rd spikes (spike_row + i + 1))
    + default 0 (rd weights (weight_row + i + 2)) * default 0 (rd spikes (spike_row + i + 2))
    + default 0 (rd weights (weight_row + i + 3)) * default 0 (rd spikes (spike_row + i + 3))
    + default 0 (rd weights (weight_row + i + 4)) * default 0 (rd spikes (spike_row + i + 4))
    + default 0 (rd weights (weight_row + i + 5)) * default 0 (rd spikes (spike_row + i + 5))
    + default 0 (rd weights (weight_row + i + 6)) * default 0 (rd spikes (spike_row + i + 6))
    + default 0 (rd weights (weight_row + i + 7)) * default 0 (rd spikes (spike_row + i + 7))
    + default 0 (rd weights (weight_row + i + 8)) * default 0 (rd spikes (spike_row + i + 8))
    + default 0 (rd weights (weight_row + i + 9)) * default 0 (rd spikes (spike_row + i + 9))
    + default 0 (rd weights (weight_row + i + 10)) * default 0 (rd spikes (spike_row + i + 10))
    + default 0 (rd weights (weight_row + i + 11)) * default 0 (rd spikes (spike_row + i + 11))
    + default 0 (rd weights (weight_row + i + 12)) * default 0 (rd spikes (spike_row + i + 12))
    + default 0 (rd weights (weight_row + i + 13)) * default 0 (rd spikes (spike_row + i + 13))
    + default 0 (rd weights (weight_row + i + 14)) * default 0 (rd spikes (spike_row + i + 14))
    + default 0 (rd weights (weight_row + i + 15)) * default 0 (rd spikes (spike_row + i + 15)).
Proof.
  intros Hi.
  assert (Hstep : forall k k', k' = k + 1 -> 0 <= k ->
    kernels_int8.int8_dot spikes weights spike_row weight_row (Z.to_nat k')
    = kernels_int8.int8_dot spikes weights spike_row weight_row (Z.to_nat k)
      + default 0 (rd weights (weight_row + k)) * default 0 (rd spikes (spike_row + k))).
  { intros k k' -> Hk. replace (Z.to_nat (k + 1)) with (S (Z.to_nat k)) by lia.
    cbn [kernels_int8.int8_dot]. by rewrite Z2Nat.id by lia. }
  rewrite (Hstep (i + 15) (i + 16)), (Hstep (i + 14) (i + 15)),
    (Hstep (i + 13) (i + 14)), (Hstep (i + 12) (i + 13)),
    (Hstep (i + 11) (i + 12)), (Hstep (i + 10) (i + 11)),
    (Hstep (i + 9) (i + 10)), (Hstep (i + 8) (i + 9)),
    (Hstep (i + 7) (i + 8)), (Hstep (i + 6) (i + 7)),
    (Hstep (i + 5) (i + 6)), (Hstep (i + 4) (i + 5)),
    (Hstep (i + 3) (i + 4)), (Hstep (i + 2) (i + 3)),
    (Hstep (i + 1) (i + 2)), (Hstep i (i + 1)) by lia.
  rewrite !Z.add_assoc. reflexivity.
Qed.

(* one 16-byte block: two widening multiplies and two pairwise additions
   add the 16 products to the four lanes, without wrap-around *)
Lemma int8_block_accumulate (v : int32x4_t) (s w : int8x16_t) (c : Z) :
  int8x8_ok (lo8 s) -> int8x8_ok (hi8 s) -> int8x8_ok (lo8 w) -> int8x8_ok (hi8 w) ->
  0 <= c -> c + 65536 <= INT_MAX ->
  - c <= w0 v <= c -> - c <= w1 v <= c -> - c <= w2 v <= c -> - c <= w3 v <= c ->
  exists v',
    kernels_int8.vaddq_s32
      (kernels_int8.vaddq_s32 v
         (kernels_int8.vpaddlq_s16
            (kernels_int8.vmull_s8 (kernels_int8.vget_low_s8 s)
               (kernels_int8.vget_low_s8 w))))
      (kernels_int8.vpaddlq_s16
         (kernels_int8.vmull_s8 (kernels_int8.vget_high_s8 s)
            (kernels_int8.vget_high_s8 w))) = v' /\
    - (c + 65536) <= w0 v' <= c + 65536 /\ - (c + 65536) <= w1 v' <= c + 65536 /\
    - (c + 65536) <= w2 v' <= c + 65536 /\ - (c + 65536) <= w3 v' <= c + 65536 /\
    w0 v' + w1 v' + w2 v' + w3 v'
    = w0 v + w1 v + w2 v + w3 v
      + b0 (lo8 w) * b0 (lo8 s) + b1 (lo8 w) * b1 (lo8 s)
      + b2 (lo8 w) * b2 (lo8 s) + b3 (lo8 w) * b3 (lo8 s)
      + b4 (lo8 w) * b4 (lo8 s) + b5 (lo8 w) * b5 (lo8 s)
      + b6 (lo8 w) * b6 (lo8 s) + b7 (lo8 w) * b7 (lo8 s)
      + b0 (hi8 w) * b0 (hi8 s) + b1 (hi8 w) * b1 (hi8 s)
      + b2 (hi8 w) * b2 (hi8 s) + b3 (hi8 w) * b3 (hi8 s)
      + b4 (hi8 w) * b4 (hi8 s) + b5 (hi8 w) * b5 (hi8 s)
      + b6 (hi8 w) * b6 (hi8 s) + b7 (hi8 w) * b7 (hi8 s).
Proof.
  destruct s as [[x0 x1 x2 x3 x4 x5 x6 x7] [x8 x9 x10 x11 x12 x13 x14 x15]].
  destruct w as [[y0 y1 y2 y3 y4 y5 y6 y7] [y8 y9 y10 y11 y12 y13 y14 y15]].
  destruct v as [q0 q1 q2 q3].
  unfold int8x8_ok, kernels_int8.vget_low_s8, kernels_int8.vget_high_s8.
  cbn [lo8 hi8 b0 b1 b2 b3 b4 b5 b6 b7 w0 w1 w2 w3].
  intros (X0 & X1 & X2 & X3 & X4 & X5 & X6 & X7)
         (X8 & X9 & X10 & X11 & X12 & X13 & X14 & X15)
         (Y0 & Y1 & Y2 & Y3 & Y4 & Y5 & Y6 & Y7)
         (Y8 & Y9 & Y10 & Y11 & Y12 & Y13 & Y14 & Y15)
         Hc Hmax B0 B1 B2 B3.
  pose proof (int8_product_bound x0 y0 X0 Y0) as P0.
  pose proof (int8_product_bound x1 y1 X1 Y1) as P1.
  pose proof (int8_product_bound x2 y2 X2 Y2) as P2.
  pose proof (int8_product_bound x3 y3 X3 Y3) as P3.
  pose proof (int8_product_bound x4 y4 X4 Y4) as P4.
  pose proof (int8_product_bound x5 y5 X5 Y5) as P5.
  pose proof (int8_product_bound x6 y6 X6 Y6) as P6.
  pose proof (int8_product_bound x7 y7 X7 Y7) as P7.
  pose proof (int8_product_bound x8 y8 X8 Y8) as P8.
  pose proof (int8_product_bound x9 y9 X9 Y9) as P9.
  pose proof (int8_product_bound x10 y10 X10 Y10) as P10.
  pose proof (int8_product_bound x11 y11 X11 Y11) as P11.
  pose proof (int8_product_bound x12 y12 X12 Y12) as P12.
  pose proof (int8_product_bound x13 y13 X13 Y13) as P13.
  pose proof (int8_product_bound x14 y14 X14 Y14) as P14.
  pose proof (int8_product_bound x15 y15 X15 Y15) as P15.
  clear X0 X1 X2 X3 X4 X5 X6 X7 X8 X9 X10 X11 X12 X13 X14 X15.
  clear Y0 Y1 Y2 Y3 Y4 Y5 Y6 Y7 Y8 Y9 Y10 Y11 Y12 Y13 Y14 Y15.
  unfold kernels_int8.vmull_s8, kernels_int8.vpaddlq_s16, kernels_int8.vaddq_s32.
  cbn [b0 b1 b2 b3 b4 b5 b6 b7 h0 h1 h2 h3 h4 h5 h6 h7 w0 w1 w2 w3].
  set (p0 := x0 * y0) in *. set (p1 := x1 * y1) in *. set (p2 := x2 * y2) in *.
  set (p3 := x3 * y3) in *. set (p4 := x4 * y4) in *. set (p5 := x5 * y5) in *.
  set (p6 := x6 * y6) in *. set (p7 := x7 * y7) in *. set (p8 := x8 * y8) in *.
  set (p9 := x9 * y9) in *. set (p10 := x10 * y10) in *.
  set (p11 := x11 * y11) in *. set (p12 := x12 * y12) in *.
  set (p13 := x13 * y13) in *. set (p14 := x14 * y14) in *.
  set (p15 := x15 * y15) in *.
  rewrite !(Z.mul_comm y0), !(Z.mul_comm y1), !(Z.mul_comm y2), !(Z.mul_comm y3),
    !(Z.mul_comm y4), !(Z.mul_comm y5), !(Z.mul_comm y6), !(Z.mul_comm y7),
    !(Z.mul_comm y8), !(Z.mul_comm y9), !(Z.mul_comm y10), !(Z.mul_comm y11),
    !(Z.mul_comm y12), !(Z.mul_comm y13), !(Z.mul_comm y14), !(Z.mul_comm y15).
  fold p0 p1 p2 p3 p4 p5 p6 p7 p8 p9 p10 p11 p12 p13 p14 p15.
  clearbody p0 p1 p2 p3 p4 p5 p6 p7 p8 p9 p10 p11 p12 p13 p14 p15.
  unfold INT_MAX in Hmax.
  rewrite (sint16_small p0), (sint16_small p1), (sint16_small p2),
    (sint16_small p3), (sint16_small p4), (sint16_small p5), (sint16_small p6),
    (sint16_small p7), (sint16_small p8), (sint16_small p9), (sint16_small p10),
    (sint16_small p11), (sint16_small p12), (sint16_small p13),
    (sint16_small p14), (sint16_small p15) by lia.
  rewrite (sint32_small (q0 + (p0 + p1))), (sint32_small (q1 + (p2 + p3))),
    (sint32_small (q2 + (p4 + p5))), (sint32_small (q3 + (p6 + p7)))
    by (unfold INT_MIN, INT_MAX; lia).
  rewrite !sint32_small by (unfold INT_MIN, INT_MAX; lia).
  eexists. split; [reflexivity |].
  cbn [w0 w1 w2 w3]. repeat split; lia.
Qed.

Lemma int8x8_ok_loaded (p : list Z) (j : Z) :
  Forall is_int8 p ->
  int8x8_ok (mk_s8x8 (default 0 (rd p j)) (default 0 (rd p (j + 1)))
               (default 0 (rd p (j + 2))) (default 0 (rd p (j + 3)))
               (default 0 (rd p (j + 4))) (default 0 (rd p (j + 5)))
               (default 0 (rd p (j + 6))) (default 0 (rd p (j + 7)))).
Proof.
  intros Hp. unfold int8x8_ok. cbn [b0 b1 b2 b3 b4 b5 b6 b7].
  repeat split; by apply int8_elem.
Qed.

Lemma int8_vec_loop_spec spikes weights input_size spike_row weight_row fuel i v :
  Forall is_int8 spikes -> Forall is_int8 weights ->
  0 <= spike_row -> 0 <= weight_row -> 0 <= i <= input_size ->
  spike_row + input_size <= Z.of_nat (length spikes) ->
  weight_row + input_size <= Z.of_nat (length weights) ->
  input_size - i <= Z.of_nat fuel ->
  4096 * input_size <= INT_MAX ->
  (- (4096 * i) <= w0 v <= 4096 * i) -> (- (4096 * i) <= w1 v <= 4096 * i) ->
  (- (4096 * i) <= w2 v <= 4096 * i) -> (- (4096 * i) <= w3 v <= 4096 * i) ->
  w0 v + w1 v + w2 v + w3 v
  = kernels_int8.int8_dot spikes weights spike_row weight_row (Z.to_nat i) ->
  exists i' v',
    kernels_int8.int8_vec_loop fuel spikes weights input_size spike_row weight_row i v
    = Some (i', v') /\
    i <= i' <= input_size /\ input_size < i' + 16 /\
    (- (4096 * i') <= w0 v' <= 4096 * i') /\
    (- (4096 * i') <= w1 v' <= 4096 * i') /\
    (- (4096 * i') <= w2 v' <= 4096 * i') /\
    (- (4096 * i') <= w3 v' <= 4096 * i') /\
    w0 v' + w1 v' + w2 v' + w3 v'
    = kernels_int8.int8_dot spikes weights spike_row weight_row (Z.to_nat i').
Proof.
  intros Hs8 Hw8 Hsr Hwr. revert i v.
  induction fuel as [| fuel IH]; intros i v Hi Hsl Hwl Hfuel Hmax B0 B1 B2 B3 Hsum.
  - cbn [kernels_int8.int8_vec_loop].
    destruct (Z.ltb_spec (i + 15) input_size); [lia |].
    exists i, v. repeat split; lia || done.
  - cbn [kernels_int8.int8_vec_loop].
    destruct (Z.ltb_spec (i + 15) input_size); cycle 1.
    { exists i, v. repeat split; lia || done. }
    rewrite (vld1q_s8_in_range spikes (spike_row + i)) by lia.
    rewrite (vld1q_s8_in_range weights (weight_row + i)) by lia.
    cbn [mbind option_bind]. cbv zeta.
    match goal with
    | |- context [kernels_int8.vaddq_s32 (kernels_int8.vaddq_s32 v
                    (kernels_int8.vpaddlq_s16 (kernels_int8.vmull_s8
                       (kernels_int8.vget_low_s8 ?s) (kernels_int8.vget_low_s8 ?w))))
                    _] =>
        destruct (int8_block_accumulate v s w (4096 * i))
          as (v' & -> & C0 & C1 & C2 & C3 & Hsum')
    end; cbn [lo8 hi8];
      try (unfold INT_MAX in *; lia);
      try (replace (spike_row + i + 8) with (spike_row + i + 8 + 0) at 1 by lia;
           replace (spike_row + i + 9) with (spike_row + i + 8 + 1) by lia;
           replace (spike_row + i + 10) with (spike_row + i + 8 + 2) by lia;
           replace (spike_row + i + 11) with (spike_row + i + 8 + 3) by lia;
           replace (spike_row + i + 12) with (spike_row + i + 8 + 4) by lia;
           replace (spike_row + i + 13) with (spike_row + i + 8 + 5) by lia;
           replace (spike_row + i + 14) with (spike_row + i + 8 + 6) by lia;
           replace (spike_row + i + 15) with (spike_row + i + 8 + 7) by lia;
           rewrite Z.add_0_r; by apply int8x8_ok_loaded);
      try (replace (weight_row + i + 8) with (weight_row + i + 8 + 0) at 1 by lia;
           replace (weight_row + i + 9) with (weight_row + i + 8 + 1) by lia;
           replace (weight_row + i + 10) with (weight_row + i + 8 + 2) by lia;
           replace (weight_row + i + 11) with (weight_row + i + 8 + 3) by lia;
           replace (weight_row + i + 12) with (weight_row + i + 8 + 4) by lia;
           replace (weight_row + i + 13) with (weight_row + i + 8 + 5) by lia;
           replace (weight_row + i + 14) with (weight_row + i + 8 + 6) by lia;
           replace (weight_row + i + 15) with (weight_row + i + 8 + 7) by lia;
           rewrite Z.add_0_r; by apply int8x8_ok_loaded);
      try (by apply int8x8_ok_loaded).
    cbn [lo8 hi8 b0 b1 b2 b3 b4 b5 b6 b7] in Hsum'.
    destruct (IH (i + 16) v') as (i' & v'' & Hrun & Hr & Hstop & D0 & D1 & D2 & D3 & Hd);
      try lia.
    { rewrite Hsum', Hsum.
      rewrite (int8_dot_block spikes weights spike_row weight_row i) by lia.
      reflexivity. }
    exists i', v''. rewrite Hrun. repeat split; lia || done.
Qed.

Lemma int8_dot_bound spikes weights spike_row weight_row (n : nat) :
  Forall is_int8 spikes -> Forall is_int8 weights ->
  - (16384 * Z.of_nat n)
  <= kernels_int8.int8_dot spikes weights spike_row weight_row n
  <= 16384 * Z.of_nat n.
Proof.
  intros Hs8 Hw8. induction n as [| n IH]; [simpl; lia |].
  cbn [kernels_int8.int8_dot].
  pose proof (int8_product_bound _ _
                (int8_elem weights (weight_row + Z.of_nat n) Hw8)
                (int8_elem spikes (spike_row + Z.of_nat n) Hs8)) as Hp.
  lia.
Qed.

Lemma int_add_in_range (a b : Z) :
  INT_MIN <= a + b <= INT_MAX -> kernels_int8.int_add a b = Some (a + b).
Proof.
  intros Hr. unfold kernels_int8.int_add, in_int_range.
  destruct (Z.leb_spec INT_MIN (a + b)); [| lia].
  destruct (Z.leb_spec (a + b) INT_MAX); [done | lia].
Qed.

(* the value stored for (b, o): the quantized exact dot product *)
Lemma int8_row_spec spikes weights bias input_size b o (scale : F) (bias_o : Z) :
  Forall is_int8 spikes -> Forall is_int8 weights ->
  0 <= input_size -> 0 <= b -> 0 <= o ->
  o * input_size + input_size <= Z.of_nat (length weights) ->
  b * input_size + input_size <= Z.of_nat (length spikes) ->
  rd bias o = Some bias_o ->
  INT_MIN + 16384 * input_size <= bias_o <= INT_MAX - 16384 * input_size ->
  kernels_int8.int8_row spikes weights bias input_size b o scale
  = kernels_int8.quantize scale
      (bias_o + kernels_int8.int8_dot spikes weights
                  (b * input_size) (o * input_size) (Z.to_nat input_size)).
Proof.
  intros Hs8 Hw8 Hn Hb Ho Hw Hs Hbias Hrange.
  unfold kernels_int8.int8_row. cbv zeta. rewrite Hbias. cbn [mbind option_bind].
  assert (Hmax : 16384 * input_size <= INT_MAX)
    by (unfold INT_MIN, INT_MAX in *; lia).
  destruct (int8_vec_loop_spec spikes weights input_size
              (b * input_size) (o * input_size) (Z.to_nat input_size) 0
              (kernels_int8.vdupq_n_s32 0))
    as (i' & v' & -> & Hi' & Hstop & C0 & C1 & C2 & C3 & Hsum);
    try done; try nia; try lia; try (cbn [w0 w1 w2 w3 kernels_int8.vdupq_n_s32]; lia).
  cbn [mbind option_bind].
  unfold kernels_int8.vget_lane_s32_0, kernels_int8.vpadd_s32, kernels_int8.vadd_s32,
    kernels_int8.vget_low_s32, kernels_int8.vget_high_s32.
  cbn [e0 e1].
  pose proof (int8_dot_bound spikes weights (b * input_size) (o * input_size)
                (Z.to_nat i') Hs8 Hw8) as Hdb.
  rewrite Z2Nat.id in Hdb by lia.
  unfold INT_MIN, INT_MAX in *.
  rewrite (sint32_small (w0 v' + w2 v')), (sint32_small (w1 v' + w3 v'))
    by (unfold INT_MIN, INT_MAX; lia).
  rewrite sint32_small by (unfold INT_MIN, INT_MAX; lia).
  rewrite int_add_in_range by (unfold INT_MIN, INT_MAX; lia).
  cbn [mbind option_bind].
  replace (w0 v' + w2 v' + (w1 v' + w3 v'))
    with (kernels_int8.int8_dot spikes weights (b * input_size) (o * input_size)
            (Z.to_nat i')) by lia.
  loop_inv (fun (k : Z) (sum : Z) =>
              sum = bias_o + kernels_int8.int8_dot spikes weights
                               (b * input_size) (o * input_size) (Z.to_nat k)).
  - lia.
  - done.
  - intros k t Hk ->.
    rewrite (rd_elem weights (o * input_size + k)) by lia.
    rewrite (rd_elem spikes (b * input_size + k)) by lia.
    cbn [mbind option_bind].
    pose proof (int8_dot_bound spikes weights (b * input_size) (o * input_size)
                  (Z.to_nat (k + 1)) Hs8 Hw8) as Hk1.
    rewrite Z2Nat.id in Hk1 by lia.
    replace (Z.to_nat (k + 1)) with (S (Z.to_nat k)) in * by lia.
    cbn [kernels_int8.int8_dot] in *. rewrite Z2Nat.id in * by lia.
    rewrite int_add_in_range by (unfold INT_MIN, INT_MAX; lia).
    eexists. split; [reflexivity |]. lia.
  - by rewrite Hpost.
Qed.

Lemma quantize_is_int8 (scale : F) (sum q : Z) :
  kernels_int8.quantize scale sum = Some q -> is_int8 q.
Proof.
  unfold kernels_int8.quantize.
  destruct (f_to_int _) as [v |]; simpl; [| done].
  intros [= <-]. unfold is_int8. lia.
Qed.

(** Where no 32-bit sum can overflow (every bias[o] is at least
    16384 * input_size away from both ends of int32_t) the I8MM kernel stores
    for (b, o) the quantization of the exact integer bias[o] + sum over i of
    weights[o][i] * spikes[b][i]: the 16-lane widening multiply-accumulate,
    the horizontal sum and the scalar remainder loop lose nothing; every
    stored value is an int8_t value, and nothing else is written. *)
Theorem int8_kernel_quantizes_exact_dot spikes weights bias output
    batch_size input_size output_size (scale : F) :
  Forall is_int8 spikes -> Forall is_int8 weights ->
  0 <= batch_size -> 0 <= input_size -> 0 <= output_size ->
  batch_size * input_size <= Z.of_nat (length spikes) ->
  output_size * input_size <= Z.of_nat (length weights) ->
  output_size <= Z.of_nat (length bias) ->
  batch_size * output_size <= Z.of_nat (length output) ->
  (forall o bias_o, 0 <= o < output_size -> rd bias o = Some bias_o ->
     INT_MIN + 16384 * input_size <= bias_o <= INT_MAX - 16384 * input_size) ->
  (forall b o, 0 <= b < batch_size -> 0 <= o < output_size ->
     is_Some (kernels_int8.quantize scale
                (default 0 (rd bias o)
                 + kernels_int8.int8_dot spikes weights
                     (b * input_size) (o * input_size) (Z.to_nat input_size)))) ->
  exists out,
    kernels_int8.spike_dense_neon_int8 spikes weights bias output
      batch_size input_size output_size scale = Some out /\
    length out = length output /\
    (forall b o, 0 <= b < batch_size -> 0 <= o < output_size ->
       exists q,
         rd out (b * output_size + o) = Some q /\ is_int8 q /\
         kernels_int8.quantize scale
           (default 0 (rd bias o)
            + kernels_int8.int8_dot spikes weights
                (b * input_size) (o * input_size) (Z.to_nat input_size))
         = Some q) /\
    (forall k, ~ 0 <= k < batch_size * output_size -> rd out k = rd output k).
Proof.
  intros Hs8 Hw8 HB HI HO Hs Hw Hbi Hout Hrange Hq.
  assert (Hrow : forall b o, 0 <= b < batch_size -> 0 <= o < output_size ->
            kernels_int8.int8_row spikes weights bias input_size b o scale
            = kernels_int8.quantize scale
                (default 0 (rd bias o)
                 + kernels_int8.int8_dot spikes weights
                     (b * input_size) (o * input_size) (Z.to_nat input_size))).
  { intros b o Hb Ho.
    destruct (rd_is_Some bias o) as [bias_o Hbo]; [lia |].
    rewrite Hbo. simpl.
    apply int8_row_spec; try done; try lia; try nia.
    by apply (Hrange o). }
  destruct (dense_loop_spec
              (fun b o => kernels_int8.int8_row spikes weights bias input_size b o scale)
              output batch_size output_size)
    as (out & Hrun & Hlen & Hval & Hframe); [done | done | done | |].
  { intros b o Hb Ho. rewrite Hrow by done. by apply Hq. }
  exists out. split; [exact Hrun |]. split; [done |]. split; [| done].
  intros b o Hb Ho. rewrite Hval, Hrow by done.
  destruct (Hq b o Hb Ho) as [q Hqq]. exists q. rewrite Hqq.
  split; [done |]. split; [| done]. by eapply quantize_is_int8.
Qed.
End Int8Facts.

(** ** The properties above on concrete inputs *)

(* a buffer requested with capacity 0 is full and empty at once *)
Lemma ring_buffer_full_and_empty_are_no_ops_witness :
  ring_buffer.write (ring_buffer.mk_RingBuffer [binary32.of_int 0] 1 0 0)
    [binary32.of_int 9] 1
  = Some (ring_buffer.mk_RingBuffer [binary32.of_int 0] 1 0 0, 0) /\
  ring_buffer.read (ring_buffer.mk_RingBuffer [binary32.of_int 0] 1 0 0)
    [binary32.of_int 9] 1
  = Some (ring_buffer.mk_RingBuffer [binary32.of_int 0] 1 0 0, [binary32.of_int 9], 0).
Proof.
  destruct (ring_buffer_full_and_empty_are_no_ops
              (ring_buffer.mk_RingBuffer [binary32.of_int 0] 1 0 0)
              [binary32.of_int 9] 1)
    as (Hw & Hr & _).
  - unfold ring_buffer.well_formed, sizeof_float, SIZE_MOD. simpl. lia.
  - lia.
  - split; [apply Hw | apply Hr]; reflexivity.
Defined.

Lemma ring_buffer_clear_discards_unread_witness :
  ring_buffer.read
    (ring_buffer.clear
       (ring_buffer.mk_RingBuffer (map binary32.of_int [1; 2; 3; 4; 0]) 5 4 0))
    (map binary32.of_int [7; 7]) 2
  = Some (ring_buffer.clear
            (ring_buffer.mk_RingBuffer (map binary32.of_int [1; 2; 3; 4; 0]) 5 4 0),
          map binary32.of_int [7; 7], 0).
Proof.
  destruct (ring_buffer_clear_discards_unread
              (ring_buffer.mk_RingBuffer (map binary32.of_int [1; 2; 3; 4; 0]) 5 4 0)
              (map binary32.of_int [7; 7]) 2)
    as (_ & _ & _ & _ & _ & _ & Hr).
  - unfold ring_buffer.well_formed, sizeof_float, SIZE_MOD. simpl. lia.
  - lia.
  - exact Hr.
Defined.

Lemma ring_buffer_write_then_read_all_witness :
  exists rb1 rb2 dest',
    ring_buffer.write
      (ring_buffer.mk_RingBuffer (map binary32.of_int [0; 8; 9; 0; 0]) 5 3 1)
      (map binary32.of_int [1; 2]) 2
    = Some (rb1, 2) /\
    ring_buffer.read rb1 (map binary32.of_int [0; 0; 0; 0; 0]) 4
    = Some (rb2, dest', 4) /\
    take 4 dest' = map binary32.of_int [8; 9; 1; 2].
Proof.
  destruct (ring_buffer_write_then_read_all
              (ring_buffer.mk_RingBuffer (map binary32.of_int [0; 8; 9; 0; 0]) 5 3 1)
              (map binary32.of_int [1; 2]) (map binary32.of_int [0; 0; 0; 0; 0]))
    as (rb1 & rb2 & dest' & Hw & Hr & Htake & _).
  - unfold ring_buffer.well_formed, sizeof_float, SIZE_MOD. simpl. lia.
  - vm_compute. discriminate.
  - vm_compute. discriminate.
  - exists rb1, rb2, dest'. split; [exact Hw |]. split; [exact Hr | exact Htake].
Defined.

Lemma spike_ring_is_a_bounded_queue_witness :
  spike_ring.push (spike_ring.mk_RingBuffer [5; 6; 0] 3 2 0) 7
  = Some (spike_ring.mk_RingBuffer [5; 6; 0] 3 2 0, false) /\
  spike_ring.pop (spike_ring.mk_RingBuffer [5; 6; 0] 3 2 0) 7
  = Some (spike_ring.mk_RingBuffer [5; 6; 0] 3 2 1, 5, true).
Proof.
  destruct (@spike_ring_is_a_bounded_queue Z
              (spike_ring.mk_RingBuffer [5; 6; 0] 3 2 0) 7)
    as [[[_ Hpush] | [Hlt _]] [[Hnil _] | (v & rest & rb' & Hitems & Hpop & _)]].
  - unfold spike_ring.well_formed, SIZE_MOD. simpl. lia.
  - discriminate Hnil.
  - split; [exact Hpush | reflexivity].
  - vm_compute in Hlt. discriminate Hlt.
  - vm_compute in Hlt. discriminate Hlt.
Defined.

Lemma spike_ring_stores_capacity_minus_one_witness :
  exists rb',
    spike_ring.push_all (spike_ring.create 0 3) [5; 6; 7; 8]
    = Some (rb', [true; true; false; false]) /\
    spike_ring.items rb' = [5; 6] /\ spike_ring.size rb' = 2.
Proof.
  destruct (@spike_ring_stores_capacity_minus_one Z 0 3 [5; 6; 7; 8])
    as (rb' & Hpush & Hitems & Hsize).
  - unfold SIZE_MOD. lia.
  - exists rb'. split; [exact Hpush |]. split; [exact Hitems | exact Hsize].
Defined.

Lemma spike_ring_observers_agree_witness :
  spike_ring.full (spike_ring.mk_RingBuffer [5; 6; 0] 3 2 0) = Some true /\
  spike_ring.items (spike_ring.clear (spike_ring.mk_RingBuffer [5; 6; 0] 3 2 0)) = [].
Proof.
  destruct (@spike_ring_observers_agree Z (spike_ring.mk_RingBuffer [5; 6; 0] 3 2 0))
    as (_ & _ & _ & Hfull & _ & Hitems & _).
  - unfold spike_ring.well_formed, SIZE_MOD. simpl. lia.
  - split; [exact Hfull | exact Hitems].
Defined.

Lemma forward_keeps_parameters_and_reset_erases_witness :
  exists L' out',
    lif.forward cfg_sme2_neon 3 sample_layer sample_input
      [binary32.of_int 7; binary32.of_int 7] 1
    = Some (Some (L', out')) /\
    lif.reset L' = lif.reset sample_layer.
Proof.
  destruct (forward_keeps_parameters_and_reset_erases cfg_sme2_neon 3 sample_layer
              sample_input [binary32.of_int 7; binary32.of_int 7] 1)
    as (L' & out' & Hfw & _ & _ & Hreset).
  - unfold lif.well_formed. simpl. lia.
  - reflexivity.
  - lia.
  - simpl. lia.
  - simpl. lia.
  - exists L', out'. split; [exact Hfw | exact Hreset].
Defined.


Lemma load_weights_spec_witness :
  (exists L',
     load_weights sample_layer (map binary32.of_int [1; 2; 3; 4; 5; 6; 7; 8; 9])
       (map binary32.of_int [10; 20]) = Some L' /\
     weights_ L' = map binary32.of_int [1; 2; 3; 4; 5; 6; 7; 8] /\
     bias_ L' = map binary32.of_int [10; 20]) /\
  load_weights sample_layer (map binary32.of_int [1; 2; 3; 4; 5; 6; 7])
    (map binary32.of_int [10; 20]) = None.
Proof.
  split.
  - destruct (load_weights_spec sample_layer
                (map binary32.of_int [1; 2; 3; 4; 5; 6; 7; 8; 9])
                (map binary32.of_int [10; 20]))
      as [Hok _].
    + unfold lif.well_formed. simpl. lia.
    + unfold sizeof_float, SIZE_MOD. simpl. lia.
    + unfold sizeof_float, SIZE_MOD. simpl. lia.
    + destruct Hok as (L' & Hload & Hw & Hb & _).
      * simpl. lia.
      * simpl. lia.
      * exists L'. split; [exact Hload |]. split; [exact Hw | exact Hb].
  - destruct (load_weights_spec sample_layer
                (map binary32.of_int [1; 2; 3; 4; 5; 6; 7])
                (map binary32.of_int [10; 20]))
      as [_ Hshort].
    + unfold lif.well_formed. simpl. lia.
    + unfold sizeof_float, SIZE_MOD. simpl. lia.
    + unfold sizeof_float, SIZE_MOD. simpl. lia.
    + apply Hshort. left. simpl. lia.
Defined.

Lemma kernel_selection_by_build_witness :
  kernels.call cfg_sme2_neon 3 K_forward
    cancel_spikes cancel_weights cancel_bias [binary32.of_int 0] 1 4 1
  = Some (kernels.neon_loop
            cancel_spikes cancel_weights cancel_bias [binary32.of_int 0] 1 4 1).
Proof.
  apply (kernel_selection_by_build cfg_sme2_neon 3 K_forward
           cancel_spikes cancel_weights cancel_bias [binary32.of_int 0] 1 4 1).
  - reflexivity.
  - lia.
Defined.

Lemma dense_loops_skip_empty_shapes_witness :
  kernels.scalar_loop cancel_spikes cancel_weights cancel_bias
    [binary32.of_int 7] 1 4 0 = Some [binary32.of_int 7] /\
  kernels.neon_loop cancel_spikes cancel_weights cancel_bias
    [binary32.of_int 7] 1 4 0 = Some [binary32.of_int 7].
Proof.
  apply (dense_loops_skip_empty_shapes cancel_spikes cancel_weights cancel_bias
           [binary32.of_int 7] 1 4 0).
  right. lia.
Defined.

Lemma dense_loops_without_inputs_witness :
  exists out_scalar out_neon,
    kernels.scalar_loop cancel_spikes cancel_weights cancel_bias
      [binary32.of_int 7] 1 0 1 = Some out_scalar /\
    kernels.neon_loop cancel_spikes cancel_weights cancel_bias
      [binary32.of_int 7] 1 0 1 = Some out_neon /\
    rd out_scalar 0 = rd cancel_bias 0.
Proof.
  destruct (dense_loops_without_inputs cancel_spikes cancel_weights cancel_bias
              [binary32.of_int 7] 1 0 1)
    as (o1 & o2 & H1 & H2 & Hv).
  - lia.
  - lia.
  - lia.
  - simpl. lia.
  - simpl. lia.
  - exists o1, o2. split; [exact H1 |]. split; [exact H2 |].
    apply (Hv 0 0); lia.
Defined.

Lemma rate_encoding_writes_only_spikes_witness :
  exists out : list Qc,
    enc.encode_rate (H0:=stand_in_stdlib) (enc.mk_SpikeEncoder 2 3 RATE)
      (map exact.of_int [1; -1]) (replicate 8 (exact.of_int 7)) 1 = Some out /\
    (forall k, 0 <= k < 6 -> rd out k = Some f_one \/ rd out k = Some f_zero) /\
    rd out 6 = Some (exact.of_int 7).
Proof.
  destruct (@rate_encoding_writes_only_spikes Qc exact_ops stand_in_stdlib
              (enc.mk_SpikeEncoder 2 3 RATE)
              (map exact.of_int [1; -1]) (replicate 8 (exact.of_int 7)) 1)
    as (out & Hrun & _ & Hbin & Hframe).
  - simpl. lia.
  - simpl. lia.
  - lia.
  - simpl. lia.
  - simpl. lia.
  - exists out. split; [exact Hrun |]. split.
    + intros k Hk. apply Hbin. simpl. lia.
    + rewrite Hframe; [reflexivity | simpl; lia].
Defined.

Lemma temporal_contrast_repeated_frame_witness :
  exists e1 on1 off1 e2 on2 off2,
    enc.TemporalContrastEncoder_encode
      (enc.TemporalContrastEncoder_new 2 (exact.of_int 1))
      (map exact.of_int [5; -5]) (map exact.of_int [9; 9]) (map exact.of_int [9; 9])
    = Some (e1, on1, off1) /\
    enc.TemporalContrastEncoder_encode e1 (map exact.of_int [5; -5]) on1 off1
    = Some (e2, on2, off2).
Proof.
  destruct (@temporal_contrast_repeated_frame Qc exact_ops
              (enc.TemporalContrastEncoder_new 2 (exact.of_int 1))
              (map exact.of_int [5; -5]) (map exact.of_int [9; 9])
              (map exact.of_int [9; 9]))
    as (e1 & on1 & off1 & e2 & on2 & off2 & H1 & H2 & _).
  - simpl. lia.
  - simpl. lia.
  - simpl. lia.
  - simpl. lia.
  - simpl. lia.
  - exists e1, on1, off1, e2, on2, off2. split; [exact H1 | exact H2].
Defined.

Lemma temporal_contrast_static_input_binary32_witness :
  exists e1 on1 off1 e2 on2 off2,
    enc.TemporalContrastEncoder_encode
      (enc.TemporalContrastEncoder_new 2 (binary32.of_int (-1)))
      (map binary32.of_int [5; -5]) (map binary32.of_int [9; 9])
      (map binary32.of_int [9; 9])
    = Some (e1, on1, off1) /\
    enc.TemporalContrastEncoder_encode e1 (map binary32.of_int [5; -5]) on1 off1
    = Some (e2, on2, off2) /\
    rd on2 0 = Some (binary32.of_int 1) /\ rd off2 1 = Some (binary32.of_int 0).
Proof.
  destruct (temporal_contrast_static_input_binary32
              (enc.TemporalContrastEncoder_new 2 (binary32.of_int (-1)))
              (map binary32.of_int [5; -5]) (map binary32.of_int [9; 9])
              (map binary32.of_int [9; 9]))
    as (e1 & on1 & off1 & e2 & on2 & off2 & H1 & H2 & Hv).
  - simpl. lia.
  - simpl. lia.
  - simpl. lia.
  - simpl. lia.
  - simpl. lia.
  - intros i x Hi Hx. simpl in Hi.
    assert (Hi01 : i = 0 \/ i = 1) by lia.
    destruct Hi01 as [-> | ->]; vm_compute in Hx; injection Hx as <-; reflexivity.
  - exists e1, on1, off1, e2, on2, off2. split; [exact H1 |]. split; [exact H2 |].
    split.
    + destruct (Hv 0) as [Hon _]; [simpl; lia |]. exact Hon.
    + destruct (Hv 1) as [_ Hoff]; [simpl; lia |]. exact Hoff.
Defined.

Lemma gemm_neon_equals_gemm_scalar_witness :
  exists out,
    gemm.gemm_scalar
      (gemm.mk_Matrix (map binary32.of_int [1; 2]) 1 2)
      (gemm.mk_Matrix (map binary32.of_int [1; 2; 3; 4; 5; 6; 7; 8]) 2 4)
      (gemm.mk_Matrix (map binary32.of_int [0; 0; 0; 0]) 1 4) = Some out /\
    gemm.gemm_neon
      (gemm.mk_Matrix (map binary32.of_int [1; 2]) 1 2)
      (gemm.mk_Matrix (map binary32.of_int [1; 2; 3; 4; 5; 6; 7; 8]) 2 4)
      (gemm.mk_Matrix (map binary32.of_int [0; 0; 0; 0]) 1 4) = Some out.
Proof.
  destruct (gemm_neon_equals_gemm_scalar
              (gemm.mk_Matrix (map binary32.of_int [1; 2]) 1 2)
              (gemm.mk_Matrix (map binary32.of_int [1; 2; 3; 4; 5; 6; 7; 8]) 2 4)
              (gemm.mk_Matrix (map binary32.of_int [0; 0; 0; 0]) 1 4))
    as (out & Hs & Hn & _).
  - simpl. lia.
  - simpl. lia.
  - simpl. lia.
  - reflexivity.
  - reflexivity.
  - simpl. lia.
  - simpl. lia.
  - simpl. lia.
  - exists out. split; [exact Hs | exact Hn].
Defined.

Lemma gemm_neon_overruns_ragged_columns_witness :
  gemm.gemm_neon
    (gemm.mk_Matrix (map binary32.of_int [1; 2]) 1 2)
    (gemm.mk_Matrix (map binary32.of_int [1; 2; 3; 4; 5; 6]) 2 3)
    (gemm.mk_Matrix (map binary32.of_int [0; 0; 0]) 1 3) = None.
Proof.
  apply (gemm_neon_overruns_ragged_columns
           (gemm.mk_Matrix (map binary32.of_int [1; 2]) 1 2)
           (gemm.mk_Matrix (map binary32.of_int [1; 2; 3; 4; 5; 6]) 2 3)
           (gemm.mk_Matrix (map binary32.of_int [0; 0; 0]) 1 3)).
  - simpl. lia.
  - simpl. lia.
  - simpl. lia.
  - intros Hc. vm_compute in Hc. discriminate Hc.
  - simpl. lia.
Defined.

Lemma gemm_neon_blocked_equals_gemm_scalar_witness :
  exists out,
    gemm.gemm_scalar
      (gemm.mk_Matrix (map binary32.of_int [1; 2]) 1 2)
      (gemm.mk_Matrix (map binary32.of_int [1; 2; 3; 4; 5; 6; 7; 8]) 2 4)
      (gemm.mk_Matrix (map binary32.of_int [9; 9; 9; 9]) 1 4) = Some out /\
    gemm.gemm_sme2 cfg_sme2_neon
      (gemm.mk_Matrix (map binary32.of_int [1; 2]) 1 2)
      (gemm.mk_Matrix (map binary32.of_int [1; 2; 3; 4; 5; 6; 7; 8]) 2 4)
      (gemm.mk_Matrix (map binary32.of_int [9; 9; 9; 9]) 1 4) = Some out.
Proof.
  destruct (gemm_neon_blocked_equals_gemm_scalar cfg_sme2_neon
              (gemm.mk_Matrix (map binary32.of_int [1; 2]) 1 2)
              (gemm.mk_Matrix (map binary32.of_int [1; 2; 3; 4; 5; 6; 7; 8]) 2 4)
              (gemm.mk_Matrix (map binary32.of_int [9; 9; 9; 9]) 1 4))
    as (out & Hs & _ & Hsme).
  - simpl. lia.
  - simpl. lia.
  - simpl. lia.
  - reflexivity.
  - reflexivity.
  - simpl. lia.
  - simpl. lia.
  - simpl. lia.
  - exists out. split; [exact Hs | exact Hsme].
Defined.

Lemma int8_kernel_quantizes_exact_dot_witness :
  exists out,
    kernels_int8.spike_dense_neon_int8
      [1; 0; 1; 1; 0; 0; 1; 0; 1; 1; 1; 0; 0; 1; 0; 1; 1]
      [3; -7; 12; 100; -128; 127; 5; 9; -20; 33; 64; -64; 1; 2; -3; 4; 50]
      [5] [0] 1 17 1 (binary32.of_int 1) = Some out /\
    exists q, rd out 0 = Some q /\ is_int8 q.
Proof.
  destruct (int8_kernel_quantizes_exact_dot
              [1; 0; 1; 1; 0; 0; 1; 0; 1; 1; 1; 0; 0; 1; 0; 1; 1]
              [3; -7; 12; 100; -128; 127; 5; 9; -20; 33; 64; -64; 1; 2; -3; 4; 50]
              [5] [0] 1 17 1 (binary32.of_int 1))
    as (out & Hrun & _ & Hval & _).
  - repeat (constructor; [unfold is_int8; lia |]). constructor.
  - repeat (constructor; [unfold is_int8; lia |]). constructor.
  - lia.
  - lia.
  - lia.
  - simpl. lia.
  - simpl. lia.
  - simpl. lia.
  - simpl. lia.
  - intros o bias_o Ho Hb. replace o with 0 in Hb by lia.
    injection Hb as <-. unfold INT_MIN, INT_MAX. lia.
  - intros b o Hb Ho. replace b with 0 by lia. replace o with 0 by lia.
    vm_compute. eauto.
  - exists out. split; [exact Hrun |].
    destruct (Hval 0 0) as (q & Hq & Hq8 & _); [lia | lia |].
    exists q. split; [exact Hq | exact Hq8].
Defined.
